(** * DramaBox front-end: episode pagination, merge and API logging

    A shallow embedding of the parts of the repository that assemble the
    episode list ([src/api/chapter.ts], [src/components/MovieDetail.tsx])
    and of the API logging helpers ([src/utils/apiLogger.ts],
    [src/utils/logger.ts], [src/config/logging.ts]), with the properties
    the specification states about them.

    Further parts cover the code around these: the runs of the paginated
    fetcher, the download list ([src/api/download.ts]), the
    recommendations and the drama detail ([src/api/drama.ts],
    [src/api/detail.ts]), the player's handlers
    ([src/components/MovieDetail.tsx]), the endpoint loggers, the logger's
    ledger of pushed entries and its log files, the request headers of the
    proxy ([src/pages/api/proxy]) and the token cache
    ([src/api/dramaboxHelper.ts]).

    Conventions: JavaScript numbers that the code only uses as integers
    (page numbers, indexes, flags, timestamps in milliseconds) are [Z];
    strings are [string]; [null]/[undefined] results are [option];
    a thrown exception is the [Throw] branch of [Completion]. *)

From Stdlib Require Import ZArith String Ascii List Bool Lia.
From stdpp Require Import base option list gmap strings pretty fin_maps.
Import ListNotations.

#[local] Set Warnings "-register-all".

Local Open Scope string_scope.
Local Open Scope Z_scope.
Local Open Scope list_scope.

(** ** Completions: a call either returns a value or throws *)

Inductive Completion (E A : Type) : Type :=
| Return (a : A)
| Throw (e : E).
Arguments Return {E A} a.
Arguments Throw {E A} e.

(** ** Data model ([src/types/api], as declared in the helper module) *)

Record VideoPathItem : Type := mkVideoPathItem {
  quality : Z;
  videoPath : string;
  isDefault : Z;
  isEntry : Z;
  isVipEquity : Z
}.

(** [videoPathList] is declared mandatory, but [getBestVideoUrl] guards
    against its absence, so the field is optional here. *)
Record CDNItem : Type := mkCDNItem {
  cdnDomain : option string;
  cdnIsDefault : Z;
  videoPathList : option (list VideoPathItem);
  cdnName : option string;
  url : option string
}.

(** One entry of a detail record's [chapterSizeVoList]; opaque to the code
    modelled here, which only copies the list. *)
Record ChapterSizeVo : Type := mkChapterSizeVo {
  sizeQuality : Z;
  sizeBytes : Z
}.

(** A chapter as the chapter endpoint returns it.  [isPay] and
    [chapterSizeVoList] are not part of the declared interface: they only
    exist on merged chapters, hence the options. *)
Record Chapter : Type := mkChapter {
  chapterId : string;
  chapterIndex : Z;
  isCharge : Z;
  chapterName : string;
  cdnList : option (list CDNItem);
  chapterImg : string;
  chapterType : Z;
  viewingDuration : Z;
  chargeChapter : bool;
  isPay : option Z;
  chapterSizeVoList : option (list ChapterSizeVo)
}.

(** * Paginated fetcher ([src/api/chapter.ts]) *)

Module Paging.

(** What [apiRequest] gives back for one chapter request: the response
    body's [data.chapterList] (possibly missing), or a rejection (network
    failure or non-2xx status, rethrown by [apiRequest]). *)
Inductive ApiOutcome : Type :=
| Response (chapterList : option (list Chapter))
| Rejected (err : string).

(** Observable effects of a run, in program order. *)
Inductive Event : Type :=
| Request (bookId : string) (index : Z)
    (* apiRequest("/drama-box/chapterv2/batch/load", {index, bookId, ...}) *)
| Delay (ms : Z)
    (* await new Promise(resolve => setTimeout(resolve, ms)) *)
| ConsoleRequestError (err : string)
    (* console.error of apiRequest's catch block, before it rethrows *)
| ConsoleDebugLoaded (bookId : string) (index : Z) (count : nat)
| ConsoleInfoCalled (bookId : string) (index : Z) (count : nat)
| ConsoleChapterList (bookId : string) (index : Z) (names : list string)
| ConsoleHeader (totalEpisodes totalPages : Z)
| ConsolePageLoaded (page : Z) (count total : nat)
| ConsoleStopping (page : Z)
| ConsoleError (page : Z) (err : string)
    (* console.error(`Error loading page ${page}:`, error) *)
| ConsoleContinuing
| ConsoleTotal (total : nat)
| ConsoleMissing (totalEpisodes : Z) (total : nat).

Definition error_bookId_required : string := "bookId wajib diisi!".

(** [Math.ceil(n / d)] on integers, [d > 0]. *)
Definition ceil_div (n d : Z) : Z := - ((- n) / d).

Definition episodesPerPage : Z := 6.

(** [1 + (page - 1) * 6]: the start index of a page: 1, 7, 13, ... *)
Definition startIndexOf (page : Z) : Z := 1 + (page - 1) * 6.

(** The pages [1 .. totalPages] a [for (page = 1; page <= totalPages; page++)]
    loop visits (none when [totalPages < 1]). *)
Definition pagesUpTo (totalPages : Z) : list Z := seqZ 1 totalPages.

(** The page a start index belongs to. *)
Definition pageOfIndex (index : Z) : Z := (index - 1) / 6 + 1.

Section WithUpstream.

(** The upstream service: what a chapter request for [bookId] at [index]
    comes back with.  A run requests every index at most once, so a
    function of the request covers every sequence of outcomes. *)
Variable apiRequest : string -> Z -> ApiOutcome.

(** [getChapters(bookId, log, startIndex)]. *)
Definition getChapters (bookId : string) (log : bool) (startIndex : Z)
  : list Event * Completion string (list Chapter) :=
  if decide (bookId = EmptyString) then ([], Throw error_bookId_required)
  else
    match apiRequest bookId startIndex with
    | Rejected err => ([Request bookId startIndex; ConsoleRequestError err], Throw err)
    | Response chapterList =>
        let chapters := default [] chapterList in
        ([Request bookId startIndex;
          ConsoleDebugLoaded bookId startIndex (length chapters);
          ConsoleInfoCalled bookId startIndex (length chapters)]
         ++ (if log
             then [ConsoleChapterList bookId startIndex (map chapterName chapters)]
             else []),
         Return chapters)
    end.

(** The body of the page loop of [getAllChapters], over the pages still to
    visit; [allChapters] is the accumulator the loop pushes onto. *)
Fixpoint pageLoop (bookId : string) (log : bool) (totalPages : Z)
    (pages : list Z) (allChapters : list Chapter)
  : list Event * list Chapter :=
  match pages with
  | [] => ([], allChapters)
  | page :: rest =>
      let startIndex := startIndexOf page in
      match getChapters bookId false startIndex with
      | (evs, Return chapters) =>
          let evs := evs ++ [ConsoleDebugLoaded bookId startIndex (length chapters)] in
          if (0 <? length chapters)%nat then
            let allChapters := allChapters ++ chapters in
            let evs := evs ++
              (if log then [ConsolePageLoaded page (length chapters) (length allChapters)]
               else []) ++
              (if page <? totalPages then [Delay 100] else []) in
            let '(evs', result) := pageLoop bookId log totalPages rest allChapters in
            (evs ++ evs', result)
          else
            (* break *)
            (evs ++ (if log then [ConsoleStopping page] else []), allChapters)
      | (evs, Throw err) =>
          (* catch (error) { ...; continue; } *)
          let evs := evs ++ [ConsoleError page err] ++
                     (if log then [ConsoleContinuing] else []) in
          let '(evs', result) := pageLoop bookId log totalPages rest allChapters in
          (evs ++ evs', result)
      end
  end.

(** [getAllChapters(bookId, totalEpisodes, log)]. *)
Definition getAllChapters (bookId : string) (totalEpisodes : Z) (log : bool)
  : list Event * Completion string (list Chapter) :=
  if decide (bookId = EmptyString) then ([], Throw error_bookId_required)
  else
    let totalPages := ceil_div totalEpisodes episodesPerPage in
    let header := if log then [ConsoleHeader totalEpisodes totalPages] else [] in
    let '(evs, allChapters) :=
      pageLoop bookId log totalPages (pagesUpTo totalPages) [] in
    let footer :=
      if log then
        [ConsoleTotal (length allChapters)] ++
        (if Z.of_nat (length allChapters) <? totalEpisodes
         then [ConsoleMissing totalEpisodes (length allChapters)] else [])
      else [] in
    (header ++ evs ++ footer, Return allChapters).

(** The chapter requests a run issued, by start index, in order. *)
Definition requestsOf (evs : list Event) : list Z :=
  omap (fun e => match e with Request _ i => Some i | _ => None end) evs.

(** ... and the pages these requests were for. *)
Definition pagesRequested (evs : list Event) : list Z :=
  map pageOfIndex (requestsOf evs).

(** The pages whose failure was reported on the console, with the error. *)
Definition errorsOf (evs : list Event) : list (Z * string) :=
  omap (fun e => match e with ConsoleError p err => Some (p, err) | _ => None end) evs.

(** A page "returns zero items": the request succeeds with an empty or
    missing chapter list. *)
Definition emptyPage (bookId : string) (page : Z) : Prop :=
  match apiRequest bookId (startIndexOf page) with
  | Response chapterList => default [] chapterList = []
  | Rejected _ => False
  end.

(** The items a page contributes: its chapter list when the request
    succeeds, nothing when it is rejected. *)
Definition itemsOf (bookId : string) (page : Z) : list Chapter :=
  match apiRequest bookId (startIndexOf page) with
  | Response chapterList => default [] chapterList
  | Rejected _ => []
  end.

#[export] Instance emptyPage_dec bookId page : Decision (emptyPage bookId page).
Proof.
  unfold emptyPage. destruct (apiRequest bookId (startIndexOf page)); apply _.
Defined.

(** The pages a loop over [pages] visits: all of them up to and including
    the first one that returns zero items. *)
Fixpoint visited (bookId : string) (pages : list Z) : list Z :=
  match pages with
  | [] => []
  | page :: rest =>
      if decide (emptyPage bookId page) then [page]
      else page :: visited bookId rest
  end.

(** What the console reports for a page: its rejection, if any. *)
Definition rejectionOf (bookId : string) (page : Z) : option (Z * string) :=
  match apiRequest bookId (startIndexOf page) with
  | Rejected err => Some (page, err)
  | Response _ => None
  end.

End WithUpstream.

End Paging.

(** * Episode merger and URL selection ([src/components/MovieDetail.tsx]) *)

Module MovieDetail.

(** One entry of the detail record's [list]: the per-episode metadata the
    merge reads.  [isPay] and [chapterSizeVoList] may be missing, which is
    what the [|| 0] and [|| []] of the merge are for. *)
Record DetailEpisode : Type := mkDetailEpisode {
  detChapterIndex : Z;
  detIsCharge : Z;
  detIsPay : option Z;
  detChapterSizeVoList : option (list ChapterSizeVo)
}.

(** [x || d] on a possibly missing number: [undefined] and [0] are falsy. *)
Definition numberOr (x : option Z) (d : Z) : Z :=
  match x with
  | Some v => if v =? 0 then d else v
  | None => d
  end.

(** [x || d] on a possibly missing array: every array is truthy. *)
Definition arrayOr {A : Type} (x : option (list A)) (d : list A) : list A :=
  match x with
  | Some l => l
  | None => d
  end.

(** The callback of [chaptersData.map((chapter, index) => ...)]. *)
Definition mergeChapter (detailEpisodes : list DetailEpisode)
    (index : nat) (chapter : Chapter) : Chapter :=
  match detailEpisodes !! index with
  | Some detailEpisode =>
      {| chapterId := chapterId chapter;
         chapterIndex := detChapterIndex detailEpisode;
         isCharge := detIsCharge detailEpisode;
         chapterName := chapterName chapter;
         cdnList := cdnList chapter;
         chapterImg := chapterImg chapter;
         chapterType := chapterType chapter;
         viewingDuration := viewingDuration chapter;
         chargeChapter := chargeChapter chapter;
         isPay := Some (numberOr (detIsPay detailEpisode) 0);
         chapterSizeVoList := Some (arrayOr (detChapterSizeVoList detailEpisode) []) |}
  | None => chapter
  end.

(** [mergedChapters] of [fetchDramaData]. *)
Definition mergedChapters (chaptersData : list Chapter)
    (detailEpisodes : list DetailEpisode) : list Chapter :=
  imap (mergeChapter detailEpisodes) chaptersData.

(** The predicates of the two [find] calls of [getBestVideoUrl]. *)
Definition isNonVipDefault (v : VideoPathItem) : bool :=
  (isDefault v =? 1) && (isVipEquity v =? 0).

Definition isNonVip (v : VideoPathItem) : bool :=
  isVipEquity v =? 0.

(** The [for (const cdn of chapter.cdnList)] loop of [getBestVideoUrl]. *)
Fixpoint cdnLoop (cdns : list CDNItem) : option string :=
  match cdns with
  | [] => None
  | cdn :: rest =>
      match videoPathList cdn with
      | None | Some [] => cdnLoop rest          (* continue *)
      | Some videos =>
          match find isNonVipDefault videos with
          | Some nonVipDefault => Some (videoPath nonVipDefault)
          | None =>
              match find isNonVip videos with
              | Some nonVip => Some (videoPath nonVip)
              | None =>
                  match videos !! 0%nat with
                  | Some first => Some (videoPath first)
                  | None => cdnLoop rest
                  end
              end
          end
      end
  end.

(** [getBestVideoUrl(chapter)]; [None] is [null]. *)
Definition getBestVideoUrl (chapter : Chapter) : option string :=
  match cdnList chapter with
  | None | Some [] => None
  | Some cdns => cdnLoop cdns
  end.


(** The selection rule in the specification's words: within a CDN entry,
    a default and non-gated variant, else the first non-gated one, else
    the first one. *)
Definition preferredVariant (videos : list VideoPathItem) : option VideoPathItem :=
  match find isNonVipDefault videos with
  | Some v => Some v
  | None =>
      match find isNonVip videos with
      | Some v => Some v
      | None => head videos
      end
  end.



End MovieDetail.

(** * JavaScript values

    Structured payloads (request and response bodies, headers, error
    objects) as trees.  Object entries are kept in property order, as
    [Object.entries] lists them. *)

Module Js.

Inductive JsVal : Type :=
| JUndefined
| JNull
| JBool (b : bool)
| JNum (n : Z)
| JStr (s : string)
| JArr (items : list JsVal)
| JObj (entries : list (string * JsVal)).

Inductive JsError : Type :=
| TypeError (message : string).

(** [!!v] *)
Definition truthy (v : JsVal) : bool :=
  match v with
  | JUndefined | JNull => false
  | JBool b => b
  | JNum n => negb (n =? 0)
  | JStr s => negb (bool_decide (s = EmptyString))
  | JArr _ | JObj _ => true
  end.

(** [typeof v === 'object'] (which holds of [null]). *)
Definition typeofObject (v : JsVal) : bool :=
  match v with
  | JNull | JArr _ | JObj _ => true
  | _ => false
  end.

(** [typeof v === 'string'] *)
Definition typeofString (v : JsVal) : bool :=
  match v with
  | JStr _ => true
  | _ => false
  end.

(** [a || b] *)
Definition jsOr (a b : JsVal) : JsVal := if truthy a then a else b.

(** The first entry stored under a key. *)
Fixpoint assoc {A : Type} (k : string) (entries : list (string * A)) : option A :=
  match entries with
  | [] => None
  | (k', v) :: rest => if decide (k' = k) then Some v else assoc k rest
  end.

(** [v.name]: a [TypeError] on [null] and [undefined], [undefined] for a
    property that is not there (the names read by the code modelled here
    are never built-in properties of strings or arrays). *)
Definition getProp (v : JsVal) (name : string) : Completion JsError JsVal :=
  match v with
  | JUndefined | JNull =>
      Throw (TypeError ("Cannot read properties of null or undefined, reading " +:+ name))
  | JObj entries => Return (default JUndefined (assoc name entries))
  | _ => Return JUndefined
  end.

(** [v?.name] *)
Definition getPropOpt (v : JsVal) (name : string) : JsVal :=
  match v with
  | JObj entries => default JUndefined (assoc name entries)
  | _ => JUndefined
  end.

(** An optional string field as a value: [undefined] when missing. *)
Definition ofOption (o : option string) : JsVal :=
  match o with
  | Some s => JStr s
  | None => JUndefined
  end.

(** *** Positions inside a payload *)




(** *** [JSON.stringify] *)

Definition doubleQuote : string := String (ascii_of_nat 34) EmptyString.

Definition hexDigit (n : nat) : ascii :=
  ascii_of_nat (if (n <? 10)%nat then 48 + n else 87 + n).

(** One code unit inside a JSON string literal. *)
Definition quoteChar (c : ascii) : string :=
  let n := nat_of_ascii c in
  if (n =? 34)%nat then "\" +:+ doubleQuote
  else if (n =? 92)%nat then "\\"
  else if (n =? 8)%nat then "\b"
  else if (n =? 9)%nat then "\t"
  else if (n =? 10)%nat then "\n"
  else if (n =? 12)%nat then "\f"
  else if (n =? 13)%nat then "\r"
  else if (n <? 32)%nat then
    "\u00" +:+ String (hexDigit (n / 16)) (String (hexDigit (n mod 16)) EmptyString)
  else String c EmptyString.

Fixpoint quoteChars (s : string) : string :=
  match s with
  | EmptyString => EmptyString
  | String c rest => quoteChar c +:+ quoteChars rest
  end.

Definition quoteJSONString (s : string) : string :=
  doubleQuote +:+ quoteChars s +:+ doubleQuote.

(** [JSON.stringify(v)]: [None] is the [undefined] it returns for
    [undefined]; inside an array [undefined] prints as [null], inside an
    object the property is left out. *)
Fixpoint JSON_stringify (v : JsVal) : option string :=
  match v with
  | JUndefined => None
  | JNull => Some "null"
  | JBool b => Some (if b then "true" else "false")
  | JNum n => Some (pretty n)
  | JStr s => Some (quoteJSONString s)
  | JArr items =>
      Some ("[" +:+
            String.concat ","
              (map (fun item => default "null" (JSON_stringify item)) items)
            +:+ "]")
  | JObj entries =>
      Some ("{" +:+
            String.concat ","
              (flat_map (fun '(k, value) =>
                           match JSON_stringify value with
                           | Some s => [quoteJSONString k +:+ ":" +:+ s]
                           | None => []
                           end) entries)
            +:+ "}")
  end.

End Js.

(** * The logger and its durable-sink buffer ([src/utils/logger.ts]) *)

Module Logger.
Import Js.

Inductive LogLevel : Type := DEBUG | INFO | WARN | ERROR | FATAL.

(** The numeric value of the enum member. *)
Definition levelValue (l : LogLevel) : Z :=
  match l with
  | DEBUG => 0 | INFO => 1 | WARN => 2 | ERROR => 3 | FATAL => 4
  end.

(** [LogLevel[level]] *)
Definition getLevelName (l : LogLevel) : string :=
  match l with
  | DEBUG => "DEBUG" | INFO => "INFO" | WARN => "WARN"
  | ERROR => "ERROR" | FATAL => "FATAL"
  end.

Record LogEntry : Type := mkLogEntry {
  timestamp : string;
  level : LogLevel;
  levelName : string;
  message : string;
  data : JsVal;
  source : option string;
  requestId : option string;
  userId : option string;
  sessionId : string
}.

Record LoggerConfig : Type := mkLoggerConfig {
  logLevel : LogLevel;
  enableFileLogging : bool;
  enableConsoleLogging : bool;
  logDirectory : string;
  maxLogFiles : Z;
  maxFileSize : Z;
  dateFormat : string;
  includeStackTrace : bool
}.

(** A buffered entry together with its push number.  The number is not in
    the program: it tells apart two pushes of equal entries, so that the
    history below can speak of "the same push". *)
Abbreviation Pushed := (nat * LogEntry)%type.

Inductive ConsoleLine : Type :=
| ConsoleEntry (level : LogLevel) (text : string) (data : option JsVal)
| ConsoleTrace
| ConsoleWriteFailed (entry : LogEntry).

(** A logger instance between two turns of the event loop.
    [drains] holds one element per call of [flushLogs] that took a
    snapshot: the entries of its [logsToFlush] still waiting for their
    [writeToFile].  The last two fields are history, kept for the
    statements only: every push so far and every snapshot so far. *)
Record State : Type := mkState {
  config : LoggerConfig;
  isServer : bool;
  session : string;
  logBuffer : list Pushed;
  drains : list (list Pushed);
  console : list ConsoleLine;
  written : list Pushed;
  pushes : list Pushed;
  snapshots : list (list Pushed)
}.

Definition initial (cfg : LoggerConfig) (server : bool) (sid : string) : State :=
  {| config := cfg; isServer := server; session := sid;
     logBuffer := []; drains := []; console := []; written := [];
     pushes := []; snapshots := [] |}.

(** [shouldLog(level)] *)
Definition shouldLog (s : State) (l : LogLevel) : bool :=
  levelValue (logLevel (config s)) <=? levelValue l.

(** [createLogEntry]; [now] is the timestamp [getTimestamp()] reads. *)
Definition createLogEntry (s : State) (now : string) (l : LogLevel)
    (msg : string) (d : JsVal) (src rid uid : option string) : LogEntry :=
  {| timestamp := now; level := l; levelName := getLevelName l;
     message := msg; data := d; source := src; requestId := rid;
     userId := uid; sessionId := session s |}.

(** [logToConsole(entry)] *)
Definition logToConsole (s : State) (entry : LogEntry) : State :=
  if enableConsoleLogging (config s) then
    let line := ConsoleEntry (level entry)
                  ("[" +:+ levelName entry +:+ "] " +:+ message entry)
                  (if truthy (data entry) then Some (data entry) else None) in
    let trace :=
      match level entry with
      | ERROR | FATAL => if includeStackTrace (config s) then [ConsoleTrace] else []
      | _ => []
      end in
    {| config := config s; isServer := isServer s; session := session s;
       logBuffer := logBuffer s; drains := drains s;
       console := console s ++ line :: trace;
       written := written s; pushes := pushes s; snapshots := snapshots s |}
  else s.

(** [this.logBuffer.push(entry)] *)
Definition pushEntry (s : State) (entry : LogEntry) : State :=
  let p : Pushed := (length (pushes s), entry) in
  {| config := config s; isServer := isServer s; session := session s;
     logBuffer := logBuffer s ++ [p]; drains := drains s;
     console := console s; written := written s;
     pushes := pushes s ++ [p]; snapshots := snapshots s |}.

(** [flushLogs()] up to its first [await]:
    [const logsToFlush = [...this.logBuffer]; this.logBuffer = [];]
    The loop over [logsToFlush] is left suspended in [drains]. *)
Definition flushLogs (s : State) : State :=
  match logBuffer s with
  | [] => s
  | _ =>
    let logsToFlush := logBuffer s in
    {| config := config s; isServer := isServer s; session := session s;
       logBuffer := []; drains := drains s ++ [logsToFlush];
       console := console s; written := written s;
       pushes := pushes s; snapshots := snapshots s ++ [logsToFlush] |}
  end.

(** [processLog(level, message, data, source, requestId, userId)] up to
    its first [await]. *)
Definition processLog (s : State) (now : string) (l : LogLevel) (msg : string)
    (d : JsVal) (src rid uid : option string) : State :=
  if shouldLog s l then
    let entry := createLogEntry s now l msg d src rid uid in
    let s := logToConsole s entry in
    if isServer s && enableFileLogging (config s) then
      let s := pushEntry s entry in
      if levelValue ERROR <=? levelValue l then flushLogs s else s
    else s
  else s.

(** One iteration of the suspended [for (const entry of logsToFlush)
    await this.writeToFile(entry)] of drain [i]; [ok] tells whether the
    file write went through ([writeToFile] catches a failure and reports
    it on the console). *)
Definition resumeDrain (s : State) (i : nat) (ok : bool) : State :=
  match drains s !! i with
  | Some (p :: rest) =>
    {| config := config s; isServer := isServer s; session := session s;
       logBuffer := logBuffer s; drains := <[i := rest]> (drains s);
       console := if ok then console s
                  else console s ++ [ConsoleWriteFailed (snd p)];
       written := if ok then written s ++ [p] else written s;
       pushes := pushes s; snapshots := snapshots s |}
  | _ => s
  end.

(** What can happen in one turn of the event loop.  The program performs
    the first [writeToFile] of a drain in the turn that took the snapshot;
    here it may as well wait for a later turn, so the schedules of the
    program are among those of the model. *)
Inductive Action : Type :=
| CallProcessLog (now : string) (l : LogLevel) (msg : string) (d : JsVal)
    (src rid uid : option string)
| CallFlushLogs
| ResumeDrain (i : nat) (ok : bool).

Definition step (s : State) (a : Action) : State :=
  match a with
  | CallProcessLog now l msg d src rid uid => processLog s now l msg d src rid uid
  | CallFlushLogs => flushLogs s
  | ResumeDrain i ok => resumeDrain s i ok
  end.

(** An interleaving: any sequence of turns. *)
Definition run (s : State) (actions : list Action) : State :=
  foldl step s actions.

Definition pushIds (l : list Pushed) : list nat := map fst l.

(** What every interleaving preserves: the pushes so far are the
    snapshots taken so far, in order, followed by the buffer; the pending
    part of every drain is the rest of its own snapshot; push numbers
    count up from zero; and what has been written was written once, by the
    drain whose snapshot holds it, which no longer has it pending. *)
Record Invariant (s : State) : Prop := mkInvariant {
  inv_partition : concat (snapshots s) ++ logBuffer s = pushes s;
  inv_ids : pushIds (pushes s) = seq 0 (length (pushes s));
  inv_pending : Forall2 (fun pending snapshot => pending `suffix_of` snapshot)
                        (drains s) (snapshots s);
  inv_written : NoDup (pushIds (written s));
  inv_written_from :
    forall p, p ∈ written s ->
      exists i snapshot pending,
        snapshots s !! i = Some snapshot /\ drains s !! i = Some pending /\
        p ∈ snapshot /\ fst p ∉ pushIds pending
}.

End Logger.

(** * API logging helpers ([src/utils/apiLogger.ts], [src/config/logging.ts]) *)

Module ApiLogger.
Import Js.

(** ** Configuration *)

(** The sources of [apiLoggingSettings.sensitiveDataPatterns]; every
    pattern is a plain word with the [i] flag. *)
Definition sensitiveDataPatterns : list string :=
  ["password"; "token"; "secret"; "key"; "authorization"; "cookie"; "session"].

Definition lowerChar (c : ascii) : ascii :=
  let n := nat_of_ascii c in
  if ((65 <=? n) && (n <=? 90))%nat then ascii_of_nat (n + 32) else c.

Fixpoint lower (s : string) : string :=
  match s with
  | EmptyString => EmptyString
  | String c rest => String (lowerChar c) (lower rest)
  end.

(** [s] has [pat] as a substring. *)
Fixpoint contains (pat s : string) : bool :=
  String.prefix pat s ||
  match s with
  | EmptyString => false
  | String _ rest => contains pat rest
  end.

(** [/source/i.test(key)] for a pattern that is a plain word. *)
Definition testIgnoreCase (source key : string) : bool :=
  contains (lower source) (lower key).

(** [sensitiveDataPatterns.some(pattern => pattern.test(key))] *)
Definition isSensitive (key : string) : bool :=
  existsb (fun pattern => testIgnoreCase pattern key) sensitiveDataPatterns.

Definition slowRequestThreshold : Z := 3000.

(** [getEnvironment() === 'development'] decides the next three. *)
Definition logRequests (environment : string) : bool :=
  bool_decide (environment = "development").

Definition logResponseBodies (environment : string) : bool :=
  bool_decide (environment = "development").

Definition maxResponseBodyLength (environment : string) : Z :=
  if bool_decide (environment = "development") then 5000 else 1000.

(** ** Redaction and truncation *)

Definition redactedMarker : string := "[REDACTED]".
Definition tooDeepMarker : string := "[Object too deep]".

(** [value && typeof value === 'object'] *)
Definition isObjectValue (value : JsVal) : bool :=
  truthy value && typeofObject value.

(** [sanitizeRecursive(obj, depth)] *)
Fixpoint sanitizeRecursive (obj : JsVal) (depth : nat) {struct obj} : JsVal :=
  if (5 <? depth)%nat then JStr tooDeepMarker
  else
    match obj with
    | JArr items => JArr (map (fun item => sanitizeRecursive item (S depth)) items)
    | JObj entries =>
        JObj (map (fun '(key, value) =>
                     (key,
                      if isSensitive key then JStr redactedMarker
                      else if isObjectValue value
                           then sanitizeRecursive value (S depth)
                           else value))
                  entries)
    | _ => obj
    end.

(** [sanitizeData(data)].  The shallow copy [[...data]] / [{...data}] has
    the same entries as [data], so on trees it is [data] itself. *)
Definition sanitizeData (data : JsVal) : JsVal :=
  if negb (truthy data) || negb (typeofObject data) then data
  else
    let sanitized := data in
    sanitizeRecursive sanitized 0.




(** [bodyString]: the body itself when it is a string, its JSON text
    otherwise ([None]: [JSON.stringify] returned [undefined]). *)
Definition bodyStringOf (body : JsVal) : option string :=
  match body with
  | JStr s => Some s
  | _ => JSON_stringify body
  end.

Definition truncatedWrapper (originalLength : nat) (shown : string) : JsVal :=
  JObj [("_truncated", JBool true);
        ("_originalLength", JNum (Z.of_nat originalLength));
        ("_data", JStr shown)].

(** [truncateResponseBody(body, maxLength)] *)
Definition truncateResponseBody (body : JsVal) (maxLength : Z)
  : Completion JsError JsVal :=
  if negb (truthy body) then Return body
  else
    match bodyStringOf body with
    | None => Throw (TypeError "Cannot read properties of undefined, reading length")
    | Some bodyString =>
        if Z.of_nat (String.length bodyString) <=? maxLength then Return body
        else
          Return (truncatedWrapper (String.length bodyString)
                    (substring 0 (Z.to_nat maxLength) bodyString +:+ "..."))
    end.

(** ** The request tracker *)

Record ApiLogContext : Type := mkApiLogContext {
  requestId : string;
  method : string;
  url : string;
  timestamp : Z;
  userId : option string;
  sessionId : option string;
  userAgent : option string;
  ip : option string
}.

Record ApiRequestLog : Type := mkApiRequestLog {
  reqContext : ApiLogContext;
  headers : JsVal;
  body : JsVal;
  query : JsVal
}.

Record ApiResponseLog : Type := mkApiResponseLog {
  resContext : ApiLogContext;
  status : Z;
  duration : Z;
  responseBody : JsVal;
  error : JsVal
}.

(** A JavaScript [Map] with string keys: entries in insertion order. *)
Abbreviation JsMap V := (list (string * V)).

Definition Map_get {V : Type} (k : string) (m : JsMap V) : option V := assoc k m.

Fixpoint Map_set {V : Type} (k : string) (v : V) (m : JsMap V) : JsMap V :=
  match m with
  | [] => [(k, v)]
  | (k', v') :: rest =>
      if decide (k' = k) then (k', v) :: rest else (k', v') :: Map_set k v rest
  end.

Definition Map_delete {V : Type} (k : string) (m : JsMap V) : JsMap V :=
  filter (fun e => fst e ≠ k) m.

(** No key twice: what every [Map] satisfies. *)
Definition Map_wf {V : Type} (m : JsMap V) : Prop := NoDup (map fst m).

(** The calls made on the underlying [Logger], with their arguments. *)
Inductive LoggerCall : Type :=
| Call_warn (message : string) (data : JsVal) (source : option string)
| Call_error (message : string) (data : JsVal)
| Call_info (message : string) (data : JsVal)
| Call_apiRequest (method url : string) (requestData : JsVal) (requestId : string)
| Call_apiResponse (method url : string) (status : Z) (responseData : JsVal)
    (requestId : string) (duration : Z)
| Call_apiError (method url : string) (errorData : JsVal) (requestId : string).

(** The severity at which [Logger] records each call ([logger.ts]). *)
Definition levelOf (c : LoggerCall) : Logger.LogLevel :=
  match c with
  | Call_warn _ _ _ => Logger.WARN
  | Call_error _ _ => Logger.ERROR
  | Call_info _ _ => Logger.INFO
  | Call_apiRequest _ _ _ _ => Logger.INFO
  | Call_apiResponse _ _ st _ _ _ => if 400 <=? st then Logger.ERROR else Logger.INFO
  | Call_apiError _ _ _ _ => Logger.ERROR
  end.

(** An [ApiLogger] instance and its surroundings: the tracker, the calls
    made on the logger so far, and how many times the clock and the random
    generator have been read. *)
Record State : Type := mkState {
  activeRequests : JsMap ApiLogContext;
  calls : list LoggerCall;
  clockReads : nat;
  randomReads : nat
}.

Definition initial : State :=
  {| activeRequests := []; calls := []; clockReads := 0; randomReads := 0 |}.

(** Methods run in a state-and-exception monad. *)
Definition M (A : Type) : Type := State -> Completion JsError A * State.

#[export] Instance M_ret : MRet M := fun A a s => (Return a, s).

#[export] Instance M_bind : MBind M := fun A B k m s =>
  match m s with
  | (Return a, s') => k a s'
  | (Throw e, s') => (Throw e, s')
  end.

Definition liftCompletion {A : Type} (c : Completion JsError A) : M A :=
  fun s => (c, s).

Definition getActive : M (JsMap ApiLogContext) :=
  fun s => (Return (activeRequests s), s).

Definition setActive (m : JsMap ApiLogContext) : M unit :=
  fun s => (Return tt,
            {| activeRequests := m; calls := calls s;
               clockReads := clockReads s; randomReads := randomReads s |}).

(** The state after one more call on the logger. *)
Definition recordCall (c : LoggerCall) (s : State) : State :=
  {| activeRequests := activeRequests s; calls := calls s ++ [c];
     clockReads := clockReads s; randomReads := randomReads s |}.

(** [this.logger.<method>(...)] *)
Definition logger (c : LoggerCall) : M unit :=
  fun s => (Return tt, recordCall c s).

(** [null] or [undefined]: the values a property read throws on. *)
Definition isNullish (v : JsVal) : bool :=
  match v with
  | JUndefined | JNull => true
  | _ => false
  end.

Definition when (b : bool) (m : M unit) : M unit :=
  if b then m else mret tt.

(** [for (const x of xs) body(x)] *)
Fixpoint forEach {A : Type} (xs : list A) (body : A -> M unit) : M unit :=
  match xs with
  | [] => mret tt
  | x :: rest => body x ;; forEach rest body
  end.

(** ** Methods of [ApiLogger] *)

Record Stats : Type := mkStats {
  total : nat;
  byMethod : gmap string Z;
  oldestRequest : option string
}.

Section WithWorld.

(** [getEnvironment()], the successive readings of [Date.now()], and the
    successive results of [Math.random().toString(36).substr(2, 9)]. *)
Variable environment : string.
Variable clock : nat -> Z.
Variable random : nat -> string.

Definition Date_now : M Z :=
  fun s => (Return (clock (clockReads s)),
            {| activeRequests := activeRequests s; calls := calls s;
               clockReads := S (clockReads s); randomReads := randomReads s |}).

Definition Math_random_suffix : M string :=
  fun s => (Return (random (randomReads s)),
            {| activeRequests := activeRequests s; calls := calls s;
               clockReads := clockReads s; randomReads := S (randomReads s) |}).

(** [generateRequestId()] *)
Definition generateRequestId : M string :=
  now ← Date_now;
  suffix ← Math_random_suffix;
  mret ("req_" +:+ pretty now +:+ "_" +:+ suffix).

(** [logRequest(request)] *)
Definition logRequest (request : ApiRequestLog) : M string :=
  let given := reqContext request in
  rid ← (if decide (requestId given = EmptyString)
         then generateRequestId else mret (requestId given));
  now ← Date_now;
  let context :=
    {| requestId := rid; method := method given; url := url given;
       timestamp := now; userId := userId given; sessionId := sessionId given;
       userAgent := userAgent given; ip := ip given |} in
  active ← getActive;
  setActive (Map_set rid context active);;
  when (logRequests environment)
    (let logData :=
       JObj [("method", JStr (method given));
             ("url", JStr (url given));
             ("headers", sanitizeData (headers request));
             ("body", sanitizeData (body request));
             ("query", query request);
             ("userAgent", ofOption (userAgent given));
             ("ip", ofOption (ip given))] in
     logger (Call_apiRequest (method given) (url given) logData rid));;
  mret rid.

(** [logResponse(response)] *)
Definition logResponse (response : ApiResponseLog) : M unit :=
  let rid := requestId (resContext response) in
  active ← getActive;
  match Map_get rid active with
  | None =>
      logger (Call_warn ("No request context found for response: " +:+ rid)
                JUndefined None)
  | Some context =>
      elapsed ← (if duration response =? 0
                 then now ← Date_now; mret (now - timestamp context)
                 else mret (duration response));
      when (slowRequestThreshold <? elapsed)
        (logger (Call_warn
                   ("Slow API request detected: " +:+ method context +:+ " " +:+ url context)
                   (JObj [("requestId", JStr rid);
                          ("duration", JStr (pretty elapsed +:+ "ms"));
                          ("threshold", JStr (pretty slowRequestThreshold +:+ "ms"))])
                   (Some "API-PERFORMANCE")));;
      shown ← (if logResponseBodies environment && truthy (responseBody response)
               then liftCompletion
                      (truncateResponseBody (sanitizeData (responseBody response))
                         (maxResponseBodyLength environment))
               else mret (responseBody response));
      logger (Call_apiResponse (method context) (url context) (status response)
                shown rid elapsed);;
      active ← getActive;
      setActive (Map_delete rid active)
  end.

(** [logError(requestId, error, additionalContext)] *)
Definition logError (rid : string) (err additionalContext : JsVal) : M unit :=
  active ← getActive;
  match Map_get rid active with
  | None =>
      message ← liftCompletion (getProp err "message");
      logger (Call_error "API Error without request context"
                (JObj [("requestId", JStr rid);
                       ("error", jsOr message err);
                       ("additionalContext", additionalContext)]))
  | Some context =>
      now ← Date_now;
      let elapsed := now - timestamp context in
      message ← liftCompletion (getProp err "message");
      stack ← liftCompletion (getProp err "stack");
      code ← liftCompletion (getProp err "code");
      errStatus ← liftCompletion (getProp err "status");
      shownStatus ← (if truthy errStatus then mret errStatus
                     else response ← liftCompletion (getProp err "response");
                          mret (getPropOpt response "status"));
      let errorData :=
        JObj [("method", JStr (method context));
              ("url", JStr (url context));
              ("error",
               JObj [("message", jsOr message err);
                     ("stack", stack);
                     ("code", code);
                     ("status", shownStatus)]);
              ("duration", JStr (pretty elapsed +:+ "ms"));
              ("context", sanitizeData additionalContext);
              ("userAgent", ofOption (userAgent context));
              ("ip", ofOption (ip context))] in
      logger (Call_apiError (method context) (url context) errorData rid);;
      active ← getActive;
      setActive (Map_delete rid active)
  end.

(** One iteration of the loop of [getActiveRequestsStats]; the
    accumulator is [stats.byMethod], [oldestTimestamp] and
    [stats.oldestRequest]. *)
Definition statsStep (acc : gmap string Z * Z * option string)
    (entry : string * ApiLogContext) : gmap string Z * Z * option string :=
  let '(counts, oldestTimestamp, oldest) := acc in
  let '(rid, context) := entry in
  let counts :=
    <[method context := default 0 (counts !! method context) + 1]> counts in
  if timestamp context <? oldestTimestamp
  then (counts, timestamp context, Some rid)
  else (counts, oldestTimestamp, oldest).

(** [getActiveRequestsStats()] *)
Definition getActiveRequestsStats : M Stats :=
  active ← getActive;
  now ← Date_now;
  let '(counts, _, oldest) := foldl statsStep (∅, now, None) active in
  mret {| total := length active; byMethod := counts; oldestRequest := oldest |}.





End WithWorld.

End ApiLogger.

(** * [sanitizeData] on a heap of shared, mutable objects

    The same method once more, now with objects as the run time has them:
    a value is a primitive or a reference, arrays and objects live in a
    heap, a spread or a literal allocates, [result[key] = v] writes.  This
    is the model in which "the payload is left as it was" says something. *)

Module Heap.

Definition loc : Type := positive.

Inductive Val : Type :=
| VUndefined
| VNull
| VBool (b : bool)
| VNum (n : Z)
| VStr (s : string)
| VRef (l : loc).

Inductive Obj : Type :=
| Arr (items : list Val)
| Rec (props : list (string * Val)).

Abbreviation Heap := (gmap loc Obj).

(** A new object at an unused location. *)
Definition alloc (o : Obj) (h : Heap) : loc * Heap :=
  let l := fresh (dom h) in (l, <[l := o]> h).

(** [props[key] = v] on a property list: overwrite in place, or append. *)
Fixpoint assign (key : string) (v : Val) (props : list (string * Val))
  : list (string * Val) :=
  match props with
  | [] => [(key, v)]
  | (k, v') :: rest =>
      if decide (k = key) then (k, v) :: rest else (k, v') :: assign key v rest
  end.

(** [r[key] = v] *)
Definition setProp (r : loc) (key : string) (v : Val) (h : Heap) : Heap :=
  match h !! r with
  | Some (Rec props) => <[r := Rec (assign key v props)]> h
  | _ => h
  end.

(** [value && typeof value === 'object'] *)
Definition isObjectValue (value : Val) : bool :=
  match value with
  | VRef _ => true
  | _ => false
  end.

(** [items.map(f)], the heap threaded through the calls of [f]. *)
Fixpoint mapItems (f : Val -> Heap -> Val * Heap) (items : list Val) (h : Heap)
  : list Val * Heap :=
  match items with
  | [] => ([], h)
  | item :: rest =>
      let '(item', h1) := f item h in
      let '(rest', h2) := mapItems f rest h1 in
      (item' :: rest', h2)
  end.

(** The [for (const [key, value] of Object.entries(obj))] loop that fills
    the new object at [r]; [f] is the recursive call at [depth + 1]. *)
Fixpoint fillProps (f : Val -> Heap -> Val * Heap) (r : loc)
    (entries : list (string * Val)) (h : Heap) : Heap :=
  match entries with
  | [] => h
  | (key, value) :: rest =>
      let h1 :=
        if ApiLogger.isSensitive key
        then setProp r key (VStr ApiLogger.redactedMarker) h
        else if isObjectValue value
             then let '(value', h') := f value h in setProp r key value' h'
             else setProp r key value h in
      fillProps f r rest h1
  end.

(** [sanitizeRecursive(obj, depth)] with [levels = 6 - depth]: the number
    of levels left before [depth > 5].  The recursion is on [levels], so
    the function is total on every heap, cyclic ones included. *)
Fixpoint sanitizeRecursive (levels : nat) (obj : Val) (h : Heap) : Val * Heap :=
  match levels with
  | O => (VStr ApiLogger.tooDeepMarker, h)
  | S levels' =>
      match obj with
      | VRef l =>
          match h !! l with
          | Some (Arr items) =>
              let '(items', h1) := mapItems (sanitizeRecursive levels') items h in
              let '(r, h2) := alloc (Arr items') h1 in
              (VRef r, h2)
          | Some (Rec props) =>
              let '(r, h1) := alloc (Rec []) h in
              (VRef r, fillProps (sanitizeRecursive levels') r props h1)
          | None => (obj, h)
          end
      | _ => (obj, h)
      end
  end.

(** [sanitizeData(data)] *)
Definition sanitizeData (data : Val) (h : Heap) : Val * Heap :=
  match data with
  | VRef l =>
      match h !! l with
      | Some o =>
          let '(sanitized, h1) := alloc o h in   (* [...data] or {...data} *)
          sanitizeRecursive 6 (VRef sanitized) h1
      | None => (data, h)
      end
  | _ => (data, h)
  end.

(** The references an object holds. *)
Definition refsOf (o : Obj) : list loc :=
  omap (fun v => match v with VRef l => Some l | _ => None end)
       (match o with Arr items => items | Rec props => map snd props end).

(** The locations reachable from a value. *)
Inductive reach (h : Heap) : Val -> loc -> Prop :=
| reach_here l : reach h (VRef l) l
| reach_inside l o l' l'' :
    h !! l = Some o -> l' ∈ refsOf o -> reach h (VRef l') l'' ->
    reach h (VRef l) l''.

(** [h'] extends [h]: everything in [h] is still there, unchanged, and
    no object outside [h] refers into [h]. *)
Definition extends (h h' : Heap) : Prop :=
  h ⊆ h' /\
  forall l o l', l ∉ dom h -> h' !! l = Some o -> l' ∈ refsOf o -> l' ∉ dom h.

(** A value that is not a reference into [h]. *)
Definition freshFor (h : Heap) (v : Val) : Prop :=
  forall l, v = VRef l -> l ∉ dom h.

(** A function on values and heaps that only allocates: it extends the
    heap, and what it returns is not a reference into the heap it got. *)
Definition allocatesOnly (f : Val -> Heap -> Val * Heap) : Prop :=
  forall v h, extends h (snd (f v h)) /\ freshFor h (fst (f v h)).

(** The payload a value stands for, unfolded [n] levels: the tree that
    [JSON.stringify] would print, cut below level [n] (an object below the
    cut shows as an empty object). *)
Fixpoint reify (n : nat) (h : Heap) (v : Val) : Js.JsVal :=
  match v with
  | VUndefined => Js.JUndefined
  | VNull => Js.JNull
  | VBool b => Js.JBool b
  | VNum z => Js.JNum z
  | VStr s => Js.JStr s
  | VRef l =>
      match n with
      | O => Js.JObj []
      | S n' =>
          match h !! l with
          | Some (Arr items) => Js.JArr (map (reify n' h) items)
          | Some (Rec props) =>
              Js.JObj (map (fun '(key, value) => (key, reify n' h value)) props)
          | None => Js.JObj []
          end
      end
  end.

(** Everything reachable from [v] is an object of [h], and none of these
    objects has a key twice: what holds of every value of a running
    program. *)
Definition goodInput (h : Heap) (v : Val) : Prop :=
  forall l, reach h v l ->
    exists o, h !! l = Some o /\
              forall props, o = Rec props -> NoDup (map fst props).

(** Everything reachable from [v] is allocated. *)
Definition closedOut (h : Heap) (v : Val) : Prop :=
  forall l, reach h v l -> l ∈ dom h.

(** [f], run [k] levels above the depth bound, computes on the heap what
    [ApiLogger.sanitizeRecursive] computes on trees. *)
Definition refines (k : nat) (f : Val -> Heap -> Val * Heap) : Prop :=
  forall v h, goodInput h v ->
    closedOut (snd (f v h)) (fst (f v h)) /\
    forall m n, (k <= m)%nat -> (k <= n)%nat ->
      reify n (snd (f v h)) (fst (f v h))
      = ApiLogger.sanitizeRecursive (reify m h v) (6 - k).

(** The entry [ApiLogger.sanitizeRecursive] produces, at depth [6 - S k],
    for the entry [(key, value)] of an object of [h]. *)
Definition treeEntry (k m : nat) (h : Heap) (entry : string * Val)
  : string * Js.JsVal :=
  let '(key, value) := entry in
  (key,
   if ApiLogger.isSensitive key then Js.JStr ApiLogger.redactedMarker
   else if isObjectValue value
        then ApiLogger.sanitizeRecursive (reify m h value) (6 - k)
        else reify m h value).

(** A heap with a login payload: the object at 1 refers to the object at
    2, which holds a password. *)
Definition loginHeap : Heap :=
  {[ 1%positive := Rec [("user", VStr "ann"); ("credentials", VRef 2%positive)];
     2%positive := Rec [("password", VStr "hunter2")] ]}.

(** A heap with a cycle: the object at 1 refers to itself. *)
Definition cyclicHeap : Heap :=
  {[ 1%positive := Rec [("self", VRef 1%positive); ("n", VNum 1)] ]}.

End Heap.

(** * Sample data for the examples below *)

Module Samples.

Definition chapterNamed (id name : string) : Chapter :=
  {| chapterId := id; chapterIndex := 0; isCharge := 0; chapterName := name;
     cdnList := None; chapterImg := "img.png"; chapterType := 0;
     viewingDuration := 60; chargeChapter := false;
     isPay := None; chapterSizeVoList := None |}.

Definition sixChapters : list Chapter :=
  [chapterNamed "c1" "Episode 1"; chapterNamed "c2" "Episode 2";
   chapterNamed "c3" "Episode 3"; chapterNamed "c4" "Episode 4";
   chapterNamed "c5" "Episode 5"; chapterNamed "c6" "Episode 6"].

(** An upstream whose second page (start index 7) is rejected and whose
    third page holds the thirteenth episode. *)
Definition flakyUpstream (bookId : string) (index : Z) : Paging.ApiOutcome :=
  if index =? 1 then Paging.Response (Some sixChapters)
  else if index =? 7 then Paging.Rejected "Network Error"
  else if index =? 13 then Paging.Response (Some [chapterNamed "c13" "Episode 13"])
  else Paging.Response (Some []).

(** An upstream with six chapters on every page. *)
Definition fullUpstream (bookId : string) (index : Z) : Paging.ApiOutcome :=
  Paging.Response (Some sixChapters).




(** A detail entry that carries no [isPay] and no size list. *)
Definition bareDetail : MovieDetail.DetailEpisode :=
  {| MovieDetail.detChapterIndex := 1; MovieDetail.detIsCharge := 0;
     MovieDetail.detIsPay := None; MovieDetail.detChapterSizeVoList := None |}.







Definition sampleClock (n : nat) : Z := 1000000 + 10 * Z.of_nat n.

Definition sampleRandom (n : nat) : string := "k3x9q0abz".

Definition contextAt (rid method : string) (ts : Z) : ApiLogger.ApiLogContext :=
  {| ApiLogger.requestId := rid; ApiLogger.method := method;
     ApiLogger.url := "/api/proxy/drama-box/he001/theater";
     ApiLogger.timestamp := ts;
     ApiLogger.userId := None; ApiLogger.sessionId := None;
     ApiLogger.userAgent := None; ApiLogger.ip := None |}.

Definition trackerWith (entries : list (string * ApiLogger.ApiLogContext))
  : ApiLogger.State :=
  {| ApiLogger.activeRequests := entries; ApiLogger.calls := [];
     ApiLogger.clockReads := 0; ApiLogger.randomReads := 0 |}.

Definition responseFor (rid : string) (status : Z) : ApiLogger.ApiResponseLog :=
  {| ApiLogger.resContext := contextAt rid "POST" 0;
     ApiLogger.status := status; ApiLogger.duration := 120;
     ApiLogger.responseBody := Js.JObj [("ok", Js.JBool true)];
     ApiLogger.error := Js.JUndefined |}.

(** A tracker with one request started at 999000 and one at 600000; the
    first reading of [sampleClock] is 1000000, so the second request is
    older than five minutes and the first is not. *)
Definition twoRequests : ApiLogger.State :=
  trackerWith [("req_new", contextAt "req_new" "POST" 999000);
               ("req_old", contextAt "req_old" "GET" 600000)].



(** The configuration of the default logger, on a server. *)
Definition serverConfig : Logger.LoggerConfig :=
  {| Logger.logLevel := Logger.INFO; Logger.enableFileLogging := true;
     Logger.enableConsoleLogging := true; Logger.logDirectory := "./logs";
     Logger.maxLogFiles := 10; Logger.maxFileSize := 50;
     Logger.dateFormat := "YYYY-MM-DD HH:mm:ss.SSS";
     Logger.includeStackTrace := true |}.

Definition logCall (l : Logger.LogLevel) (msg : string) : Logger.Action :=
  Logger.CallProcessLog "2025-01-01 00:00:00.000" l msg Js.JUndefined None None None.

(** An ERROR entry starts a drain; while its writes are pending another
    entry is pushed and the timer starts a second drain; the two drains
    then take turns. *)
Definition overlappingDrains : list Logger.Action :=
  [logCall Logger.INFO "a"; logCall Logger.ERROR "b";
   Logger.ResumeDrain 0 true;
   logCall Logger.INFO "c"; Logger.CallFlushLogs;
   Logger.ResumeDrain 1 true; Logger.ResumeDrain 0 true].

End Samples.

(** * Runs of the paginated fetcher *)

Module PagingRuns.
Import Paging.

(** The lines [getAllChapters] prints only when [log] is set. *)
Definition isLogLine (e : Event) : bool :=
  match e with
  | ConsoleHeader _ _ | ConsolePageLoaded _ _ _ | ConsoleStopping _
  | ConsoleContinuing | ConsoleTotal _ | ConsoleMissing _ _ => true
  | _ => false
  end.

(** An upstream that serves the episodes [all] of a book in batches of
    six: the request for a page returns the (up to) six episodes that
    start at the page's start index. *)
Definition servesBatches (apiRequest : string -> Z -> ApiOutcome)
    (bookId : string) (all : list Chapter) : Prop :=
  forall page, 1 <= page ->
    apiRequest bookId (startIndexOf page)
    = Response (Some (take 6 (drop (Z.to_nat (startIndexOf page - 1)) all))).

(** What goes over the wire and when: the requests and the pauses. *)
Definition isTraffic (e : Event) : bool :=
  match e with
  | Request _ _ | Delay _ => true
  | _ => false
  end.

(** The traffic one visited page causes: its request, followed by the
    100 ms pause when the page came back with items and is not the last
    one of the loop. *)
Definition trafficOf (apiRequest : string -> Z -> ApiOutcome)
    (bookId : string) (totalPages page : Z) : list Event :=
  Request bookId (startIndexOf page) ::
  (if negb (bool_decide (itemsOf apiRequest bookId page = [])) && (page <? totalPages)
   then [Delay 100] else []).

End PagingRuns.

(** ** Array helpers *)

Module JsArray.

(** [arr.findIndex(p)]: the index of the first element that satisfies [p],
    [-1] when there is none. *)
Definition findIndex {A : Type} (P : A -> Prop) `{!forall a, Decision (P a)}
    (arr : list A) : Z :=
  match list_find P arr with
  | Some (i, _) => Z.of_nat i
  | None => -1
  end.

(** [arr.filter((v, i) => p(v, i))], from index [i] on. *)
Fixpoint filterFrom {A : Type} (p : A -> nat -> bool) (i : nat) (arr : list A)
  : list A :=
  match arr with
  | [] => []
  | v :: rest =>
      if p v i then v :: filterFrom p (S i) rest else filterFrom p (S i) rest
  end.

(** [arr.slice(start, end)] for [0 <= start <= end]. *)
Definition slice {A : Type} (start end_ : nat) (arr : list A) : list A :=
  take (end_ - start) (drop start arr).

End JsArray.

(** * Download list ([src/api/download.ts]) *)

Module Download.
Import Paging.

Record DownloadItem : Type := mkDownloadItem {
  itemChapterName : string;
  videoUrl : string
}.

Inductive Event : Type :=
| Chapters (e : Paging.Event)
    (* an effect of the call of getChapters *)
| ConsoleListHeader (bookId : string)
| ConsoleItemName (n : nat) (chapterName : string)
| ConsoleItemUrl (videoUrl : string)
| ConsoleListTotal (total : nat).

(** [chapter.cdnList?.[0]?.url || null]; the empty string is falsy. *)
Definition firstCdnUrl (chapter : Chapter) : option string :=
  match cdnList chapter with
  | Some (cdn :: _) =>
      match url cdn with
      | Some u => if decide (u = EmptyString) then None else Some u
      | None => None
      end
  | _ => None
  end.

(** The [chapters.forEach] of [batchDownload], pushing onto [downloadList]. *)
Fixpoint collect (chapters : list Chapter) (downloadList : list DownloadItem)
  : list DownloadItem :=
  match chapters with
  | [] => downloadList
  | chapter :: rest =>
      match firstCdnUrl chapter with
      | Some videoUrl =>
          collect rest
            (downloadList ++
             [{| itemChapterName := chapterName chapter; videoUrl := videoUrl |}])
      | None => collect rest downloadList
      end
  end.

(** The item a chapter contributes to the list, if any. *)
Definition downloadItemOf (chapter : Chapter) : option DownloadItem :=
  match firstCdnUrl chapter with
  | Some videoUrl =>
      Some {| itemChapterName := chapterName chapter; videoUrl := videoUrl |}
  | None => None
  end.

(** The two lines [downloadList.forEach] prints for the item at index [i]. *)
Definition itemLines (i : nat) (item : DownloadItem) : list Event :=
  [ConsoleItemName (i + 1) (itemChapterName item); ConsoleItemUrl (videoUrl item)].

Section WithUpstream.

Variable apiRequest : string -> Z -> ApiOutcome.

(** [batchDownload(bookId, log)]; [getChapters] is called with its default
    start index 1. *)
Definition batchDownload (bookId : string) (log : bool)
  : list Event * Completion string (list DownloadItem) :=
  if decide (bookId = EmptyString) then ([], Throw error_bookId_required)
  else
    match getChapters apiRequest bookId false 1 with
    | (evs, Throw err) => (map Chapters evs, Throw err)
    | (evs, Return chapters) =>
        let downloadList := collect chapters [] in
        (map Chapters evs ++
         (if log
          then [ConsoleListHeader bookId] ++
               concat (imap itemLines downloadList) ++
               [ConsoleListTotal (length downloadList)]
          else []),
         Return downloadList)
    end.

End WithUpstream.

(** The chapter requests among the events of a run. *)
Definition chapterEvents (evs : list Event) : list Paging.Event :=
  omap (fun e => match e with Chapters e' => Some e' | _ => None end) evs.

End Download.

(** * Recommendations ([src/api/drama.ts]) *)

Module Drama.

(** A record of the recommendation list: a book, or (with [cardType = 3])
    a card whose [tagCardVo.tagBooks] holds books.  [tagCardVo] is
    [None] when the record has none, [Some None] when it has one without
    [tagBooks]. *)
Inductive DramaBook : Type := mkDramaBook {
  bookId : string;
  bookName : string;
  coverWap : string;
  cardType : option Z;
  tagCardVo : option (option (list DramaBook))
}.

Inductive ApiOutcome : Type :=
| Response (records : option (list DramaBook))
    (* data?.data?.recommendList?.records *)
| Rejected (err : string).

Inductive Event : Type :=
| Request
    (* apiRequest("/drama-box/he001/recommendBook", {isNeedRank: 1, ...}) *)
| ConsoleRequestError (err : string)
| ConsoleHeader
| ConsoleBook (n : nat) (bookName bookId : string).

(** The callback of [rawList.flatMap]. *)
Definition flattenCard (item : DramaBook) : list DramaBook :=
  match cardType item, tagCardVo item with
  | Some 3, Some (Some tagBooks) => tagBooks
  | _, _ => [item]
  end.

(** [list.filter((v, i, arr) => arr.findIndex(b => b.bookId === v.bookId) === i)] *)
Definition uniqueByBookId (books : list DramaBook) : list DramaBook :=
  JsArray.filterFrom
    (fun v i =>
       bool_decide (JsArray.findIndex (fun b => bookId b = bookId v) books = Z.of_nat i))
    0 books.

Section WithUpstream.

Variable apiRequest : ApiOutcome.

(** [getRecommendedBooks(log)] *)
Definition getRecommendedBooks (log : bool)
  : list Event * Completion string (list DramaBook) :=
  match apiRequest with
  | Rejected err => ([Request; ConsoleRequestError err], Throw err)
  | Response records =>
      let rawList := default [] records in
      let books := flat_map flattenCard rawList in
      let uniqueList := uniqueByBookId books in
      (Request ::
       (if log
        then ConsoleHeader ::
             imap (fun i book => ConsoleBook (i + 1) (bookName book) (bookId book))
                  uniqueList
        else []),
       Return uniqueList)
  end.

End WithUpstream.

End Drama.

(** * Drama detail ([src/api/detail.ts]) *)

Module Detail.

(** The detail record: of its fields, the player reads [bookName] and the
    per-episode [list]. *)
Record DramaDetail : Type := mkDramaDetail {
  detailBookName : string;
  detailList : option (list MovieDetail.DetailEpisode)    (* [list] *)
}.

Inductive ApiOutcome : Type :=
| Response (detail : option DramaDetail)      (* data?.data *)
| Rejected (err : string).

Inductive Event : Type :=
| Request (bookId : string) (needRecommend : bool) (from : string)
    (* apiRequest("/drama-box/chapterv2/detail", {needRecommend, from, bookId}) *)
| ConsoleRequestError (err : string)
| ConsoleDetail (bookId : string) (detail : DramaDetail).

Section WithUpstream.

Variable apiRequest : string -> bool -> string -> ApiOutcome.

(** [getDramaDetail(bookId, needRecommend, from, log)] *)
Definition getDramaDetail (bookId : string) (needRecommend : bool)
    (from : string) (log : bool)
  : list Event * Completion string (option DramaDetail) :=
  if decide (bookId = EmptyString) then ([], Throw Paging.error_bookId_required)
  else
    match apiRequest bookId needRecommend from with
    | Rejected err =>
        ([Request bookId needRecommend from; ConsoleRequestError err], Throw err)
    | Response detail =>
        (Request bookId needRecommend from ::
         match detail with
         | Some d => if log then [ConsoleDetail bookId d] else []
         | None => []
         end,
         Return detail)
    end.

End WithUpstream.

End Detail.

(** * The player ([src/components/MovieDetail.tsx])

    The component's state and its handlers.  A handler reads the state of
    the render it was created in and calls setters; here it maps that
    state to the state of the next render.  Of the state variables, those
    the handlers below read or set are kept; the [<video>] element is there
    exactly when the last render had a video URL. *)

Module Player.
Import MovieDetail.

Record State : Type := mkState {
  isPlaying : bool;
  currentTime : Z;
  videoUrl : option string;
  selectedChapter : option Chapter;
  chapters : list Chapter;
  dramaDetail : option Detail.DramaDetail;
  loading : bool;
  showEpisodeList : bool;
  selectedRangeIndex : nat
}.

(** [useState] initial values. *)
Definition initial : State :=
  {| isPlaying := false; currentTime := 0; videoUrl := None;
     selectedChapter := None; chapters := []; dramaDetail := None;
     loading := false; showEpisodeList := false; selectedRangeIndex := 0 |}.

Inductive Event : Type :=
| DetailCall (e : Detail.Event)
| ChaptersCall (e : Paging.Event)
| ConsoleTotalEpisodes (n : nat)
| ConsoleWarnNoEpisodes
| ConsoleChaptersFound (n : nat)
| ConsoleMerged (n : nat)
| ConsoleWarnNoneAfterMerge
| ConsoleErrorFetching (err : string)
| ConsoleChapterSelected (chapterIndex : Z)
| VideoPlay
| VideoPause
| VideoLoad.

Definition setIsPlaying (v : bool) (s : State) : State :=
  {| isPlaying := v; currentTime := currentTime s; videoUrl := videoUrl s;
     selectedChapter := selectedChapter s; chapters := chapters s;
     dramaDetail := dramaDetail s; loading := loading s;
     showEpisodeList := showEpisodeList s;
     selectedRangeIndex := selectedRangeIndex s |}.

Definition setCurrentTime (v : Z) (s : State) : State :=
  {| isPlaying := isPlaying s; currentTime := v; videoUrl := videoUrl s;
     selectedChapter := selectedChapter s; chapters := chapters s;
     dramaDetail := dramaDetail s; loading := loading s;
     showEpisodeList := showEpisodeList s;
     selectedRangeIndex := selectedRangeIndex s |}.

Definition setVideoUrl (v : option string) (s : State) : State :=
  {| isPlaying := isPlaying s; currentTime := currentTime s; videoUrl := v;
     selectedChapter := selectedChapter s; chapters := chapters s;
     dramaDetail := dramaDetail s; loading := loading s;
     showEpisodeList := showEpisodeList s;
     selectedRangeIndex := selectedRangeIndex s |}.

Definition setSelectedChapter (v : option Chapter) (s : State) : State :=
  {| isPlaying := isPlaying s; currentTime := currentTime s; videoUrl := videoUrl s;
     selectedChapter := v; chapters := chapters s;
     dramaDetail := dramaDetail s; loading := loading s;
     showEpisodeList := showEpisodeList s;
     selectedRangeIndex := selectedRangeIndex s |}.

Definition setChapters (v : list Chapter) (s : State) : State :=
  {| isPlaying := isPlaying s; currentTime := currentTime s; videoUrl := videoUrl s;
     selectedChapter := selectedChapter s; chapters := v;
     dramaDetail := dramaDetail s; loading := loading s;
     showEpisodeList := showEpisodeList s;
     selectedRangeIndex := selectedRangeIndex s |}.

Definition setDramaDetail (v : option Detail.DramaDetail) (s : State) : State :=
  {| isPlaying := isPlaying s; currentTime := currentTime s; videoUrl := videoUrl s;
     selectedChapter := selectedChapter s; chapters := chapters s;
     dramaDetail := v; loading := loading s;
     showEpisodeList := showEpisodeList s;
     selectedRangeIndex := selectedRangeIndex s |}.

Definition setLoading (v : bool) (s : State) : State :=
  {| isPlaying := isPlaying s; currentTime := currentTime s; videoUrl := videoUrl s;
     selectedChapter := selectedChapter s; chapters := chapters s;
     dramaDetail := dramaDetail s; loading := v;
     showEpisodeList := showEpisodeList s;
     selectedRangeIndex := selectedRangeIndex s |}.

Definition setShowEpisodeList (v : bool) (s : State) : State :=
  {| isPlaying := isPlaying s; currentTime := currentTime s; videoUrl := videoUrl s;
     selectedChapter := selectedChapter s; chapters := chapters s;
     dramaDetail := dramaDetail s; loading := loading s;
     showEpisodeList := v;
     selectedRangeIndex := selectedRangeIndex s |}.

Definition setSelectedRangeIndex (v : nat) (s : State) : State :=
  {| isPlaying := isPlaying s; currentTime := currentTime s; videoUrl := videoUrl s;
     selectedChapter := selectedChapter s; chapters := chapters s;
     dramaDetail := dramaDetail s; loading := loading s;
     showEpisodeList := showEpisodeList s;
     selectedRangeIndex := v |}.

(** A string-or-null used as a condition: [null] and the empty string are
    falsy. *)
Definition truthyUrl (u : option string) : bool :=
  match u with
  | Some s => negb (bool_decide (s = EmptyString))
  | None => false
  end.

(** [videoRef.current] is the element of the last render. *)
Definition hasVideoElement (s : State) : bool := truthyUrl (videoUrl s).

(** [chapters.findIndex(ch => ch.chapterId === selectedChapter.chapterId)] *)
Definition indexOfSelected (s : State) (selected : Chapter) : Z :=
  JsArray.findIndex (fun ch => chapterId ch = chapterId selected) (chapters s).

(** [handleChapterSelect(chapter)] *)
Definition handleChapterSelect (chapter : Chapter) (s : State)
  : list Event * State :=
  let s1 := setSelectedChapter (Some chapter) s in
  let newVideoUrl := getBestVideoUrl chapter in
  let '(evs, s2) :=
    if truthyUrl newVideoUrl
    then (if hasVideoElement s then [VideoLoad] else [],
          setCurrentTime 0 (setIsPlaying false (setVideoUrl newVideoUrl s1)))
    else ([], s1) in
  (ConsoleChapterSelected (chapterIndex chapter) :: evs,
   setShowEpisodeList false s2).

(** [playNextEpisode()] *)
Definition playNextEpisode (s : State) : list Event * State :=
  match selectedChapter s with
  | None => ([], s)
  | Some selected =>
      if (length (chapters s) =? 0)%nat then ([], s)
      else
        let currentIndex := indexOfSelected s selected in
        let nextIndex := currentIndex + 1 in
        if nextIndex <? Z.of_nat (length (chapters s)) then
          match chapters s !! Z.to_nat nextIndex with
          | Some nextChapter => handleChapterSelect nextChapter s
          | None => ([], s)
          end
        else ([], s)
  end.

(** [playPreviousEpisode()] *)
Definition playPreviousEpisode (s : State) : list Event * State :=
  match selectedChapter s with
  | None => ([], s)
  | Some selected =>
      if (length (chapters s) =? 0)%nat then ([], s)
      else
        let currentIndex := indexOfSelected s selected in
        let prevIndex := currentIndex - 1 in
        if 0 <=? prevIndex then
          match chapters s !! Z.to_nat prevIndex with
          | Some prevChapter => handleChapterSelect prevChapter s
          | None => ([], s)
          end
        else ([], s)
  end.

(** [handlePlayPause()] *)
Definition handlePlayPause (s : State) : list Event * State :=
  if bool_decide (is_Some (selectedChapter s)) && truthyUrl (videoUrl s)
     && hasVideoElement s
  then ([if isPlaying s then VideoPause else VideoPlay],
        setIsPlaying (negb (isPlaying s)) s)
  else ([], s).

(** The effect that follows [selectedChapter] and [chapters]:
    [setSelectedRangeIndex(Math.floor(chapterIndex / 25))]. *)
Definition rangeEffect (s : State) : State :=
  match selectedChapter s with
  | None => s
  | Some selected =>
      if (0 <? length (chapters s))%nat then
        let chapterIndex := indexOfSelected s selected in
        if chapterIndex =? -1 then s
        else setSelectedRangeIndex (Z.to_nat (chapterIndex / 25)) s
      else s
  end.

(** [getFilteredChapters()] *)
Definition getFilteredChapters (s : State) : list Chapter :=
  let start := (selectedRangeIndex s * 25)%nat in
  let end_ := (start + 25)%nat in
  JsArray.slice start end_ (chapters s).

(** [handleRangeSelect(rangeIndex)] *)
Definition handleRangeSelect (rangeIndex : nat) (s : State) : State :=
  setSelectedRangeIndex rangeIndex s.

(** The range buttons: [Array.from({length: Math.ceil(chapters.length / 25)},
    (_, i) => ...)] with the bounds [start] and [end] each button shows. *)
Definition rangeCount (s : State) : nat :=
  Z.to_nat (Paging.ceil_div (Z.of_nat (length (chapters s))) 25).

Definition rangeBounds (s : State) (i : nat) : nat * nat :=
  let start := (i * 25 + 1)%nat in
  let end_ := Nat.min ((i + 1) * 25) (length (chapters s)) in
  (start, end_).

Definition rangeButtons (s : State) : list (nat * nat) :=
  map (rangeBounds s) (seq 0 (rangeCount s)).

(** [(detailData as any)?.list || []] *)
Definition episodesOf (detailData : option Detail.DramaDetail)
  : list DetailEpisode :=
  match detailData with
  | Some detail => default [] (Detail.detailList detail)
  | None => []
  end.

Section WithUpstream.

Variable detailRequest : string -> bool -> string -> Detail.ApiOutcome.
Variable chapterRequest : string -> Z -> Paging.ApiOutcome.

(** [fetchDramaData()] for the drama [bookId].  The [finally] block is
    the [setLoading false] every branch ends with. *)
Definition fetchDramaData (bookId : string) (s : State) : list Event * State :=
  let s := setLoading true s in
  match Detail.getDramaDetail detailRequest bookId true "book_album" true with
  | (evs, Throw err) =>
      (map DetailCall evs ++ [ConsoleErrorFetching err], setLoading false s)
  | (evs, Return detailData) =>
      let s := setDramaDetail detailData s in
      let detailEpisodes := episodesOf detailData in
      let totalEpisodes := length detailEpisodes in
      let evs := map DetailCall evs ++ [ConsoleTotalEpisodes totalEpisodes] in
      if (totalEpisodes =? 0)%nat then
        (evs ++ [ConsoleWarnNoEpisodes], setLoading false (setChapters [] s))
      else
        match Paging.getAllChapters chapterRequest bookId
                (Z.of_nat totalEpisodes) true with
        | (evs', Throw err) =>
            (evs ++ map ChaptersCall evs' ++ [ConsoleErrorFetching err],
             setLoading false s)
        | (evs', Return chaptersData) =>
            let merged := mergedChapters chaptersData detailEpisodes in
            let evs := evs ++ map ChaptersCall evs' ++
                       [ConsoleChaptersFound (length chaptersData);
                        ConsoleMerged (length merged)] in
            let s := setChapters merged s in
            match merged with
            | firstChapter :: _ =>
                let s := setSelectedChapter (Some firstChapter) s in
                let videoUrl := getBestVideoUrl firstChapter in
                let s := if truthyUrl videoUrl then setVideoUrl videoUrl s else s in
                (evs, setLoading false s)
            | [] =>
                (evs ++ [ConsoleWarnNoneAfterMerge],
                 setLoading false (setChapters [] s))
            end
        end
  end.

End WithUpstream.

(** The chapter requests among the events of a run, by start index. *)
Definition chapterRequests (evs : list Event) : list Z :=
  Paging.requestsOf
    (omap (fun e => match e with ChaptersCall e' => Some e' | _ => None end) evs).

End Player.

(** * Endpoint loggers ([src/utils/apiLogger.ts], class [EndpointLogger]) *)

Module EndpointLogger.
Import Js ApiLogger.

(** Computations that may reject with any value: what an awaited promise
    and a [catch] clause deal in. *)
Definition P (A : Type) : Type := State -> Completion JsVal A * State.

#[export] Instance P_ret : MRet P := fun A a s => (Return a, s).

#[export] Instance P_bind : MBind P := fun A B k m s =>
  match m s with
  | (Return a, s') => k a s'
  | (Throw e, s') => (Throw e, s')
  end.

(** The [TypeError] a failed property read throws, as the value a [catch]
    clause receives; of the stack the engine records, the first line. *)
Definition thrownValue (e : JsError) : JsVal :=
  match e with
  | TypeError message =>
      JObj [("message", JStr message); ("stack", JStr ("TypeError: " +:+ message))]
  end.

(** A method of [ApiLogger] called from code that may catch what it
    throws. *)
Definition lift {A : Type} (m : M A) : P A :=
  fun s =>
    match m s with
    | (Return a, s') => (Return a, s')
    | (Throw e, s') => (Throw (thrownValue e), s')
    end.

(** [throw error] *)
Definition throw {A : Type} (error : JsVal) : P A :=
  fun s => (Throw error, s).

(** [try { body } catch (error) { handler }] *)
Definition tryCatch {A : Type} (body : P A) (handler : JsVal -> P A) : P A :=
  fun s =>
    match body s with
    | (Return a, s') => (Return a, s')
    | (Throw error, s') => handler error s'
    end.

(** [status || 500] as the [status: number] the response log declares; a
    truthy value that is not a number has no counterpart there. *)
Definition statusOr500 (status : JsVal) : Z :=
  match status with
  | JNum n => if n =? 0 then 500 else n
  | _ => 500
  end.

(** An [EndpointLogger]: the endpoint and the method it was made for (the
    [ApiLogger] it wraps is the state the methods run in). *)
Record Endpoint : Type := mkEndpoint {
  endpoint : string;
  endpointMethod : string
}.

(** [fn()] settles with [outcome] without using the logger itself: it may
    read the clock, it leaves the tracker and the log alone. *)
Definition settles (fn : P JsVal) (outcome : Completion JsVal JsVal) : Prop :=
  forall s, exists s',
    fn s = (outcome, s') /\
    activeRequests s' = activeRequests s /\ calls s' = calls s.

(** The state after [n] more readings of the clock. *)
Definition afterReads (n : nat) (s : State) : State :=
  {| activeRequests := activeRequests s; calls := calls s;
     clockReads := n + clockReads s; randomReads := randomReads s |}.

Definition isApiRequestCall (c : LoggerCall) : bool :=
  match c with
  | Call_apiRequest _ _ _ _ => true
  | _ => false
  end.

Section WithWorld.

Variable environment : string.
Variable clock : nat -> Z.
Variable random : nat -> string.

(** The id [logRequest] below gives a request: the clock is read once
    for the [timestamp] of the request object, then for the id. *)
Definition generatedId (st : State) : string :=
  "req_" +:+ pretty (clock (S (clockReads st))) +:+ "_" +:+ random (randomReads st).

(** [logRequest(requestData, userId)] *)
Definition logRequest (e : Endpoint) (requestData : JsVal)
    (userId : option string) : M string :=
  now ← Date_now clock;
  ApiLogger.logRequest environment clock random
    {| reqContext :=
         {| requestId := EmptyString; method := endpointMethod e;
            url := endpoint e; timestamp := now; userId := userId;
            sessionId := None; userAgent := None; ip := None |};
       headers := JUndefined; body := requestData; query := JUndefined |}.

(** [logResponse(requestId, status, responseData, duration)] *)
Definition logResponse (e : Endpoint) (requestId : string) (status : Z)
    (responseData : JsVal) (duration : option Z) : M unit :=
  now ← Date_now clock;
  ApiLogger.logResponse environment clock
    {| resContext :=
         {| requestId := requestId; method := endpointMethod e;
            url := endpoint e; timestamp := now; userId := None;
            sessionId := None; userAgent := None; ip := None |};
       status := status;
       duration := default 0 duration;      (* duration || 0 *)
       responseBody := responseData;
       error := JUndefined |}.

(** [logError(requestId, error)] *)
Definition logError (e : Endpoint) (requestId : string) (error : JsVal) : M unit :=
  ApiLogger.logError clock requestId error JUndefined.

(** [withLogging(fn, requestData, userId)] *)
Definition withLogging (e : Endpoint) (fn : P JsVal) (requestData : JsVal)
    (userId : option string) : P JsVal :=
  requestId ← lift (logRequest e requestData userId);
  startTime ← lift (Date_now clock);
  tryCatch
    (result ← fn;
     now ← lift (Date_now clock);
     let duration := now - startTime in
     lift (logResponse e requestId 200 result (Some duration));;
     mret result)
    (fun error =>
       now ← lift (Date_now clock);
       let duration := now - startTime in
       lift (logError e requestId error);;
       status ← lift (liftCompletion (getProp error "status"));
       lift (logResponse e requestId (statusOr500 status) JUndefined
               (Some duration));;
       throw error).

End WithWorld.

End EndpointLogger.

(** * Bookkeeping for the logger's buffer ([src/utils/logger.ts]) *)

Module LoggerLedger.
Import Js Logger.

(** The entries whose [writeToFile] failed: [writeToFile] reports the
    failure on the console and the entry is not written. *)
Definition failedWrites (lines : list ConsoleLine) : list LogEntry :=
  omap (fun line =>
          match line with
          | ConsoleWriteFailed entry => Some entry
          | _ => None
          end) lines.

Definition entriesOf (l : list Pushed) : list LogEntry := map snd l.

(** The levels of the messages printed on the console. *)
Definition consoleLevels (lines : list ConsoleLine) : list LogLevel :=
  omap (fun line =>
          match line with
          | ConsoleEntry l _ _ => Some l
          | _ => None
          end) lines.

(** Every pushed entry is in exactly one place: written, reported as
    failed, waiting in a drain, or waiting in the buffer. *)
Definition Accounted (s : State) : Prop :=
  entriesOf (pushes s) ≡ₚ
  entriesOf (written s) ++ failedWrites (console s) ++
  entriesOf (concat (drains s)) ++ entriesOf (logBuffer s).

(** Nothing below the configured level has been printed or pushed. *)
Definition Filtered (s : State) : Prop :=
  Forall (fun l => levelValue (logLevel (config s)) <= levelValue l)
         (consoleLevels (console s)) /\
  Forall (fun p => levelValue (logLevel (config s)) <= levelValue (level (snd p)))
         (pushes s).

End LoggerLedger.

(** * The logger's API methods ([src/utils/logger.ts]) *)

Module LoggerMethods.
Import Js Logger.





End LoggerMethods.

(** * Log files ([src/utils/logger.ts], [cleanupOldLogsServer]) *)

Module LogFiles.

(** A directory entry with the modification time [fs.statSync] reports
    for it ([stats.mtime.getTime()]). *)
Record FileStat : Type := mkFileStat {
  fileName : string;
  mtime : Z
}.

#[export] Instance FileStat_eq_dec : EqDecision FileStat.
Proof. solve_decision. Defined.

(** [s.endsWith(suffix)] *)
Definition endsWith (suffix s : string) : bool :=
  (String.length suffix <=? String.length s)%nat &&
  bool_decide (substring (String.length s - String.length suffix)
                 (String.length suffix) s = suffix).

Definition isLogFile (file : FileStat) : bool := endsWith ".log" (fileName file).

(** [arr.sort(compare)]: the stable sort, here by insertion. *)
Fixpoint insertBy {A : Type} (compare : A -> A -> Z) (x : A) (sorted : list A)
  : list A :=
  match sorted with
  | [] => [x]
  | y :: rest =>
      if compare x y <=? 0 then x :: y :: rest
      else y :: insertBy compare x rest
  end.

Definition sortBy {A : Type} (compare : A -> A -> Z) (arr : list A) : list A :=
  foldr (insertBy compare) [] arr.

(** [(a, b) => b.stats.mtime.getTime() - a.stats.mtime.getTime()] *)
Definition newestFirst (a b : FileStat) : Z := mtime b - mtime a.

(** Sorted newest first: every file is at least as new as those after it. *)
Fixpoint newestFirstSorted (files : list FileStat) : Prop :=
  match files with
  | [] => True
  | f :: rest => Forall (fun g => mtime g <= mtime f) rest /\ newestFirstSorted rest
  end.

(** [arr.slice(start)]: a negative [start] counts from the end. *)
Definition sliceFrom {A : Type} (start : Z) (arr : list A) : list A :=
  let len := Z.of_nat (length arr) in
  let from := if start <? 0 then Z.max (len + start) 0 else Z.min start len in
  drop (Z.to_nat from) arr.

(** [fs.unlinkSync(file.path)] on a directory listing. *)
Definition unlink (directory : list FileStat) (file : FileStat) : list FileStat :=
  filter (fun f => fileName f <> fileName file) directory.

(** The files [cleanupOldLogsServer] deletes. *)
Definition filesToDelete (maxLogFiles : Z) (directory : list FileStat)
  : list FileStat :=
  let files := sortBy newestFirst (filter (fun f => isLogFile f = true) directory) in
  sliceFrom maxLogFiles files.

(** [cleanupOldLogsServer(directory)]: the directory afterwards. *)
Definition cleanupOldLogsServer (maxLogFiles : Z) (directory : list FileStat)
  : list FileStat :=
  foldl unlink directory (filesToDelete maxLogFiles directory).

End LogFiles.

(** * Request headers ([src/api/dramaboxHelper.ts], [src/pages/api/proxy]) *)

Module Headers.
Import ApiLogger.

(** An object with string values: its properties in insertion order. *)
Abbreviation HeaderObject := (JsMap string).

(** [{...a, ...b}] on top of [base]: the properties of [b] are assigned
    one by one. *)
Definition assignAll (base b : HeaderObject) : HeaderObject :=
  foldl (fun acc '(key, value) => Map_set key value acc) base b.

Definition spread (a b : HeaderObject) : HeaderObject :=
  assignAll (assignAll [] a) b.

(** [generateServerHeaders] / the server branch of [getHeaders]. *)
Definition serverHeaders (token deviceId : string) : HeaderObject :=
  [("Host", "sapi.dramaboxdb.com");
   ("Tn", "Bearer " +:+ token);
   ("Version", "430");
   ("Vn", "4.3.0");
   ("Userid", "289167621");
   ("Cid", "DALPF1057826");
   ("Package-Name", "com.storymatrix.drama");
   ("Apn", "1");
   ("Device-Id", deviceId);
   ("Language", "in");
   ("Current-Language", "in");
   ("P", "43");
   ("Time-Zone", "+0800");
   ("md", "Redmi Note 8");
   ("Ov", "14");
   ("Mf", "XIAOMI");
   ("Brand", "Xiaomi");
   ("Content-Type", "application/json; charset=UTF-8");
   ("User-Agent", "okhttp/4.10.0");
   ("Accept", "*/*");
   ("Accept-Language", "en-US,en;q=0.9");
   ("Accept-Encoding", "gzip, deflate");
   ("Referer", "https://dramaboxdb.com/");
   ("Connection", "keep-alive");
   ("Cache-Control", "no-cache")].

(** The browser branch of [getHeaders]. *)
Definition browserHeaders (token deviceId : string) : HeaderObject :=
  [("Tn", "Bearer " +:+ token);
   ("Version", "430");
   ("Vn", "4.3.0");
   ("Userid", "289167621");
   ("Cid", "DALPF1057826");
   ("Package-Name", "com.storymatrix.drama");
   ("Apn", "1");
   ("Device-Id", deviceId);
   ("Language", "in");
   ("Current-Language", "in");
   ("P", "43");
   ("Time-Zone", "+0800");
   ("md", "Redmi Note 8");
   ("Ov", "14");
   ("Mf", "XIAOMI");
   ("Brand", "Xiaomi");
   ("Content-Type", "application/json; charset=UTF-8");
   ("Accept", "*/*");
   ("Accept-Language", "en-US,en;q=0.9");
   ("Cache-Control", "no-cache")].

(** The headers a page script may not set. *)
Definition browserControlled : list string :=
  ["Host"; "User-Agent"; "Accept-Encoding"; "Referer"; "Connection"].

(** [skipHeaders] of the proxy. *)
Definition skipHeaders : list string :=
  ["host"; "origin"; "referer"; "content-length"; "transfer-encoding"].

(** [headers[key] = value] on an ordinary object: the name [__proto__]
    reaches the setter of [Object.prototype], which ignores a string. *)
Definition assign (key value : string) (headers : HeaderObject) : HeaderObject :=
  if decide (key = "__proto__") then headers else Map_set key value headers.

(** The [request.headers.forEach] of the proxy, which fills [headers];
    [requestHeaders] lists the (name, value) pairs the iteration yields. *)
Definition forwardedHeaders (requestHeaders : list (string * string))
  : HeaderObject :=
  foldl (fun headers '(key, value) =>
           if bool_decide (lower key ∈ skipHeaders) then headers
           else assign key value headers)
        [] requestHeaders.

(** [finalHeaders = { ...headers, ...authHeaders }] *)
Definition finalHeaders (requestHeaders : list (string * string))
    (authHeaders : HeaderObject) : HeaderObject :=
  spread (forwardedHeaders requestHeaders) authHeaders.

End Headers.

(** * The token and its cache ([src/api/dramaboxHelper.ts]) *)

Module Token.
Import Js.

(** [{ token, deviceId, timestamp }], as [getToken] builds it. *)
Record TokenCache : Type := mkTokenCache {
  token : JsVal;
  deviceId : JsVal;
  timestamp : Z
}.

Definition cacheObject (c : TokenCache) : JsVal :=
  JObj [("token", token c); ("deviceId", deviceId c);
        ("timestamp", JNum (timestamp c))].

(** How [axios.get] settles: with a response (of which the code reads
    [status] and [data]) or with a rejection. *)
Inductive AxiosOutcome : Type :=
| Resolved (status : Z) (data : JsVal)
| Rejected (error : JsVal).

Inductive Event : Type :=
| ConsoleLog (message : string) (args : list JsVal)
| ConsoleError (message : string) (args : list JsVal)
| AxiosGet (url : string).

(** The item of [localStorage] under [CACHE_KEY], the readings of the
    clock and the requests made so far, and what has been printed and
    requested, in order. *)
Record State : Type := mkState {
  localStorage : option string;
  clockReads : nat;
  requests : nat;
  events : list Event
}.

Definition T (A : Type) : Type := State -> Completion JsVal A * State.

#[export] Instance T_ret : MRet T := fun A a s => (Return a, s).

#[export] Instance T_bind : MBind T := fun A B k m s =>
  match m s with
  | (Return a, s') => k a s'
  | (Throw e, s') => (Throw e, s')
  end.

Definition throw {A : Type} (error : JsVal) : T A :=
  fun s => (Throw error, s).

Definition tryCatch {A : Type} (body : T A) (handler : JsVal -> T A) : T A :=
  fun s =>
    match body s with
    | (Return a, s') => (Return a, s')
    | (Throw error, s') => handler error s'
    end.

(** The value a [catch] clause receives for a failed property read; of
    the stack the engine records, the first line. *)
Definition thrownValue (e : JsError) : JsVal :=
  match e with
  | TypeError message =>
      JObj [("message", JStr message); ("stack", JStr ("TypeError: " +:+ message))]
  end.

(** [new Error(message)] *)
Definition newError (message : string) : JsVal :=
  JObj [("message", JStr message); ("stack", JStr ("Error: " +:+ message))].

(** [v.name] *)
Definition prop (v : JsVal) (name : string) : T JsVal :=
  fun s =>
    match getProp v name with
    | Return x => (Return x, s)
    | Throw e => (Throw (thrownValue e), s)
    end.

Definition emit (e : Event) : T unit :=
  fun s => (Return tt,
            {| localStorage := localStorage s; clockReads := clockReads s;
               requests := requests s; events := events s ++ [e] |}).

Definition consoleLog (message : string) (args : list JsVal) : T unit :=
  emit (ConsoleLog message args).

Definition consoleError (message : string) (args : list JsVal) : T unit :=
  emit (ConsoleError message args).

Definition getItem : T (option string) :=
  fun s => (Return (localStorage s), s).

Definition removeItem : T unit :=
  fun s => (Return tt,
            {| localStorage := None; clockReads := clockReads s;
               requests := requests s; events := events s |}).

(** [Object.keys(v)] for a value that is not nullish. *)
Definition objectKeys (v : JsVal) : list string :=
  match v with
  | JObj entries => map fst entries
  | JArr items => map pretty (seq 0 (length items))
  | JStr s => map pretty (seq 0 (String.length s))
  | _ => []
  end.

(** [v.length] for a value that is not nullish. *)
Definition lengthOf (v : JsVal) : JsVal :=
  match v with
  | JStr s => JNum (Z.of_nat (String.length s))
  | JArr items => JNum (Z.of_nat (length items))
  | JObj entries => default JUndefined (assoc "length" entries)
  | _ => JUndefined
  end.

Definition serverTokenUrl : string := "https://dramabox-api.vercel.app/api/token".
Definition browserTokenUrl : string := "/api/token".

Definition error_invalid_token : string :=
  "Token atau Device ID tidak ditemukan dari API".

Definition isAxiosGet (e : Event) : bool :=
  match e with
  | AxiosGet _ => true
  | _ => false
  end.

Section WithWorld.

(** [typeof window !== 'undefined']; the successive readings of
    [Date.now()]; [JSON.parse] on the stored text as the [TokenCache] the
    code declares it to be ([None]: it throws; text of another shape is
    outside that declaration); the error [localStorage.setItem] throws for
    a text, if any ([getItem] and [removeItem] do not throw); and how the
    successive calls of [axios.get] settle. *)
Variable isBrowser : bool.
Variable clock : nat -> Z.
Variable JSON_parse : string -> option TokenCache.
Variable setItemError : string -> option JsVal.
Variable tokenRequest : nat -> string -> AxiosOutcome.

Definition Date_now : T Z :=
  fun s => (Return (clock (clockReads s)),
            {| localStorage := localStorage s; clockReads := S (clockReads s);
               requests := requests s; events := events s |}).

Definition setItem (text : string) : T unit :=
  fun s =>
    match setItemError text with
    | Some error => (Throw error, s)
    | None => (Return tt,
               {| localStorage := Some text; clockReads := clockReads s;
                  requests := requests s; events := events s |})
    end.

Definition axiosGet (url : string) : T (Z * JsVal) :=
  fun s =>
    let s' := {| localStorage := localStorage s; clockReads := clockReads s;
                 requests := S (requests s);
                 events := events s ++ [AxiosGet url] |} in
    match tokenRequest (requests s) url with
    | Resolved status data => (Return (status, data), s')
    | Rejected error => (Throw error, s')
    end.

(** [tokenUrl] of [getToken]. *)
Definition tokenUrl : string :=
  if isBrowser then browserTokenUrl else serverTokenUrl.

(** [readCache()] *)
Definition readCache : T (option TokenCache) :=
  if negb isBrowser then mret None
  else
    data ← getItem;
    match data with
    | None => mret None
    | Some text =>
      if bool_decide (text = EmptyString) then mret None
      else
        match JSON_parse text with
        | None => mret None
        | Some parsed =>
          now ← Date_now;
          if now - timestamp parsed <? 3600000 then mret (Some parsed)
          else removeItem ;; mret None
        end
    end.

(** [saveCache(data)] *)
Definition saveCache (data : TokenCache) : T unit :=
  if negb isBrowser then mret tt
  else
    tryCatch
      (setItem (default "undefined" (JSON_stringify (cacheObject data))))
      (fun err =>
         message ← prop err "message";
         consoleError "[ERROR] Gagal menyimpan cache:" [message]).

(** [!res.data.data || !res.data.data.token || !res.data.data.deviceId] *)
Definition invalidResponse (data : JsVal) : T bool :=
  inner ← prop data "data";
  if negb (truthy inner) then mret true
  else
    token ← prop inner "token";
    if negb (truthy token) then mret true
    else
      deviceId ← prop inner "deviceId";
      mret (negb (truthy deviceId)).

(** The [try] block of [getToken]; a date that is printed is kept as its
    time value. *)
Definition fetchToken : T TokenCache :=
  cache ← readCache;
  match cache with
  | Some cache =>
    consoleLog "Using cached token, expires at:" [JNum (timestamp cache + 3600000)] ;;
    mret cache
  | None =>
    consoleLog "Fetching new token from API..." [] ;;
    '(status, data) ← axiosGet tokenUrl;
    consoleLog "Token API response status:" [JNum status] ;;
    consoleLog "Token API response data keys:"
      [JArr (map JStr (objectKeys (jsOr data (JObj []))))] ;;
    invalid ← invalidResponse data;
    if (invalid : bool) then
      consoleError "Invalid token response:" [data] ;;
      throw (newError error_invalid_token)
    else
      inner ← prop data "data";
      token ← prop inner "token";
      deviceId ← prop inner "deviceId";
      now ← Date_now;
      let tokenData := {| token := token; deviceId := deviceId; timestamp := now |} in
      consoleLog "New token generated:"
        [JObj [("tokenLength", lengthOf token); ("deviceId", deviceId);
               ("timestamp", JNum now)]] ;;
      saveCache tokenData ;;
      mret tokenData
  end.

(** The [catch] block of [getToken]. *)
Definition reportAndRethrow (error : JsVal) : T TokenCache :=
  message ← prop error "message";
  consoleError "[ERROR] Gagal mengambil token:" [message] ;;
  response ← prop error "response";
  (if truthy response then
     data ← prop response "data";
     consoleError "[ERROR] Token API response:" [data] ;;
     status ← prop response "status";
     consoleError "[ERROR] Token API status:" [status]
   else mret tt) ;;
  throw error.

(** [getToken()] *)
Definition getToken : T TokenCache :=
  tryCatch fetchToken reportAndRethrow.

End WithWorld.

(** [res.data.data.token] and [res.data.data.deviceId] where the reads
    before them went through, [undefined] otherwise. *)
Definition tokenOf (data : JsVal) : JsVal :=
  getPropOpt (getPropOpt data "data") "token".

Definition deviceIdOf (data : JsVal) : JsVal :=
  getPropOpt (getPropOpt data "data") "deviceId".

(** The text [saveCache] stores for a token. *)
Definition storedText (c : TokenCache) : string :=
  default "undefined" (JSON_stringify (cacheObject c)).

(** A response body that carries a token and a device id. *)
Definition tokenBody (token deviceId : JsVal) : JsVal :=
  JObj [("data", JObj [("token", token); ("deviceId", deviceId)])].

Definition getsOf (evs : list Event) : list Event :=
  filter (fun e => isAxiosGet e = true) evs.

End Token.

(** * More sample data *)

Module MoreSamples.
Import Samples.

Definition eightChapters : list Chapter :=
  sixChapters ++ [chapterNamed "c7" "Episode 7"; chapterNamed "c8" "Episode 8"].

(** An upstream that serves [all] in batches of six, whatever the book. *)
Definition batchUpstream (all : list Chapter) (bookId : string) (index : Z)
  : Paging.ApiOutcome :=
  Paging.Response (Some (take 6 (drop (Z.to_nat (index - 1)) all))).

(** The player with the six sample episodes loaded and one of them
    selected. *)
Definition playerAt (selected : Chapter) : Player.State :=
  {| Player.isPlaying := false; Player.currentTime := 0;
     Player.videoUrl := None; Player.selectedChapter := Some selected;
     Player.chapters := sixChapters; Player.dramaDetail := None;
     Player.loading := false; Player.showEpisodeList := false;
     Player.selectedRangeIndex := 0 |}.

(** A book of eight episodes, as the detail endpoint describes it. *)
Definition eightEpisodes : list MovieDetail.DetailEpisode :=
  replicate 8 bareDetail.

Definition eightEpisodeBook : Detail.DramaDetail :=
  {| Detail.detailBookName := "Book"; Detail.detailList := Some eightEpisodes |}.

Definition detailUpstream (bookId : string) (needRecommend : bool)
    (from : string) : Detail.ApiOutcome :=
  Detail.Response (Some eightEpisodeBook).

(** An endpoint logger and calls that settle at once. *)
Definition chaptersEndpoint : EndpointLogger.Endpoint :=
  {| EndpointLogger.endpoint := "/drama-box/chapterv2/batch/load";
     EndpointLogger.endpointMethod := "POST" |}.

Definition fulfilledWith (result : Js.JsVal) : EndpointLogger.P Js.JsVal :=
  fun s => (Return result, s).

Definition rejectedWith (reason : Js.JsVal) : EndpointLogger.P Js.JsVal :=
  fun s => (Throw reason, s).

Definition networkError : Js.JsVal :=
  Js.JObj [("message", Js.JStr "Network Error"); ("status", Js.JNum 503)].

(** A log directory with three log files and a file of another kind. *)
Definition logDirectory : list LogFiles.FileStat :=
  [ {| LogFiles.fileName := "app-2025-01-01.log"; LogFiles.mtime := 10 |};
    {| LogFiles.fileName := "app-2025-01-03.log"; LogFiles.mtime := 30 |};
    {| LogFiles.fileName := "notes.txt"; LogFiles.mtime := 5 |};
    {| LogFiles.fileName := "app-2025-01-02.log"; LogFiles.mtime := 20 |} ].

(** Headers of a client that names its own host and token. *)
Definition clientHeaders : list (string * string) :=
  [("host", "localhost:4321"); ("content-type", "application/json");
   ("Tn", "Bearer forged"); ("x-trace", "1")].

(** A browser with an empty storage that accepts every text and reads
    back the one token it is given; a token service that answers with
    [body]. *)
Definition sampleToken : Token.TokenCache :=
  {| Token.token := Js.JStr "abc"; Token.deviceId := Js.JStr "device-1";
     Token.timestamp := sampleClock 0 |}.

Definition parseSample (text : string) : option Token.TokenCache :=
  if decide (text = Token.storedText sampleToken) then Some sampleToken else None.

Definition acceptsAll (text : string) : option Js.JsVal := None.

Definition emptyBrowser : Token.State :=
  {| Token.localStorage := None; Token.clockReads := 0; Token.requests := 0;
     Token.events := [] |}.

Definition answers (body : Js.JsVal) (n : nat) (url : string) : Token.AxiosOutcome :=
  Token.Resolved 200 body.

Definition refuses (error : Js.JsVal) (n : nat) (url : string) : Token.AxiosOutcome :=
  Token.Rejected error.

End MoreSamples.

(** * Properties *)

(** ** The paginated fetcher *)

Module PagingFacts.
Import Paging.

Lemma ceil_div_bounds n d :
  0 < d -> d * (ceil_div n d - 1) < n <= d * ceil_div n d.
Proof.
  intros Hd. unfold ceil_div.
  pose proof (Z.div_mod (- n) d ltac:(lia)) as Hdm.
  pose proof (Z.mod_pos_bound (- n) d Hd) as Hm.
  nia.
Qed.

Lemma ceil_div_zero d : 0 < d -> ceil_div 0 d = 0.
Proof. intros Hd. unfold ceil_div. simpl. rewrite Z.div_0_l; lia. Qed.

Lemma ceil_div_nonneg n d : 0 < d -> 0 <= n -> 0 <= ceil_div n d.
Proof. intros Hd Hn. pose proof (ceil_div_bounds n d Hd). nia. Qed.

Lemma pageOfIndex_startIndexOf page : pageOfIndex (startIndexOf page) = page.
Proof.
  unfold pageOfIndex, startIndexOf.
  replace (1 + (page - 1) * 6 - 1) with ((page - 1) * 6) by lia.
  rewrite Z.div_mul; lia.
Qed.

Lemma pagesUpTo_snoc k : 1 <= k -> pagesUpTo k = pagesUpTo (k - 1) ++ [k].
Proof.
  intros Hk. unfold pagesUpTo.
  replace k with ((k - 1) + 1) at 1 by lia.
  rewrite seqZ_app by lia. f_equal.
  rewrite seqZ_cons by lia. rewrite seqZ_nil by lia. f_equal. lia.
Qed.

Lemma pagesUpTo_split k n :
  1 <= k <= n -> pagesUpTo n = pagesUpTo (k - 1) ++ k :: seqZ (k + 1) (n - k).
Proof.
  intros Hk. unfold pagesUpTo.
  replace n with ((k - 1) + (n - k + 1)) at 1 by lia.
  rewrite seqZ_app by lia. f_equal.
  replace (1 + (k - 1)) with k by lia.
  rewrite seqZ_cons by lia. f_equal. f_equal; lia.
Qed.

Lemma elem_of_pagesUpTo p n : p ∈ pagesUpTo n <-> 1 <= p <= n.
Proof. unfold pagesUpTo. rewrite elem_of_seqZ. lia. Qed.

Section WithUpstream.

Variable apiRequest : string -> Z -> ApiOutcome.

Lemma visited_all bookId pages :
  (forall p, p ∈ pages -> ~ emptyPage apiRequest bookId p) ->
  visited apiRequest bookId pages = pages.
Proof.
  induction pages as [|page rest IH]; intros Hne; simpl; [done|].
  destruct (decide _) as [He|_].
  - exfalso. apply (Hne page); [left | done].
  - f_equal. apply IH. intros p Hp. apply Hne. by right.
Qed.

Lemma visited_stop bookId before page after :
  (forall p, p ∈ before -> ~ emptyPage apiRequest bookId p) ->
  emptyPage apiRequest bookId page ->
  visited apiRequest bookId (before ++ page :: after) = before ++ [page].
Proof.
  induction before as [|q before IH]; intros Hne He; simpl.
  - by destruct (decide _).
  - destruct (decide _) as [Hq|_].
    + exfalso. apply (Hne q); [left | done].
    + f_equal. apply IH; [|done]. intros p Hp. apply Hne. by right.
Qed.

Lemma itemsOf_empty bookId page :
  emptyPage apiRequest bookId page -> itemsOf apiRequest bookId page = [].
Proof.
  unfold emptyPage, itemsOf. by destruct (apiRequest bookId (startIndexOf page)).
Qed.

Lemma requestsOf_app evs1 evs2 :
  requestsOf (evs1 ++ evs2) = requestsOf evs1 ++ requestsOf evs2.
Proof. unfold requestsOf. apply omap_app. Qed.

Lemma errorsOf_app evs1 evs2 :
  errorsOf (evs1 ++ evs2) = errorsOf evs1 ++ errorsOf evs2.
Proof. unfold errorsOf. apply omap_app. Qed.

(** The loop requests exactly the visited pages, reports exactly their
    rejections, and accumulates exactly their items. *)
Lemma pageLoop_visited bookId log totalPages pages acc :
  bookId <> EmptyString ->
  let run := pageLoop apiRequest bookId log totalPages pages acc in
  requestsOf (fst run) = map startIndexOf (visited apiRequest bookId pages) /\
  errorsOf (fst run)
  = omap (rejectionOf apiRequest bookId) (visited apiRequest bookId pages) /\
  snd run = acc ++ flat_map (itemsOf apiRequest bookId) (visited apiRequest bookId pages).
Proof.
  intros Hid. revert acc.
  induction pages as [|page rest IH]; intros acc; simpl.
  { by rewrite app_nil_r. }
  unfold getChapters.
  destruct (decide (bookId = EmptyString)) as [|_]; [done|].
  destruct (decide (emptyPage apiRequest bookId page)) as [He|Hne].
  - pose proof (itemsOf_empty _ _ He) as Hitems.
    unfold emptyPage in He. simpl. unfold rejectionOf. rewrite Hitems.
    destruct (apiRequest bookId (startIndexOf page)) as [chapterList|err]; [|done].
    rewrite He. simpl. rewrite app_nil_r. by destruct log.
  - unfold emptyPage in Hne. simpl. unfold rejectionOf, itemsOf.
    destruct (apiRequest bookId (startIndexOf page)) as [chapterList|err].
    + destruct (default [] chapterList) as [|c cs]; [done|]. simpl.
      specialize (IH (acc ++ c :: cs)).
      destruct (pageLoop apiRequest bookId log totalPages rest (acc ++ c :: cs))
        as [evs' result].
      simpl in IH. destruct IH as (IHr & IHe & IHi). simpl.
      rewrite !requestsOf_app, !errorsOf_app, IHr, IHe, IHi.
      destruct log, (page <? totalPages); simpl; split_and!; try done;
        by rewrite <- app_assoc.
    + specialize (IH acc).
      destruct (pageLoop apiRequest bookId log totalPages rest acc)
        as [evs' result].
      simpl in IH. destruct IH as (IHr & IHe & IHi). simpl.
      rewrite !requestsOf_app, !errorsOf_app, IHr, IHe, IHi.
      by destruct log.
Qed.

Lemma requestsOf_getAllChapters bookId totalEpisodes log :
  bookId <> EmptyString ->
  let totalPages := ceil_div totalEpisodes episodesPerPage in
  let run := getAllChapters apiRequest bookId totalEpisodes log in
  requestsOf (fst run) = map startIndexOf (visited apiRequest bookId (pagesUpTo totalPages)) /\
  errorsOf (fst run) = omap (rejectionOf apiRequest bookId) (visited apiRequest bookId (pagesUpTo totalPages)) /\
  snd run =
    Return (flat_map (itemsOf apiRequest bookId) (visited apiRequest bookId (pagesUpTo totalPages))).
Proof.
  intros Hid. simpl. unfold getAllChapters.
  destruct (decide (bookId = EmptyString)) as [|_]; [done|].
  pose proof (pageLoop_visited bookId log (ceil_div totalEpisodes episodesPerPage)
                (pagesUpTo (ceil_div totalEpisodes episodesPerPage)) [] Hid) as H.
  destruct (pageLoop apiRequest bookId log _ _ []) as [evs allChapters].
  simpl in H. destruct H as (Hr & He & Hi). simpl.
  repeat rewrite requestsOf_app. repeat rewrite errorsOf_app.
  rewrite Hr, He, Hi.
  split_and!; [| |done];
    destruct log; simpl; try destruct (_ <? _); simpl; by rewrite ?app_nil_r.
Qed.

Lemma pagesRequested_visited bookId totalEpisodes log :
  bookId <> EmptyString ->
  pagesRequested (fst (getAllChapters apiRequest bookId totalEpisodes log)) =
  visited apiRequest bookId (pagesUpTo (ceil_div totalEpisodes episodesPerPage)).
Proof.
  intros Hid. unfold pagesRequested.
  destruct (requestsOf_getAllChapters bookId totalEpisodes log Hid) as (-> & _).
  rewrite map_map. rewrite <- (map_id (visited _ _ _)) at 2.
  apply map_ext. intros page. apply pageOfIndex_startIndexOf.
Qed.

(** On a run of consecutive pages the visited ones are again a run of
    consecutive pages: all of them, or those up to the first empty one. *)
Lemma visited_seqZ bookId (n : nat) (m : Z) :
  exists j : Z,
    0 <= j <= Z.of_nat n /\
    visited apiRequest bookId (seqZ m (Z.of_nat n)) = seqZ m j /\
    (forall p, m <= p < m + j - 1 -> ~ emptyPage apiRequest bookId p) /\
    (j < Z.of_nat n -> 1 <= j /\ emptyPage apiRequest bookId (m + j - 1)).
Proof.
  revert m. induction n as [|n IH]; intros m.
  - exists 0. simpl. split_and!; [lia | lia | done | lia | lia].
  - rewrite Nat2Z.inj_succ. rewrite seqZ_cons by lia. simpl.
    replace (Z.pred (Z.succ (Z.of_nat n))) with (Z.of_nat n) by lia.
    destruct (decide (emptyPage apiRequest bookId m)) as [He|Hne].
    + exists 1. split_and!; [lia | lia | | lia | ].
      * rewrite seqZ_cons by lia. by rewrite seqZ_nil by lia.
      * intros _. split; [lia|]. by replace (m + 1 - 1) with m by lia.
    + destruct (IH (Z.succ m)) as (j & Hj & Hv & Hbefore & Hstop).
      exists (j + 1). split_and!; [lia | lia | | | ].
      * rewrite Hv. rewrite (seqZ_cons m (j + 1)) by lia.
        do 2 f_equal. lia.
      * intros p Hp. destruct (decide (p = m)) as [->|Hpm]; [done|].
        apply Hbefore. lia.
      * intros Hlt. destruct Hstop as [Hj1 He]; [lia|]. split; [lia|].
        by replace (m + (j + 1) - 1) with (Z.succ m + j - 1) by lia.
Qed.

Lemma visited_pagesUpTo bookId totalPages :
  exists k : Z,
    0 <= k /\ k <= Z.max 0 totalPages /\
    visited apiRequest bookId (pagesUpTo totalPages) = pagesUpTo k /\
    (forall p, 1 <= p < k -> ~ emptyPage apiRequest bookId p) /\
    (k < totalPages -> 1 <= k /\ emptyPage apiRequest bookId k).
Proof.
  unfold pagesUpTo.
  destruct (decide (totalPages <= 0)) as [Hle|Hgt].
  - exists 0. rewrite seqZ_nil by lia. simpl.
    split_and!; [lia | lia | done | lia | lia].
  - destruct (visited_seqZ bookId (Z.to_nat totalPages) 1)
      as (j & Hj & Hv & Hbefore & Hstop).
    rewrite Z2Nat.id in * by lia.
    exists j. split_and!; [lia | lia | done | | ].
    + intros p Hp. apply Hbefore. lia.
    + intros Hlt. destruct Hstop as [Hj1 He]; [lia|]. split; [lia|].
      by replace (1 + j - 1) with j in He by lia.
Qed.

Lemma flat_map_skip {A B : Type} (f : A -> list B) (P : A -> Prop)
    `{!forall a, Decision (P a)} (l : list A) :
  (forall a, a ∈ l -> ~ P a -> f a = []) ->
  flat_map f (filter P l) = flat_map f l.
Proof.
  induction l as [|a l IH]; intros Hskip; [done|].
  rewrite filter_cons. simpl.
  destruct (decide (P a)) as [HP|HP]; simpl.
  - f_equal. apply IH. intros b Hb. apply Hskip. by right.
  - rewrite (Hskip a); [|by left|done]. simpl.
    apply IH. intros b Hb. apply Hskip. by right.
Qed.

(** C1, as amended: for every non-empty [bookId], [getAllChapters] with
    page size 6 requests the pages [1 .. ceil(totalEpisodes / 6)] in
    increasing order (start indexes 1, 7, 13, ...); the first page that
    returns zero items is the last one requested, and what was accumulated
    before it is returned; [totalEpisodes = 0] requests nothing. *)
Theorem getAllChapters_pages bookId totalEpisodes log :
  bookId <> EmptyString ->
  let totalPages := ceil_div totalEpisodes episodesPerPage in
  let run := getAllChapters apiRequest bookId totalEpisodes log in
  6 * (totalPages - 1) < totalEpisodes <= 6 * totalPages /\
  ((forall p, 1 <= p <= totalPages -> ~ emptyPage apiRequest bookId p) ->
   requestsOf (fst run) = map startIndexOf (pagesUpTo totalPages) /\
   snd run = Return (flat_map (itemsOf apiRequest bookId) (pagesUpTo totalPages))) /\
  (forall k, 1 <= k <= totalPages ->
     emptyPage apiRequest bookId k ->
     (forall p, 1 <= p < k -> ~ emptyPage apiRequest bookId p) ->
     requestsOf (fst run) = map startIndexOf (pagesUpTo k) /\
     snd run = Return (flat_map (itemsOf apiRequest bookId) (pagesUpTo (k - 1)))) /\
  (totalEpisodes = 0 -> requestsOf (fst run) = []).
Proof.
  intros Hid totalPages run.
  destruct (requestsOf_getAllChapters bookId totalEpisodes log Hid)
    as (Hreq & _ & Hres).
  fold totalPages in Hreq, Hres. fold run in Hreq, Hres.
  split_and!.
  - apply (ceil_div_bounds totalEpisodes 6). lia.
  - apply (ceil_div_bounds totalEpisodes 6). lia.
  - intros Hne. rewrite Hreq, Hres.
    rewrite visited_all; [done|].
    intros p Hp. apply Hne. by apply elem_of_pagesUpTo.
  - intros k Hk He Hbefore. rewrite Hreq, Hres.
    rewrite (pagesUpTo_split k totalPages Hk).
    rewrite visited_stop; [| |done].
    + rewrite <- pagesUpTo_snoc by lia. split; [done|].
      rewrite (pagesUpTo_snoc k) by lia.
      rewrite flat_map_app. simpl.
      by rewrite (itemsOf_empty _ _ He), !app_nil_r.
    + intros p Hp. apply Hbefore. apply elem_of_pagesUpTo in Hp. lia.
  - intros ->. rewrite Hreq. subst totalPages.
    by rewrite ceil_div_zero.
Qed.

(** C2: when the fetch of a requested page throws, the error is reported on
    the console, the next page (if there is one) is still requested, and
    the call returns (it does not throw) the items of all the other
    requested pages, in page order. *)
Theorem getAllChapters_skips_failed_page bookId totalEpisodes log page err :
  let totalPages := ceil_div totalEpisodes episodesPerPage in
  let run := getAllChapters apiRequest bookId totalEpisodes log in
  page ∈ pagesRequested (fst run) ->
  apiRequest bookId (startIndexOf page) = Rejected err ->
  (page, err) ∈ errorsOf (fst run) /\
  (page < totalPages -> (page + 1) ∈ pagesRequested (fst run)) /\
  (exists n, pagesRequested (fst run) = pagesUpTo n) /\
  snd run =
    Return (flat_map (itemsOf apiRequest bookId)
              (filter (fun q => q <> page) (pagesRequested (fst run)))).
Proof.
  intros totalPages run Hin Hrej.
  assert (bookId <> EmptyString) as Hid.
  { intros ->. subst run. unfold getAllChapters in Hin.
    destruct (decide (EmptyString = EmptyString)); [|done].
    unfold pagesRequested, requestsOf in Hin. simpl in Hin.
    inversion Hin. }
  pose proof (pagesRequested_visited bookId totalEpisodes log Hid) as Hpages.
  destruct (requestsOf_getAllChapters bookId totalEpisodes log Hid)
    as (_ & Herr & Hres).
  fold totalPages in Hpages, Herr, Hres. fold run in Hpages, Herr, Hres.
  destruct (visited_pagesUpTo bookId totalPages)
    as (k & Hk0 & Hk & Hv & Hbefore & Hstop).
  assert (~ emptyPage apiRequest bookId page) as Hne.
  { unfold emptyPage. rewrite Hrej. tauto. }
  rewrite Hpages, Hv in Hin. apply elem_of_pagesUpTo in Hin.
  split_and!.
  - rewrite Herr. apply list_elem_of_omap. exists page. split.
    + rewrite Hv. by apply elem_of_pagesUpTo.
    + unfold rejectionOf. by rewrite Hrej.
  - intros Hlt. rewrite Hpages, Hv. apply elem_of_pagesUpTo.
    destruct (decide (page = k)) as [->|Hpk]; [|lia].
    destruct Hstop as [_ He]; [lia|]. done.
  - exists k. by rewrite Hpages.
  - rewrite Hres, Hpages. f_equal. symmetry. apply flat_map_skip.
    intros q _ Hq. apply dec_stable in Hq. subst q.
    unfold itemsOf. by rewrite Hrej.
Qed.

End WithUpstream.

(** C1 as stated fails for the empty [bookId]: the guard at the top of
    [getAllChapters] throws before any page is requested, although
    [ceil(6 / 6) = 1] page with items is there to fetch. *)
Lemma getAllChapters_empty_bookId_requests_nothing :
  let run := getAllChapters Samples.fullUpstream EmptyString 6 true in
  requestsOf (fst run) = [] /\
  snd run = Throw error_bookId_required /\
  map startIndexOf (pagesUpTo (ceil_div 6 episodesPerPage)) = [1] /\
  (forall p, ~ emptyPage Samples.fullUpstream EmptyString p).
Proof.
  split_and!; try reflexivity.
  intros p. unfold emptyPage, Samples.fullUpstream. discriminate.
Qed.

Lemma getAllChapters_pages_witness :
  "book" <> EmptyString /\
  let totalPages := ceil_div 13 episodesPerPage in
  let run := getAllChapters Samples.flakyUpstream "book" 13 true in
  6 * (totalPages - 1) < 13 <= 6 * totalPages /\
  ((forall p, 1 <= p <= totalPages -> ~ emptyPage Samples.flakyUpstream "book" p) ->
   requestsOf (fst run) = map startIndexOf (pagesUpTo totalPages) /\
   snd run = Return (flat_map (itemsOf Samples.flakyUpstream "book") (pagesUpTo totalPages))) /\
  (forall k, 1 <= k <= totalPages ->
     emptyPage Samples.flakyUpstream "book" k ->
     (forall p, 1 <= p < k -> ~ emptyPage Samples.flakyUpstream "book" p) ->
     requestsOf (fst run) = map startIndexOf (pagesUpTo k) /\
     snd run = Return (flat_map (itemsOf Samples.flakyUpstream "book") (pagesUpTo (k - 1)))) /\
  (13 = 0 -> requestsOf (fst run) = []).
Proof.
  split; [discriminate|].
  apply (getAllChapters_pages Samples.flakyUpstream "book" 13 true).
  discriminate.
Defined.

Lemma getAllChapters_skips_failed_page_witness :
  let run := getAllChapters Samples.flakyUpstream "book" 13 true in
  2 ∈ pagesRequested (fst run) /\
  Samples.flakyUpstream "book" (startIndexOf 2) = Rejected "Network Error" /\
  ((2, "Network Error") ∈ errorsOf (fst run) /\
   (2 < ceil_div 13 episodesPerPage -> (2 + 1) ∈ pagesRequested (fst run)) /\
   (exists n, pagesRequested (fst run) = pagesUpTo n) /\
   snd run =
     Return (flat_map (itemsOf Samples.flakyUpstream "book")
               (filter (fun q => q <> 2) (pagesRequested (fst run))))).
Proof.
  assert (2 ∈ pagesRequested
                (fst (getAllChapters Samples.flakyUpstream "book" 13 true))) as Hin.
  { vm_compute. apply list_elem_of_In. simpl. auto. }
  split; [exact Hin | split; [reflexivity | ]].
  apply (getAllChapters_skips_failed_page Samples.flakyUpstream "book" 13 true
           2 "Network Error"); [exact Hin | reflexivity].
Defined.

(** The specification's example: 13 episodes are fetched as pages 1, 2, 3;
    here page 2 fails and the other two pages give 7 chapters. *)
Example getAllChapters_thirteen :
  let run := getAllChapters Samples.flakyUpstream "book" 13 false in
  requestsOf (fst run) = [1; 7; 13] /\
  errorsOf (fst run) = [(2, "Network Error")] /\
  snd run = Return (Samples.sixChapters ++ [Samples.chapterNamed "c13" "Episode 13"]).
Proof. by split_and!. Qed.

End PagingFacts.

(** ** The episode merger and the URL selection *)

Module MovieDetailFacts.
Import MovieDetail.

Lemma numberOr_zero x : numberOr x 0 = default 0 x.
Proof.
  destruct x as [v|]; simpl; [|done].
  destruct (Z.eqb_spec v 0); congruence.
Qed.

Lemma arrayOr_nil {A : Type} (x : option (list A)) : arrayOr x [] = default [] x.
Proof. by destruct x. Qed.

Lemma mergedChapters_length chaptersData detailEpisodes :
  length (mergedChapters chaptersData detailEpisodes) = length chaptersData.
Proof. unfold mergedChapters. apply length_imap. Qed.

Lemma mergedChapters_lookup chaptersData detailEpisodes i :
  mergedChapters chaptersData detailEpisodes !! i =
  mergeChapter detailEpisodes i <$> chaptersData !! i.
Proof. unfold mergedChapters. apply list_lookup_imap. Qed.

(** C3, as amended: the merge keeps the chapter list's length and order;
    where a detail entry exists at the same index, [chapterIndex] and
    [isCharge] are copied from it, [isPay] is the detail entry's or 0 when
    it has none, the size-variant list is the detail entry's or empty when
    it has none, and every other field is the chapter's; beyond the detail
    list the chapter entries are unchanged. *)
Theorem mergedChapters_positional chaptersData detailEpisodes :
  let merged := mergedChapters chaptersData detailEpisodes in
  let M := length chaptersData in
  let N := length detailEpisodes in
  length merged = M /\
  (forall i, (i < Nat.min N M)%nat ->
     exists chapter detail out,
       chaptersData !! i = Some chapter /\
       detailEpisodes !! i = Some detail /\
       merged !! i = Some out /\
       chapterIndex out = detChapterIndex detail /\
       isCharge out = detIsCharge detail /\
       isPay out = Some (default 0 (detIsPay detail)) /\
       chapterSizeVoList out = Some (default [] (detChapterSizeVoList detail)) /\
       chapterId out = chapterId chapter /\
       chapterName out = chapterName chapter /\
       cdnList out = cdnList chapter /\
       chapterImg out = chapterImg chapter /\
       chapterType out = chapterType chapter /\
       viewingDuration out = viewingDuration chapter /\
       chargeChapter out = chargeChapter chapter) /\
  (forall i, (N <= i < M)%nat -> merged !! i = chaptersData !! i).
Proof.
  intros merged M N. subst merged M N. split_and!.
  - apply mergedChapters_length.
  - intros i Hi.
    destruct (lookup_lt_is_Some_2 chaptersData i) as [chapter Hc]; [lia|].
    destruct (lookup_lt_is_Some_2 detailEpisodes i) as [detail Hd]; [lia|].
    exists chapter, detail, (mergeChapter detailEpisodes i chapter).
    rewrite mergedChapters_lookup, Hc. unfold mergeChapter. rewrite Hd. simpl.
    rewrite numberOr_zero, arrayOr_nil. by split_and!.
  - intros i Hi. rewrite mergedChapters_lookup.
    destruct (chaptersData !! i) as [chapter|] eqn:Hc; [|done]. simpl.
    unfold mergeChapter. by rewrite (lookup_ge_None_2 detailEpisodes i) by lia.
Qed.







(** What [preferredVariant] picks, tier by tier. *)
Lemma preferredVariant_tiers videos :
  match preferredVariant videos with
  | Some v =>
      v ∈ videos /\
      (isNonVipDefault v = true \/
       (Forall (fun w => isNonVipDefault w = false) videos /\
        (isNonVip v = true \/
         (Forall (fun w => isNonVip w = false) videos /\ head videos = Some v))))
  | None => videos = []
  end.
Proof.
  unfold preferredVariant.
  destruct (find isNonVipDefault videos) as [v|] eqn:Hd.
  { apply find_some in Hd as [Hin Hv]. split; [by apply list_elem_of_In | by left]. }
  assert (Forall (fun w => isNonVipDefault w = false) videos) as Hnd.
  { apply Forall_forall. intros w Hw. apply list_elem_of_In in Hw.
    apply (find_none _ _ Hd w) in Hw. done. }
  destruct (find isNonVip videos) as [v|] eqn:Hn.
  { apply find_some in Hn as [Hin Hv]. split; [by apply list_elem_of_In | auto]. }
  assert (Forall (fun w => isNonVip w = false) videos) as Hnn.
  { apply Forall_forall. intros w Hw. apply list_elem_of_In in Hw.
    apply (find_none _ _ Hn w) in Hw. done. }
  destruct videos as [|v videos]; simpl; [done|].
  split; [by left | auto].
Qed.

(** C3 as stated fails where the detail entry has no [isPay] or no size
    list: the merged chapter then carries [0] and the empty list, which are
    not copies of anything in the detail entry. *)
Lemma mergedChapters_isPay_not_copied :
  let chapter := Samples.chapterNamed "c1" "Episode 1" in
  exists out,
    mergedChapters [chapter] [Samples.bareDetail] !! 0%nat = Some out /\
    isPay out = Some 0 /\
    isPay out <> detIsPay Samples.bareDetail /\
    chapterSizeVoList out = Some [] /\
    chapterSizeVoList out <> detChapterSizeVoList Samples.bareDetail.
Proof. eexists. by split_and!. Qed.

(** The specification's example: ten detail entries, eight chapters. *)
Example mergedChapters_ten_eight :
  let chapters := replicate 8 (Samples.chapterNamed "c" "Episode") in
  let details := replicate 10 Samples.bareDetail in
  length (mergedChapters chapters details) = 8%nat /\
  Forall (fun out => chapterIndex out = 1 /\ isCharge out = 0)
         (mergedChapters chapters details).
Proof. split; [done|]. repeat constructor. Qed.


Lemma mergedChapters_positional_witness :
  let chapters := [Samples.chapterNamed "c1" "Episode 1";
                   Samples.chapterNamed "c2" "Episode 2"] in
  let merged := mergedChapters chapters [Samples.bareDetail] in
  length merged = 2%nat /\
  (exists out, merged !! 0%nat = Some out /\ chapterIndex out = 1 /\ isPay out = Some 0) /\
  merged !! 1%nat = Some (Samples.chapterNamed "c2" "Episode 2").
Proof.
  intros chapters merged.
  destruct (mergedChapters_positional chapters [Samples.bareDetail])
    as (Hlength & Hprefix & Hrest).
  split_and!.
  - exact Hlength.
  - destruct (Hprefix 0%nat) as (chapter & detail & out & _ & Hd & Hout & Hindex & _ & Hpay & _).
    { simpl. lia. }
    injection Hd as <-. exists out. by split_and!.
  - etrans; [apply (Hrest 1%nat); simpl; lia | reflexivity].
Defined.


End MovieDetailFacts.

(** ** JavaScript values *)

Module JsFacts.
Import Js.






End JsFacts.

(** ** Redaction and truncation *)

Module SanitizeFacts.
Import Js JsFacts ApiLogger.


Lemma sanitizeRecursive_too_deep obj depth :
  (5 < depth)%nat -> sanitizeRecursive obj depth = JStr tooDeepMarker.
Proof.
  intros Hd. destruct obj; simpl; by rewrite (proj2 (Nat.ltb_lt _ _) Hd).
Qed.

Lemma sanitizeRecursive_array items depth :
  (depth <= 5)%nat ->
  sanitizeRecursive (JArr items) depth
  = JArr (map (fun item => sanitizeRecursive item (S depth)) items).
Proof. intros Hd. simpl. by rewrite (proj2 (Nat.ltb_ge _ _) Hd). Qed.

Lemma sanitizeRecursive_object entries depth :
  (depth <= 5)%nat ->
  sanitizeRecursive (JObj entries) depth
  = JObj (map (fun '(key, value) =>
                 (key,
                  if isSensitive key then JStr redactedMarker
                  else if isObjectValue value
                       then sanitizeRecursive value (S depth)
                       else value))
              entries).
Proof. intros Hd. simpl. by rewrite (proj2 (Nat.ltb_ge _ _) Hd). Qed.

Lemma sanitizeRecursive_plain obj depth :
  (depth <= 5)%nat -> isObjectValue obj = false ->
  sanitizeRecursive obj depth = obj.
Proof.
  intros Hd Hobj.
  destruct obj; simpl; rewrite (proj2 (Nat.ltb_ge _ _) Hd); done.
Qed.

(** [sanitizeData] is the recursive walk from depth 0: its early return
    only covers values the walk returns unchanged. *)
Lemma sanitizeData_recursive data : sanitizeData data = sanitizeRecursive data 0.
Proof.
  unfold sanitizeData.
  destruct data as [| |b|n|s|items|entries]; simpl; try done.
  - by destruct b.
  - by destruct (n =? 0).
  - by destruct (bool_decide (s = EmptyString)).
Qed.








Example isSensitive_examples :
  isSensitive "Authorization" = true /\ isSensitive "apiKey" = true /\
  isSensitive "SESSION_ID" = true /\ isSensitive "monkey" = true /\
  isSensitive "user" = false /\ isSensitive "body" = false.
Proof. by split_and!. Qed.

End SanitizeFacts.

Module TruncateFacts.
Import Js JsFacts ApiLogger.

Lemma bodyStringOf_truthy body :
  truthy body = true -> is_Some (bodyStringOf body).
Proof. destruct body; simpl; try done; eauto. Qed.





Example truncateResponseBody_long_string :
  truncateResponseBody (JStr "0123456789abcdef") 10 =
  Return (JObj [("_truncated", JBool true);
                ("_originalLength", JNum 16);
                ("_data", JStr "0123456789...")]).
Proof. reflexivity. Qed.

Example truncateResponseBody_object :
  JSON_stringify (JObj [("id", JNum 42); ("tags", JArr [JStr "a"; JNull])]) =
    Some ("{" +:+ quoteJSONString "id" +:+ ":42," +:+ quoteJSONString "tags" +:+ ":["
          +:+ quoteJSONString "a" +:+ ",null]}") /\
  truncateResponseBody (JObj [("id", JNum 42); ("tags", JArr [JStr "a"; JNull])]) 1000 =
    Return (JObj [("id", JNum 42); ("tags", JArr [JStr "a"; JNull])]).
Proof. split; reflexivity. Qed.


End TruncateFacts.

(** ** The request tracker *)

Module TrackerFacts.
Import Js JsFacts ApiLogger.

(** *** The [Map] *)

Lemma Map_get_None {V : Type} k (m : JsMap V) :
  Map_get k m = None <-> k ∉ map fst m.
Proof.
  unfold Map_get. induction m as [|[k' v] m IH]; simpl.
  - split; [intros _ Hin; inversion Hin | done].
  - rewrite not_elem_of_cons. destruct (decide (k' = k)) as [->|Hne].
    + split; [done | intros [? _]; done].
    + rewrite IH. split; [intros ?; split; congruence | intros [_ ?]; done].
Qed.



Lemma Map_get_delete_eq {V : Type} k (m : JsMap V) :
  Map_get k (Map_delete k m) = None.
Proof.
  apply Map_get_None. unfold Map_delete. intros Hin.
  apply list_elem_of_fmap in Hin as ([k' v] & -> & Hin).
  apply list_elem_of_filter in Hin as [Hne _]. done.
Qed.

Lemma Map_get_delete_ne {V : Type} k k' (m : JsMap V) :
  k <> k' -> Map_get k' (Map_delete k m) = Map_get k' m.
Proof.
  intros Hne. unfold Map_get, Map_delete.
  induction m as [|[k0 v] m IH]; [done|].
  rewrite filter_cons. simpl.
  destruct (decide (k0 ≠ k)) as [Hk|Hk]; simpl.
  - destruct (decide (k0 = k')); [done | apply IH].
  - apply dec_stable in Hk. subst k0.
    rewrite decide_False by done. apply IH.
Qed.

Lemma Map_delete_wf {V : Type} k (m : JsMap V) :
  Map_wf m -> Map_wf (Map_delete k m).
Proof.
  unfold Map_wf, Map_delete. intros Hwf.
  eapply sublist_NoDup; [exact Hwf|].
  apply (fmap_sublist fst), sublist_filter.
Qed.

Lemma Map_delete_absent {V : Type} k (m : JsMap V) :
  Map_get k m = None -> Map_delete k m = m.
Proof.
  intros Hget. apply Map_get_None in Hget. unfold Map_delete.
  induction m as [|[k' v] m IH]; [done|].
  simpl in Hget. apply not_elem_of_cons in Hget as [Hne Hget].
  rewrite filter_cons. simpl. rewrite decide_True by done.
  f_equal. by apply IH.
Qed.

Lemma Map_set_keys {V : Type} k (v : V) (m : JsMap V) :
  map fst (Map_set k v m) =
  if decide (k ∈ map fst m) then map fst m else map fst m ++ [k].
Proof.
  induction m as [|[k' v'] m IH]; simpl.
  - done.
  - destruct (decide (k' = k)) as [->|Hne]; simpl.
    + rewrite decide_True; [done | by left].
    + rewrite IH. destruct (decide (k ∈ map fst m)) as [Hin|Hnin].
      * rewrite decide_True; [done | by right].
      * rewrite decide_False; [done|].
        rewrite not_elem_of_cons. split; congruence.
Qed.

Lemma Map_set_wf {V : Type} k (v : V) (m : JsMap V) :
  Map_wf m -> Map_wf (Map_set k v m).
Proof.
  unfold Map_wf. rewrite Map_set_keys. intros Hwf.
  destruct (decide (k ∈ map fst m)) as [Hin|Hnin]; [done|].
  apply NoDup_app. split_and!; [done | | apply NoDup_singleton].
  intros x Hx Hk. apply list_elem_of_singleton in Hk. by subst x.
Qed.

Lemma Map_get_set_eq {V : Type} k (v : V) (m : JsMap V) :
  Map_get k (Map_set k v m) = Some v.
Proof.
  unfold Map_get. induction m as [|[k' v'] m IH]; simpl.
  - by rewrite decide_True.
  - destruct (decide (k' = k)) as [->|Hne]; simpl.
    + by rewrite decide_True.
    + by rewrite decide_False.
Qed.

Lemma filter_key_absent {V : Type} k (m : JsMap V) :
  k ∉ map fst m -> filter (fun e => fst e = k) m = [].
Proof.
  induction m as [|[k' v] m IH]; intros Hnin; [done|].
  simpl in Hnin. apply not_elem_of_cons in Hnin as [Hne Hnin].
  rewrite filter_cons. simpl. rewrite decide_False by done. by apply IH.
Qed.

(** [NoDup] keys: at most one entry per key. *)
Lemma Map_wf_at_most_one {V : Type} k (m : JsMap V) :
  Map_wf m -> (length (filter (fun e => fst e = k) m) <= 1)%nat.
Proof.
  unfold Map_wf. induction m as [|[k' v] m IH]; intros Hwf; [simpl; lia|].
  simpl in Hwf. apply NoDup_cons in Hwf as [Hfresh Hwf].
  rewrite filter_cons. simpl.
  destruct (decide (k' = k)) as [->|Hne]; [|by apply IH].
  simpl. rewrite filter_key_absent by done. simpl. lia.
Qed.

(** *** [logResponse] and [logError] *)

Lemma truncateResponseBody_returns body maxLength :
  exists shown, truncateResponseBody body maxLength = Return shown.
Proof.
  unfold truncateResponseBody.
  destruct (truthy body) eqn:Htruthy; simpl; [|by eauto].
  destruct (TruncateFacts.bodyStringOf_truthy body Htruthy) as [bodyString ->].
  destruct (_ <=? _); eauto.
Qed.

Lemma getProp_returns v name :
  isNullish v = false -> exists value, getProp v name = Return value.
Proof. destruct v; simpl; try done; eauto. Qed.

Ltac run_method :=
  unfold mbind, M_bind, mret, M_ret, getActive, setActive, logger,
    liftCompletion, when, Date_now; simpl.

Section WithWorld.

Variable environment : string.
Variable clock : nat -> Z.
Variable random : nat -> string.

(** An unknown id: [logResponse] records one warning and changes nothing
    else. *)
Lemma logResponse_unknown response st :
  Map_get (requestId (resContext response)) (activeRequests st) = None ->
  logResponse environment clock response st =
  (Return tt,
   recordCall
     (Call_warn ("No request context found for response: "
                 +:+ requestId (resContext response)) JUndefined None) st).
Proof. intros Hget. unfold logResponse. run_method. by rewrite Hget. Qed.

(** An unknown id: [logError] records one error-level entry and changes
    nothing else, provided reading [error.message] does not throw. *)
Lemma logError_unknown rid err additionalContext st :
  Map_get rid (activeRequests st) = None ->
  isNullish err = false ->
  exists message,
    getProp err "message" = Return message /\
    logError clock rid err additionalContext st =
    (Return tt,
     recordCall
       (Call_error "API Error without request context"
          (JObj [("requestId", JStr rid);
                 ("error", jsOr message err);
                 ("additionalContext", additionalContext)])) st).
Proof.
  intros Hget Herr.
  destruct (getProp_returns err "message" Herr) as [message Hmessage].
  exists message. split; [done|].
  unfold logError. run_method. by rewrite Hget, Hmessage.
Qed.

(** On [null] or [undefined], [logError] throws, whatever the tracker
    holds for the id. *)
Lemma logError_nullish rid err additionalContext st :
  isNullish err = true ->
  exists e st', logError clock rid err additionalContext st = (Throw e, st') /\
                activeRequests st' = activeRequests st.
Proof.
  intros Herr. unfold logError. run_method.
  destruct (Map_get rid (activeRequests st)); destruct err; try done;
    simpl; eauto.
Qed.

(** A known id: [logResponse] returns and removes that entry only. *)
Lemma logResponse_known response st context :
  Map_get (requestId (resContext response)) (activeRequests st) = Some context ->
  exists st',
    logResponse environment clock response st = (Return tt, st') /\
    activeRequests st' =
      Map_delete (requestId (resContext response)) (activeRequests st) /\
    exists shown elapsed before,
      calls st' =
        calls st ++ before ++
        [Call_apiResponse (method context) (url context) (status response)
           shown (requestId (resContext response)) elapsed] /\
      Forall (fun c => levelOf c = Logger.WARN) before.
Proof.
  intros Hget. unfold logResponse. run_method. rewrite Hget.
  destruct (duration response =? 0); simpl;
    destruct (slowRequestThreshold <? _); simpl;
    destruct (logResponseBodies environment && truthy (responseBody response));
    simpl;
    try (destruct (truncateResponseBody_returns
                     (sanitizeData (responseBody response))
                     (maxResponseBodyLength environment)) as [shown ->]; simpl);
    eexists; (split; [reflexivity|]); (split; [reflexivity|]); simpl;
    rewrite <- ?app_assoc; simpl.
  all: first
    [ by eexists _, _, [_]; split; [reflexivity | repeat constructor]
    | by eexists _, _, []; split; [reflexivity | repeat constructor] ].
Qed.

(** A known id: [logError] returns and removes that entry only, provided
    reading the properties of [error] does not throw. *)
Lemma logError_known rid err additionalContext st context :
  Map_get rid (activeRequests st) = Some context ->
  isNullish err = false ->
  exists st' errorData,
    logError clock rid err additionalContext st = (Return tt, st') /\
    activeRequests st' = Map_delete rid (activeRequests st) /\
    calls st' =
      calls st ++ [Call_apiError (method context) (url context) errorData rid].
Proof.
  intros Hget Herr. unfold logError. run_method. rewrite Hget.
  destruct err; try done; simpl;
    repeat match goal with
           | |- context [truthy ?v] => destruct (truthy v); simpl
           end;
    eexists _, _; split_and!; reflexivity.
Qed.

(** [logRequest] returns the id under which it has stored the context,
    the given one if there is one, and keeps one entry per id. *)
Lemma logRequest_tracks request st :
  Map_wf (activeRequests st) ->
  exists rid st' context,
    logRequest environment clock random request st = (Return rid, st') /\
    Map_wf (activeRequests st') /\
    Map_get rid (activeRequests st') = Some context /\
    method context = method (reqContext request) /\
    url context = url (reqContext request) /\
    (requestId (reqContext request) <> EmptyString ->
     rid = requestId (reqContext request)).
Proof.
  intros Hwf. unfold logRequest, generateRequestId, Math_random_suffix.
  run_method.
  destruct (decide (requestId (reqContext request) = EmptyString)) as [Hempty|Hgiven];
    simpl; destruct (logRequests environment); simpl;
    eexists _, _, _; (split; [reflexivity|]); simpl;
    (split; [by apply Map_set_wf|]); (split; [apply Map_get_set_eq|]);
    by split_and!.
Qed.

(** C6, as amended.  For an id the tracker does not hold, [logResponse]
    records one WARN entry and [logError] one ERROR entry; both return
    normally and leave the tracker as it is.  For an id the tracker holds,
    either call returns normally and deletes that entry and no other, so
    that a second [logResponse] or [logError] for the id takes the
    unknown-id path.  The tracker never holds two entries for one id.
    ([logError] is taken with an [error] that is not [null] or
    [undefined].) *)
Theorem logResponse_logError_lifecycle st response err additionalContext :
  let rid := requestId (resContext response) in
  let unknown st :=
    (exists c, logResponse environment clock response st = (Return tt, recordCall c st) /\
               levelOf c = Logger.WARN) /\
    (exists c, logError clock rid err additionalContext st = (Return tt, recordCall c st) /\
               levelOf c = Logger.ERROR) in
  Map_wf (activeRequests st) ->
  isNullish err = false ->
  (Map_get rid (activeRequests st) = None -> unknown st) /\
  (is_Some (Map_get rid (activeRequests st)) ->
   exists st1 st2,
     logResponse environment clock response st = (Return tt, st1) /\
     logError clock rid err additionalContext st = (Return tt, st2) /\
     forall st', st' = st1 \/ st' = st2 ->
       activeRequests st' = Map_delete rid (activeRequests st) /\
       Map_get rid (activeRequests st') = None /\
       (forall other, other <> rid ->
          Map_get other (activeRequests st') = Map_get other (activeRequests st)) /\
       Map_wf (activeRequests st') /\
       unknown st') /\
  (length (filter (fun e => fst e = rid) (activeRequests st)) <= 1)%nat.
Proof.
  intros rid unknown Hwf Herr.
  assert (forall s, Map_get rid (activeRequests s) = None -> unknown s) as Hunknown.
  { intros s Hget. split.
    - eexists. split; [by apply logResponse_unknown | done].
    - destruct (logError_unknown rid err additionalContext s Hget Herr)
        as (message & _ & Hrun).
      eexists. split; [exact Hrun | done]. }
  split_and!.
  - apply Hunknown.
  - intros [context Hget].
    destruct (logResponse_known response st context Hget)
      as (st1 & Hrun1 & Hactive1 & _).
    destruct (logError_known rid err additionalContext st context Hget Herr)
      as (st2 & errorData & Hrun2 & Hactive2 & _).
    exists st1, st2. split_and!; [done | done |].
    intros st' Hst'.
    assert (activeRequests st' = Map_delete rid (activeRequests st)) as Hactive.
    { by destruct Hst' as [-> | ->]. }
    split_and!; [done | | | | ].
    + rewrite Hactive. apply Map_get_delete_eq.
    + intros other Hother. rewrite Hactive. by apply Map_get_delete_ne.
    + rewrite Hactive. by apply Map_delete_wf.
    + apply Hunknown. rewrite Hactive. apply Map_get_delete_eq.
  - by apply Map_wf_at_most_one.
Qed.

End WithWorld.

(** *** The sweep and the statistics *)



Section Sweep.

Variable clock : nat -> Z.










End Sweep.


(** C6 as stated fails for [logError]: for an id the tracker does not
    hold it records an ERROR-level entry, not a warning.  (And with an
    [error] that is [undefined] it throws on reading [error.message].) *)
Lemma logError_unknown_id_is_error_level :
  (exists c,
     logError Samples.sampleClock "req_1" (JStr "boom") JUndefined initial
     = (Return tt, recordCall c initial) /\
     levelOf c = Logger.ERROR /\ levelOf c <> Logger.WARN) /\
  (exists e,
     logError Samples.sampleClock "req_1" JUndefined JUndefined initial
     = (Throw e, initial)).
Proof.
  split.
  - eexists. split; [reflexivity|]. by split.
  - eexists. reflexivity.
Qed.

Lemma logResponse_logError_lifecycle_witness :
  let st := Samples.twoRequests in
  let response := Samples.responseFor "req_old" 200 in
  Map_wf (activeRequests st) /\
  isNullish (JStr "boom") = false /\
  is_Some (Map_get "req_old" (activeRequests st)) /\
  exists st1,
    logResponse "development" Samples.sampleClock response st = (Return tt, st1) /\
    Map_get "req_old" (activeRequests st1) = None /\
    exists c,
      logResponse "development" Samples.sampleClock response st1
      = (Return tt, recordCall c st1) /\
      levelOf c = Logger.WARN.
Proof.
  intros st response.
  assert (Map_wf (activeRequests st)) as Hwf.
  { apply (bool_decide_unpack _). by vm_compute. }
  assert (is_Some (Map_get "req_old" (activeRequests st))) as Hsome.
  { by eexists. }
  split_and!; [exact Hwf | reflexivity | exact Hsome | ].
  destruct (logResponse_logError_lifecycle "development" Samples.sampleClock
              st response (JStr "boom") JUndefined Hwf eq_refl)
    as (_ & Hknown & _).
  destruct (Hknown Hsome) as (st1 & st2 & Hrun1 & _ & Hafter).
  destruct (Hafter st1 (or_introl eq_refl))
    as (_ & Hgone & _ & _ & (Hsecond & _)).
  exists st1. split_and!; [exact Hrun1 | exact Hgone | exact Hsecond].
Defined.

End TrackerFacts.

(** ** The durable-sink buffer *)

Module LoggerFacts.
Import Js Logger.

Lemma Invariant_initial cfg server sid : Invariant (initial cfg server sid).
Proof.
  split; simpl; [done | done | constructor | constructor |].
  intros p Hp. inversion Hp.
Qed.

Lemma logToConsole_fields s entry :
  let s' := logToConsole s entry in
  config s' = config s /\ isServer s' = isServer s /\ session s' = session s /\
  logBuffer s' = logBuffer s /\ drains s' = drains s /\ written s' = written s /\
  pushes s' = pushes s /\ snapshots s' = snapshots s.
Proof. unfold logToConsole. by destruct (enableConsoleLogging (config s)). Qed.

Lemma Invariant_logToConsole s entry :
  Invariant s -> Invariant (logToConsole s entry).
Proof.
  intros [Hp Hi Hd Hw Hf].
  destruct (logToConsole_fields s entry) as (_ & _ & _ & Hb & Hdr & Hwr & Hpu & Hsn).
  split; by rewrite ?Hb, ?Hdr, ?Hpu, ?Hsn, ?Hwr.
Qed.

Lemma Invariant_pushEntry s entry : Invariant s -> Invariant (pushEntry s entry).
Proof.
  intros [Hp Hi Hd Hw Hf]. split; simpl; [| |done|done|done].
  - by rewrite app_assoc, Hp.
  - unfold pushIds in *. rewrite map_app, Hi, length_app. simpl.
    by rewrite Nat.add_1_r, seq_S.
Qed.

Lemma Invariant_flushLogs s : Invariant s -> Invariant (flushLogs s).
Proof.
  intros [Hp Hi Hd Hw Hf]. unfold flushLogs.
  destruct (logBuffer s) as [|p buffer] eqn:Hbuffer; [by split; rewrite ?Hbuffer|].
  split; simpl; [| done | | done |].
  - by rewrite concat_app, app_nil_r, <- Hp; simpl; rewrite app_nil_r.
  - apply Forall2_app; [done|]. by constructor.
  - intros q Hq. destruct (Hf q Hq) as (i & snapshot & pending & Hs & Hdr & Hin & Hout).
    exists i, snapshot, pending. split_and!; try done.
    + by apply lookup_app_l_Some.
    + by apply lookup_app_l_Some.
Qed.

Lemma Invariant_processLog s now l msg d src rid uid :
  Invariant s -> Invariant (processLog s now l msg d src rid uid).
Proof.
  intros Hinv. unfold processLog.
  destruct (shouldLog s l); [|done].
  destruct (_ && _); [|by apply Invariant_logToConsole].
  destruct (_ <=? _).
  - by apply Invariant_flushLogs, Invariant_pushEntry, Invariant_logToConsole.
  - by apply Invariant_pushEntry, Invariant_logToConsole.
Qed.

(** One push number cannot sit in two of the lists of a concatenation
    without duplicates. *)
Lemma NoDup_concat_index (ls : list (list Pushed)) i j a b id :
  NoDup (pushIds (concat ls)) ->
  ls !! i = Some a -> ls !! j = Some b ->
  id ∈ pushIds a -> id ∈ pushIds b -> i = j.
Proof.
  assert (forall (ls : list (list Pushed)) k c,
            ls !! k = Some c -> id ∈ pushIds c -> id ∈ pushIds (concat ls)) as Hmember.
  { clear. intros ls. induction ls as [|l ls IH]; intros [|k] c Hk Hid;
      simpl in *; try done; unfold pushIds; rewrite map_app, elem_of_app.
    - injection Hk as ->. by left.
    - right. by eapply IH. }
  revert i j. induction ls as [|l ls IH]; intros i j Hnd Hi Hj Ha Hb; [done|].
  simpl in Hnd. unfold pushIds in Hnd. rewrite map_app in Hnd.
  apply NoDup_app in Hnd as (_ & Hdisjoint & Hnd).
  destruct i as [|i], j as [|j]; simpl in Hi, Hj.
  - done.
  - injection Hi as ->. exfalso. apply (Hdisjoint id Ha). by eapply Hmember.
  - injection Hj as ->. exfalso. apply (Hdisjoint id Hb). by eapply Hmember.
  - f_equal. by eapply IH.
Qed.

Lemma NoDup_concat_member (ls : list (list Pushed)) i a :
  NoDup (pushIds (concat ls)) -> ls !! i = Some a -> NoDup (pushIds a).
Proof.
  revert i. induction ls as [|l ls IH]; intros i Hnd Hi; [done|].
  simpl in Hnd. unfold pushIds in Hnd. rewrite map_app in Hnd.
  apply NoDup_app in Hnd as (Hl & _ & Hls).
  destruct i as [|i]; simpl in Hi.
  - by injection Hi as <-.
  - by eapply IH.
Qed.

Lemma Invariant_snapshots_NoDup s :
  Invariant s -> NoDup (pushIds (concat (snapshots s))).
Proof.
  intros [Hp Hi _ _ _].
  assert (NoDup (pushIds (pushes s))) as Hnodup by (rewrite Hi; apply NoDup_seq).
  rewrite <- Hp in Hnodup. unfold pushIds in *. rewrite map_app in Hnodup.
  by apply NoDup_app in Hnodup as (? & _ & _).
Qed.

Lemma Invariant_resumeDrain s i ok : Invariant s -> Invariant (resumeDrain s i ok).
Proof.
  intros Hinv.
  pose proof (Invariant_snapshots_NoDup s Hinv) as Hsnapshots.
  destruct Hinv as [Hp Hi Hd Hw Hf]. unfold resumeDrain.
  destruct (drains s !! i) as [[|p rest]|] eqn:Hdrain; try done.
  destruct (Forall2_lookup_l _ _ _ _ _ Hd Hdrain) as (snapshot & Hsnapshot & Hsuffix).
  assert (NoDup (pushIds (p :: rest))) as Hpending.
  { pose proof (NoDup_concat_member _ _ _ Hsnapshots Hsnapshot) as Hnd.
    destruct Hsuffix as [done ->]. unfold pushIds in *.
    rewrite map_app in Hnd. by apply NoDup_app in Hnd as (_ & _ & ?). }
  assert (p ∈ snapshot) as Hin.
  { destruct Hsuffix as [done ->]. apply elem_of_app. right. by left. }
  assert (fst p ∉ pushIds rest) as Hout.
  { simpl in Hpending. by apply NoDup_cons in Hpending as [? _]. }
  assert (i < length (drains s))%nat as Hbound by (by eapply lookup_lt_Some).
  assert (forall q, q ∈ written s ->
            exists j snapshot' pending,
              snapshots s !! j = Some snapshot' /\
              <[i := rest]> (drains s) !! j = Some pending /\
              q ∈ snapshot' /\ fst q ∉ pushIds pending) as Hold.
  { intros q Hq.
    destruct (Hf q Hq) as (j & snapshot' & pending & Hs & Hdr & Hq' & Hqout).
    destruct (decide (i = j)) as [<-|Hne].
    - rewrite Hdrain in Hdr. injection Hdr as <-.
      exists i, snapshot', rest. split_and!; try done.
      + by rewrite list_lookup_insert_eq.
      + intros Hrest. apply Hqout. simpl. by right.
    - exists j, snapshot', pending. split_and!; try done.
      by rewrite list_lookup_insert_ne. }
  split; simpl; [done | done | | | ].
  - apply Forall2_lookup. intros j.
    destruct (decide (i = j)) as [<-|Hne].
    + rewrite list_lookup_insert_eq by done. rewrite Hsnapshot.
      constructor. etrans; [|exact Hsuffix]. by apply suffix_cons_r.
    + rewrite list_lookup_insert_ne by done.
      by apply Forall2_lookup.
  - destruct ok; [|done].
    unfold pushIds. rewrite map_app. apply NoDup_app. split_and!; [done| |].
    + intros id Hid Hp'. simpl in Hp'. apply list_elem_of_singleton in Hp'. subst id.
      apply list_elem_of_fmap in Hid as (q & Hq & Hqin).
      destruct (Hf q Hqin) as (j & snapshot' & pending & Hs & Hdr & Hq' & Hqout).
      assert (j = i) as ->.
      { apply (NoDup_concat_index (snapshots s) j i snapshot' snapshot (fst p));
          try done.
        - rewrite Hq. apply list_elem_of_fmap. by exists q.
        - apply list_elem_of_fmap. by exists p. }
      rewrite Hdrain in Hdr. injection Hdr as <-.
      apply Hqout. rewrite <- Hq. simpl. by left.
    + simpl. apply NoDup_singleton.
  - destruct ok; [|exact Hold].
    intros q Hq. apply elem_of_app in Hq as [Hq|Hq]; [by apply Hold|].
    apply list_elem_of_singleton in Hq. subst q.
    exists i, snapshot, rest. split_and!; try done.
    by rewrite list_lookup_insert_eq.
Qed.

Lemma Invariant_step s a : Invariant s -> Invariant (step s a).
Proof.
  destruct a; simpl;
    auto using Invariant_processLog, Invariant_flushLogs, Invariant_resumeDrain.
Qed.

Lemma Invariant_run s actions : Invariant s -> Invariant (run s actions).
Proof.
  unfold run. revert s.
  induction actions as [|a actions IH]; intros s Hinv; simpl; [done|].
  by apply IH, Invariant_step.
Qed.

Lemma flushLogs_fields s :
  logBuffer (flushLogs s) = [] /\
  written (flushLogs s) = written s /\
  pushes (flushLogs s) = pushes s /\
  (logBuffer s <> [] ->
   snapshots (flushLogs s) = snapshots s ++ [logBuffer s] /\
   drains (flushLogs s) = drains s ++ [logBuffer s]) /\
  (logBuffer s = [] -> flushLogs s = s).
Proof. unfold flushLogs. by destruct (logBuffer s) eqn:Hbuffer. Qed.

(** A turn of the event loop never touches a snapshot already taken. *)
Lemma snapshots_step s a : snapshots s `prefix_of` snapshots (step s a).
Proof.
  assert (forall s0, snapshots s0 `prefix_of` snapshots (flushLogs s0)) as Hflush.
  { intros s0. unfold flushLogs. destruct (logBuffer s0); simpl; [done|].
    by apply prefix_app_r. }
  destruct a as [now l msg d src rid uid| |i ok]; simpl.
  - unfold processLog. destruct (shouldLog s l); [|done].
    destruct (logToConsole_fields s (createLogEntry s now l msg d src rid uid))
      as (_ & _ & _ & _ & _ & _ & _ & Hsn).
    destruct (_ && _); [|by rewrite Hsn].
    destruct (_ <=? _).
    + etrans; [|apply Hflush]. simpl. by rewrite Hsn.
    + simpl. by rewrite Hsn.
  - apply Hflush.
  - unfold resumeDrain. by destruct (drains s !! i) as [[|p rest]|].
Qed.

(** A push goes to the end of the buffer; below ERROR it starts no drain,
    so the entry stays in the buffer whatever drains are under way. *)
Lemma processLog_buffers s now l msg d src rid uid :
  let s' := processLog s now l msg d src rid uid in
  shouldLog s l = true ->
  isServer s && enableFileLogging (config s) = true ->
  levelValue l < levelValue ERROR ->
  logBuffer s' =
    logBuffer s ++ [(length (pushes s), createLogEntry s now l msg d src rid uid)] /\
  snapshots s' = snapshots s /\ drains s' = drains s /\ written s' = written s.
Proof.
  intros s' Hlevel Hfile Hlow. subst s'. unfold processLog. rewrite Hlevel.
  destruct (logToConsole_fields s (createLogEntry s now l msg d src rid uid))
    as (Hc & Hsv & _ & Hb & Hdr & Hw & Hpu & Hsn).
  rewrite Hsv, Hc, Hfile.
  rewrite (proj2 (Z.leb_gt _ _) Hlow). simpl.
  by rewrite Hb, Hpu, Hsn, Hdr, Hw.
Qed.

(** C7: [flushLogs] takes the whole buffer as its snapshot and leaves the
    buffer empty in one step, before any write; and in every interleaving
    of [processLog] calls, [flushLogs] calls (timer or ERROR/FATAL) and
    resumptions of pending drains, the pushes made so far are exactly the
    snapshots taken so far followed by the buffer: every push is in the
    buffer or in the snapshot of exactly one drain, never in two, and never
    in both a snapshot and the buffer.  What the drains have written to the
    file comes from their snapshots, each push at most once. *)
Theorem flushLogs_snapshot_exclusive cfg server sid actions :
  let s := run (initial cfg server sid) actions in
  (forall s0,
     logBuffer (flushLogs s0) = [] /\
     written (flushLogs s0) = written s0 /\
     (logBuffer s0 <> [] ->
      snapshots (flushLogs s0) = snapshots s0 ++ [logBuffer s0] /\
      drains (flushLogs s0) = drains s0 ++ [logBuffer s0])) /\
  (forall a, snapshots s `prefix_of` snapshots (step s a)) /\
  concat (snapshots s) ++ logBuffer s = pushes s /\
  NoDup (pushIds (pushes s)) /\
  (forall i j a b id,
     snapshots s !! i = Some a -> snapshots s !! j = Some b ->
     id ∈ pushIds a -> id ∈ pushIds b -> i = j) /\
  (forall a id,
     a ∈ snapshots s -> id ∈ pushIds a -> id ∉ pushIds (logBuffer s)) /\
  Forall2 (fun pending snapshot => pending `suffix_of` snapshot)
          (drains s) (snapshots s) /\
  NoDup (pushIds (written s)) /\
  (forall p, p ∈ written s -> p ∈ concat (snapshots s)).
Proof.
  intros s.
  destruct (Invariant_run (initial cfg server sid) actions
              (Invariant_initial cfg server sid))
    as [Hpartition Hids Hpending Hwritten Hfrom].
  fold s in Hpartition, Hids, Hpending, Hwritten, Hfrom.
  assert (NoDup (pushIds (pushes s))) as Hnodup.
  { rewrite Hids. apply NoDup_seq. }
  split_and!.
  - intros s0. destruct (flushLogs_fields s0) as (? & ? & _ & ? & _). by split_and!.
  - apply snapshots_step.
  - done.
  - done.
  - intros i j a b id Hi Hj Ha Hb.
    apply (NoDup_concat_index (snapshots s) i j a b id); try done.
    rewrite <- Hpartition in Hnodup. unfold pushIds in Hnodup.
    rewrite map_app in Hnodup. by apply NoDup_app in Hnodup as (? & _ & _).
  - intros a id Ha Hid Hbuffer.
    rewrite <- Hpartition in Hnodup. unfold pushIds in Hnodup.
    rewrite map_app in Hnodup. apply NoDup_app in Hnodup as (_ & Hdisjoint & _).
    apply (Hdisjoint id); [|done].
    apply list_elem_of_fmap in Hid as (p & -> & Hp).
    apply list_elem_of_fmap. exists p. split; [done|].
    apply list_elem_of_In, in_concat. exists a.
    split; by apply list_elem_of_In.
  - done.
  - done.
  - intros p Hp.
    destruct (Hfrom p Hp) as (i & snapshot & _ & Hsnapshot & _ & Hin & _).
    apply list_elem_of_In, in_concat. exists snapshot.
    split; apply list_elem_of_In; [|done].
    by eapply list_elem_of_lookup_2.
Qed.

(** Two overlapping drains: the first takes [a; b], the entry pushed while
    it is writing goes to the second one, and the file gets each once. *)
Example overlapping_drains_run :
  let s := run (initial Samples.serverConfig true "s1") Samples.overlappingDrains in
  map pushIds (snapshots s) = [[0; 1]; [2]]%nat /\
  pushIds (logBuffer s) = [] /\
  pushIds (written s) = [0; 2; 1]%nat /\
  map pushIds (drains s) = [[]; []].
Proof. by split_and!. Qed.

Lemma flushLogs_snapshot_exclusive_witness :
  let s := run (initial Samples.serverConfig true "s1") Samples.overlappingDrains in
  concat (snapshots s) ++ logBuffer s = pushes s /\
  NoDup (pushIds (pushes s)) /\
  (forall id, id ∈ [0; 1]%nat -> id ∉ [2]%nat).
Proof.
  intros s.
  destruct (flushLogs_snapshot_exclusive Samples.serverConfig true "s1"
              Samples.overlappingDrains)
    as (_ & _ & Hpartition & Hnodup & Hexclusive & _).
  split_and!; [exact Hpartition | exact Hnodup |].
  intros id H01 H2.
  assert (0 = 1)%nat as Hindex; [|discriminate].
  apply (Hexclusive 0 1 (default [] (snapshots s !! 0)) (default [] (snapshots s !! 1)) id)%nat;
    [reflexivity | reflexivity | exact H01 | exact H2].
Defined.

End LoggerFacts.

(** ** [sanitizeData] leaves its argument alone *)

Module HeapFacts.
Import Heap.

Lemma extends_refl h : extends h h.
Proof.
  split; [done|]. intros l o l' Hl Hlookup. exfalso.
  apply Hl. apply elem_of_dom. by eexists.
Qed.

Lemma extends_dom h h' : extends h h' -> dom h ⊆ dom h'.
Proof. intros [Hsub _]. by apply subseteq_dom. Qed.

Lemma extends_trans h1 h2 h3 : extends h1 h2 -> extends h2 h3 -> extends h1 h3.
Proof.
  intros [Hsub12 Hnew12] [Hsub23 Hnew23]. split; [by etrans|].
  intros l o l' Hl Hlookup Hl'.
  destruct (h2 !! l) as [o2|] eqn:Hl2.
  - pose proof (lookup_weaken _ _ _ _ Hl2 Hsub23) as Hl3.
    rewrite Hlookup in Hl3. injection Hl3 as ->. by eapply Hnew12.
  - assert (l' ∉ dom h2) as Hfresh.
    { eapply Hnew23; [|done|done]. by apply not_elem_of_dom. }
    intros Hin. apply Hfresh. by apply (subseteq_dom _ _ Hsub12).
Qed.

Lemma alloc_fresh o h : fst (alloc o h) ∉ dom h.
Proof. unfold alloc. simpl. apply is_fresh. Qed.

(** Allocating an object that holds no reference into [h]. *)
Lemma extends_alloc h hacc o :
  extends h hacc ->
  (forall l', l' ∈ refsOf o -> l' ∉ dom h) ->
  extends h (snd (alloc o hacc)) /\ fst (alloc o hacc) ∉ dom h.
Proof.
  intros Hext Hrefs.
  pose proof (alloc_fresh o hacc) as Hfresh.
  pose proof (extends_dom _ _ Hext) as Hdom.
  destruct Hext as [Hsub Hnew]. unfold alloc in *. simpl in *.
  split; [split|].
  - etrans; [exact Hsub|]. apply insert_subseteq. by apply not_elem_of_dom.
  - intros l o' l' Hl Hlookup Hl'.
    destruct (decide (l = fresh (dom hacc))) as [->|Hne].
    + rewrite lookup_insert_eq in Hlookup. injection Hlookup as <-. by apply Hrefs.
    + rewrite lookup_insert_ne in Hlookup by done. by eapply Hnew.
  - set_solver.
Qed.

Lemma refsOf_assign key v props l' :
  l' ∈ refsOf (Rec (assign key v props)) ->
  l' ∈ refsOf (Rec props) \/ v = VRef l'.
Proof.
  unfold refsOf. induction props as [|[k v0] props IH]; simpl.
  - destruct v; simpl; try (intros Hin; by inversion Hin).
    intros Hin. apply list_elem_of_singleton in Hin. subst. by right.
  - destruct (decide (k = key)) as [->|Hne]; simpl.
    + destruct v; simpl; destruct v0; simpl; try (rewrite ?elem_of_cons; tauto);
        rewrite ?elem_of_cons; intros [->|?]; auto.
    + destruct v0; simpl; auto.
      rewrite !elem_of_cons. intros [->|Hin]; [by left; left|].
      destruct (IH Hin); auto.
Qed.

(** Writing, into an object outside [h], a value that is not a reference
    into [h]. *)
Lemma extends_setProp h hacc r key v :
  extends h hacc -> r ∉ dom h -> freshFor h v ->
  extends h (setProp r key v hacc).
Proof.
  intros [Hsub Hnew] Hr Hv. unfold setProp.
  destruct (hacc !! r) as [[items|props]|] eqn:Hlookup; try done.
  split.
  - apply insert_subseteq_r; [by apply not_elem_of_dom | done].
  - intros l o l' Hl Hl2 Hl'.
    destruct (decide (l = r)) as [->|Hne].
    + rewrite lookup_insert_eq in Hl2. injection Hl2 as <-.
      apply refsOf_assign in Hl' as [Hl' | ->].
      * by eapply Hnew.
      * by apply Hv.
    + rewrite lookup_insert_ne in Hl2 by done. by eapply Hnew.
Qed.

Lemma freshFor_weaken h h' v : extends h h' -> freshFor h' v -> freshFor h v.
Proof.
  intros Hext Hv l Hl Hin. apply (Hv l Hl). by apply (extends_dom _ _ Hext).
Qed.

Lemma mapItems_extends f items h hacc :
  allocatesOnly f -> extends h hacc ->
  extends h (snd (mapItems f items hacc)) /\
  (forall l, VRef l ∈ fst (mapItems f items hacc) -> l ∉ dom h).
Proof.
  intros Hf. revert hacc.
  induction items as [|item items IH]; intros hacc Hext; simpl.
  - split; [done|]. intros l Hin. inversion Hin.
  - destruct (Hf item hacc) as [Hext1 Hfresh1].
    destruct (f item hacc) as [item' h1]. simpl in *.
    assert (extends h h1) as Hext' by (by eapply extends_trans).
    destruct (IH h1 Hext') as [Hext2 Hfresh2].
    destruct (mapItems f items h1) as [items' h2]. simpl in *.
    split; [done|].
    intros l Hin. apply elem_of_cons in Hin as [Heq|Hin]; [|by apply Hfresh2].
    apply (freshFor_weaken h hacc item' Hext Hfresh1 l). by symmetry.
Qed.

Lemma fillProps_extends f r entries h hacc :
  allocatesOnly f -> r ∉ dom h -> extends h hacc ->
  extends h (fillProps f r entries hacc).
Proof.
  intros Hf Hr. revert hacc.
  induction entries as [|[key value] entries IH]; intros hacc Hext; simpl; [done|].
  apply IH.
  destruct (ApiLogger.isSensitive key).
  - apply extends_setProp; [done | done | by intros l].
  - destruct (isObjectValue value) eqn:Hobj.
    + destruct (Hf value hacc) as [Hext1 Hfresh1].
      destruct (f value hacc) as [value' h1]. simpl in *.
      apply extends_setProp; [by eapply extends_trans | done |].
      by eapply freshFor_weaken.
    + apply extends_setProp; [done | done |].
      intros l ->. done.
Qed.

Lemma refsOf_Arr items l : l ∈ refsOf (Arr items) <-> VRef l ∈ items.
Proof.
  unfold refsOf. rewrite list_elem_of_omap. split.
  - intros (v & Hin & Hv). destruct v; try done. by injection Hv as ->.
  - intros Hin. by exists (VRef l).
Qed.

(** At every depth, [sanitizeRecursive] only allocates, and what it
    returns is a primitive or a new object. *)
Lemma sanitizeRecursive_allocatesOnly levels :
  allocatesOnly (sanitizeRecursive levels).
Proof.
  induction levels as [|levels IH]; intros obj h; simpl.
  { split; [apply extends_refl | by intros l]. }
  destruct obj as [| |b|n|s|l0]; try (split; [apply extends_refl | by intros l]).
  destruct (h !! l0) as [[items|props]|] eqn:Hlookup.
  - destruct (mapItems_extends _ items h h IH (extends_refl h)) as [Hext Hitems].
    destruct (mapItems (sanitizeRecursive levels) items h) as [items' h1].
    simpl in *.
    destruct (extends_alloc h h1 (Arr items') Hext) as [Hext2 Hfresh].
    { intros l' Hl'. apply Hitems. by apply refsOf_Arr. }
    unfold alloc in *. simpl in *. split; [done|].
    by intros l [= <-].
  - destruct (extends_alloc h h (Rec []) (extends_refl h)) as [Hext Hfresh].
    { intros l' Hl'. inversion Hl'. }
    unfold alloc in *. simpl in *. split.
    + by apply fillProps_extends.
    + by intros l [= <-].
  - split; [apply extends_refl|].
    intros l [= <-]. by apply not_elem_of_dom.
Qed.

(** From a value that is not a reference into [h], through objects that
    do not refer into [h], nothing in [h] is reached. *)
Lemma reach_outside h h' v l :
  extends h h' -> freshFor h v -> reach h' v l -> l ∉ dom h.
Proof.
  intros [_ Hnew] Hv Hreach.
  induction Hreach as [l|l o l' l'' Hlookup Hl' _ IH]; [by apply Hv|].
  apply IH. intros l0 [= <-].
  eapply Hnew; [|done|done]. by apply Hv.
Qed.

(** C10: [sanitizeData] does not write to anything it was given.  Every
    object of the heap it ran on, the argument and all that is nested in
    it included, is afterwards what it was before, and the structure
    it returns for an array or an object is made of new objects only. *)
Theorem sanitizeData_leaves_payload data h :
  let out := fst (sanitizeData data h) in
  let h' := snd (sanitizeData data h) in
  (forall l o, h !! l = Some o -> h' !! l = Some o) /\
  (forall l, reach h' out l -> l ∉ dom h) /\
  (isObjectValue data = false -> out = data /\ h' = h).
Proof.
  simpl. unfold sanitizeData.
  destruct data as [| |b|n|s|l0];
    try (split_and!; [done | intros l Hreach; inversion Hreach | done]).
  destruct (h !! l0) as [o|] eqn:Hlookup.
  - pose proof (alloc_fresh o h) as Hcopy.
    unfold alloc in *. simpl in Hcopy.
    set (h1 := <[fresh (dom h) := o]> h) in *.
    assert (h ⊆ h1) as Hsub1.
    { apply insert_subseteq. by apply not_elem_of_dom. }
    destruct (sanitizeRecursive_allocatesOnly 6 (VRef (fresh (dom h))) h1)
      as [Hext Hfresh].
    destruct (sanitizeRecursive 6 (VRef (fresh (dom h))) h1) as [out h'].
    simpl in *. split_and!; [| |done].
    + intros l o' Hl. destruct Hext as [Hsub _].
      eapply lookup_weaken; [|exact Hsub]. by eapply lookup_weaken.
    + intros l Hreach Hin.
      apply (reach_outside h1 h' out l Hext Hfresh Hreach).
      by apply (subseteq_dom _ _ Hsub1).
  - simpl. split_and!; [done | | done].
    intros l Hreach. inversion Hreach as [|? o ? ? Hl]; subst.
    + by apply not_elem_of_dom.
    + congruence.
Qed.

Lemma sanitizeData_leaves_payload_witness :
  let out := fst (sanitizeData (VRef 1%positive) loginHeap) in
  let h' := snd (sanitizeData (VRef 1%positive) loginHeap) in
  h' !! 2%positive = Some (Rec [("password", VStr "hunter2")]) /\
  h' !! 1%positive
  = Some (Rec [("user", VStr "ann"); ("credentials", VRef 2%positive)]) /\
  out <> VRef 1%positive.
Proof.
  intros out h'.
  destruct (sanitizeData_leaves_payload (VRef 1%positive) loginHeap)
    as (Hframe & Hfresh & _).
  fold out in Hfresh. fold h' in Hframe, Hfresh.
  split_and!.
  - apply Hframe. reflexivity.
  - apply Hframe. reflexivity.
  - intros Hout. apply (Hfresh 1%positive).
    + rewrite Hout. constructor.
    + apply elem_of_dom. eexists. reflexivity.
Defined.

(** The run behind the witness: the copy at 3, the result at 4 with its
    nested object at 5, the password redacted there and intact at 2. *)
Example sanitizeData_loginHeap :
  sanitizeData (VRef 1%positive) loginHeap =
  (VRef 4%positive,
   <[5%positive := Rec [("password", VStr ApiLogger.redactedMarker)]]>
     (<[4%positive := Rec [("user", VStr "ann"); ("credentials", VRef 5%positive)]]>
        (<[3%positive := Rec [("user", VStr "ann"); ("credentials", VRef 2%positive)]]>
           loginHeap))).
Proof. by vm_compute. Qed.

(** On a cyclic payload the walk stops at the depth bound. *)
Example sanitizeData_cyclicHeap :
  let out := fst (sanitizeData (VRef 1%positive) cyclicHeap) in
  let h' := snd (sanitizeData (VRef 1%positive) cyclicHeap) in
  out = VRef 3%positive /\
  h' !! 8%positive = Some (Rec [("self", VStr ApiLogger.tooDeepMarker); ("n", VNum 1)]) /\
  h' !! 1%positive = Some (Rec [("self", VRef 1%positive); ("n", VNum 1)]).
Proof. by vm_compute. Qed.

End HeapFacts.

(** ** The heap model and the tree model agree *)

Module HeapTreeFacts.
Import Heap HeapFacts.

(** Reachability only looks at the objects it goes through. *)
Lemma reach_agree ha hb v l :
  (forall x, reach ha v x -> hb !! x = ha !! x) ->
  reach hb v l -> reach ha v l.
Proof.
  intros Hagree Hreach.
  induction Hreach as [l|l o l' l'' Hlookup Hl' _ IH]; [constructor|].
  assert (ha !! l = Some o) as Hlookup'.
  { rewrite <- Hagree; [done | constructor]. }
  eapply reach_inside; [done | done |].
  apply IH. intros x Hx. apply Hagree. by eapply reach_inside.
Qed.

Lemma reify_agree n ha hb v :
  (forall x, reach ha v x -> hb !! x = ha !! x) ->
  reify n hb v = reify n ha v.
Proof.
  revert v. induction n as [|n IH]; intros v Hagree; destruct v as [| |b|z|s|l];
    simpl; try done.
  rewrite (Hagree l) by constructor.
  destruct (ha !! l) as [[items|props]|] eqn:Hlookup; [| |done].
  - f_equal. apply map_ext_in. intros item Hin. apply IH.
    intros x Hx. apply Hagree.
    destruct item as [| | | | |l']; try (by inversion Hx).
    eapply reach_inside; [done | | done].
    apply refsOf_Arr. by apply list_elem_of_In.
  - f_equal. apply map_ext_in. intros [key value] Hin. f_equal. apply IH.
    intros x Hx. apply Hagree.
    destruct value as [| | | | |l']; try (by inversion Hx).
    eapply reach_inside; [done | | done].
    unfold refsOf. apply list_elem_of_omap. exists (VRef l'). split; [|done].
    apply list_elem_of_fmap. exists (key, VRef l'). split; [done|].
    by apply list_elem_of_In.
Qed.

Lemma goodInput_agree h h' v x :
  h ⊆ h' -> goodInput h v -> reach h v x -> h' !! x = h !! x.
Proof.
  intros Hsub Hgood Hx. destruct (Hgood x Hx) as (o & Hlookup & _).
  rewrite Hlookup. by eapply lookup_weaken.
Qed.

Lemma goodInput_weaken h h' v : h ⊆ h' -> goodInput h v -> goodInput h' v.
Proof.
  intros Hsub Hgood l Hl.
  assert (reach h v l) as Hl'.
  { eapply reach_agree; [|done]. intros x Hx. by eapply goodInput_agree. }
  destruct (Hgood l Hl') as (o & Hlookup & Hkeys).
  exists o. split; [by eapply lookup_weaken | done].
Qed.

Lemma reify_weaken n h h' v :
  h ⊆ h' -> goodInput h v -> reify n h' v = reify n h v.
Proof.
  intros Hsub Hgood. apply reify_agree. intros x Hx. by eapply goodInput_agree.
Qed.

Lemma goodInput_item h l items item :
  goodInput h (VRef l) -> h !! l = Some (Arr items) -> item ∈ items ->
  goodInput h item.
Proof.
  intros Hgood Hlookup Hin x Hx. apply Hgood.
  destruct item as [| | | | |l']; try (by inversion Hx).
  eapply reach_inside; [done | | done]. by apply refsOf_Arr.
Qed.

Lemma goodInput_prop h l props key value :
  goodInput h (VRef l) -> h !! l = Some (Rec props) -> (key, value) ∈ props ->
  goodInput h value.
Proof.
  intros Hgood Hlookup Hin x Hx. apply Hgood.
  destruct value as [| | | | |l']; try (by inversion Hx).
  eapply reach_inside; [done | | done].
  unfold refsOf. apply list_elem_of_omap. exists (VRef l'). split; [|done].
  apply list_elem_of_fmap. by exists (key, VRef l').
Qed.

(** A closed value keeps its meaning when the heap grows. *)
Lemma closedOut_weaken h h' v :
  h ⊆ h' -> closedOut h v ->
  closedOut h' v /\ (forall n, reify n h' v = reify n h v) /\
  (forall l, reach h' v l -> reach h v l).
Proof.
  intros Hsub Hclosed.
  assert (forall x, reach h v x -> h' !! x = h !! x) as Hagree.
  { intros x Hx. apply Hclosed in Hx. apply elem_of_dom in Hx as [o Hlookup].
    rewrite Hlookup. by eapply lookup_weaken. }
  split_and!.
  - intros l Hl. apply (subseteq_dom _ _ Hsub). apply Hclosed.
    by eapply reach_agree.
  - intros n. by apply reify_agree.
  - intros l. by apply reach_agree.
Qed.

Lemma mapItems_refines k f items hacc :
  allocatesOnly f -> refines k f ->
  (forall x, x ∈ items -> goodInput hacc x) ->
  extends hacc (snd (mapItems f items hacc)) /\
  Forall (fun x' => freshFor hacc x' /\ closedOut (snd (mapItems f items hacc)) x')
         (fst (mapItems f items hacc)) /\
  forall m n, (k <= m)%nat -> (k <= n)%nat ->
    map (reify n (snd (mapItems f items hacc))) (fst (mapItems f items hacc))
    = map (fun x => ApiLogger.sanitizeRecursive (reify m hacc x) (6 - k)) items.
Proof.
  intros Hf Hr. revert hacc.
  induction items as [|item items IH]; intros hacc Hgood; simpl.
  { split_and!; [apply extends_refl | constructor | done]. }
  destruct (Hf item hacc) as [Hext1 Hfresh1].
  destruct (Hr item hacc) as [Hclosed1 Hreify1]; [apply Hgood; by left|].
  destruct (f item hacc) as [item' ha]. simpl in *.
  pose proof (proj1 Hext1) as Hsub1.
  destruct (IH ha) as (Hext2 & Hall & Hmap).
  { intros x Hx. eapply goodInput_weaken; [done|]. apply Hgood. by right. }
  destruct (mapItems f items ha) as [items' h1]. simpl in *.
  pose proof (proj1 Hext2) as Hsub2.
  destruct (closedOut_weaken ha h1 item' Hsub2 Hclosed1) as (Hclosed1' & Hsame & _).
  split_and!.
  - by eapply extends_trans.
  - constructor; [done|].
    eapply Forall_impl; [exact Hall|]. intros x' [Hx' Hcx']. split; [|done].
    by eapply freshFor_weaken.
  - intros m n Hm Hn. f_equal.
    + rewrite Hsame. by apply Hreify1.
    + rewrite (Hmap m n Hm Hn). apply map_ext_in. intros x Hx.
      rewrite (reify_weaken m hacc ha x Hsub1); [done|].
      apply Hgood. right. by apply list_elem_of_In.
Qed.

Lemma assign_new key v (props : list (string * Val)) :
  key ∉ map fst props -> assign key v props = props ++ [(key, v)].
Proof.
  induction props as [|[k v0] props IH]; intros Hnew; simpl; [done|].
  simpl in Hnew. apply not_elem_of_cons in Hnew as [Hne Hnew].
  rewrite decide_False by done. f_equal. by apply IH.
Qed.

(** Writing to [r] does not disturb a closed value that does not reach
    [r]. *)
Lemma closedOut_setProp h r key v x :
  closedOut h x -> ~ reach h x r ->
  closedOut (setProp r key v h) x /\
  ~ reach (setProp r key v h) x r /\
  forall n, reify n (setProp r key v h) x = reify n h x.
Proof.
  intros Hclosed Hr.
  assert (forall y, reach h x y -> setProp r key v h !! y = h !! y) as Hagree.
  { intros y Hy. unfold setProp.
    destruct (h !! r) as [[items|props]|]; try done.
    rewrite lookup_insert_ne; [done|]. intros ->. by apply Hr. }
  assert (forall y, reach (setProp r key v h) x y -> reach h x y) as Hback.
  { intros y. by apply reach_agree. }
  split_and!.
  - intros y Hy. apply Hback, Hclosed in Hy.
    unfold setProp. destruct (h !! r) as [[items|props]|] eqn:Hlookup; try done.
    apply elem_of_dom. apply elem_of_dom in Hy as [o Ho].
    destruct (decide (r = y)) as [->|Hne].
    + rewrite lookup_insert_eq. by eexists.
    + rewrite lookup_insert_ne by done. by eexists.
  - intros Hreach. by apply Hr, Hback.
  - intros n. by apply reify_agree.
Qed.

Lemma reify_plain v n m h h' :
  isObjectValue v = false -> reify n h v = reify m h' v.
Proof. by destruct v, n, m. Qed.

Lemma isObjectValue_reify n h v :
  ApiLogger.isObjectValue (reify n h v) = isObjectValue v.
Proof.
  unfold ApiLogger.isObjectValue.
  destruct n, v as [| |b|z|s|l0]; simpl; rewrite ?andb_false_r; try done.
  by destruct (h !! l0) as [[items|props]|].
Qed.

Lemma closedOut_plain h v : isObjectValue v = false -> closedOut h v.
Proof. intros Hv l Hl. destruct v; by inversion Hl. Qed.

Lemma reach_plain h v l : isObjectValue v = false -> ~ reach h v l.
Proof. intros Hv Hl. destruct v; by inversion Hl. Qed.

(** One iteration of the loop of [fillProps]: the value stored under
    [key], and the heap it is stored in. *)
Lemma fillProps_step k f r h hacc key value acc :
  allocatesOnly f -> refines k f ->
  h ⊆ hacc -> hacc !! r = Some (Rec acc) -> goodInput h value ->
  exists value' hx,
    (if ApiLogger.isSensitive key
     then setProp r key (VStr ApiLogger.redactedMarker) hacc
     else if isObjectValue value
          then let '(value', h') := f value hacc in setProp r key value' h'
          else setProp r key value hacc)
    = setProp r key value' hx /\
    hacc ⊆ hx /\
    closedOut hx value' /\ ~ reach hx value' r /\
    forall m n, (k <= m)%nat -> (k <= n)%nat ->
      (key, reify n hx value') = treeEntry k m h (key, value).
Proof.
  intros Hf Hr Hsub Hlookup Hgood. unfold treeEntry.
  destruct (ApiLogger.isSensitive key).
  { exists (VStr ApiLogger.redactedMarker), hacc.
    split_and!; [done | done | by apply closedOut_plain | by apply reach_plain |].
    by intros [|m] [|n]. }
  destruct (isObjectValue value) eqn:Hobj.
  - pose proof (goodInput_weaken h hacc value Hsub Hgood) as Hgood'.
    destruct (Hf value hacc) as [Hext Hfresh].
    destruct (Hr value hacc Hgood') as [Hclosed Hreify].
    destruct (f value hacc) as [value' ha]. simpl in *.
    exists value', ha. split_and!; [done | by destruct Hext | done | |].
    + intros Hreach. apply (reach_outside hacc ha value' r Hext Hfresh Hreach).
      apply elem_of_dom. by eexists.
    + intros m n Hm Hn. f_equal. rewrite (Hreify m n Hm Hn).
      by rewrite (reify_weaken m h hacc value Hsub Hgood).
  - exists value, hacc.
    split_and!; [done | done | by apply closedOut_plain | by apply reach_plain |].
    intros m n _ _. f_equal. by apply reify_plain.
Qed.

(** The loop of [fillProps] appends to the object at [r] the entries that
    the tree model computes, and does not disturb those it has stored. *)
Lemma fillProps_refines k f r h entries :
  allocatesOnly f -> refines k f -> r ∉ dom h ->
  forall hacc acc,
    h ⊆ hacc ->
    hacc !! r = Some (Rec acc) ->
    NoDup (map fst acc ++ map fst entries) ->
    (forall key value, (key, value) ∈ entries -> goodInput h value) ->
    Forall (fun e => closedOut hacc (snd e) /\ ~ reach hacc (snd e) r) acc ->
    exists acc',
      fillProps f r entries hacc !! r = Some (Rec (acc ++ acc')) /\
      Forall (fun e => closedOut (fillProps f r entries hacc) (snd e) /\
                       ~ reach (fillProps f r entries hacc) (snd e) r)
             (acc ++ acc') /\
      (forall e n, e ∈ acc ->
         reify n (fillProps f r entries hacc) (snd e) = reify n hacc (snd e)) /\
      forall m n, (k <= m)%nat -> (k <= n)%nat ->
        map (fun '(key, x) => (key, reify n (fillProps f r entries hacc) x)) acc'
        = map (treeEntry k m h) entries.
Proof.
  intros Hf Hr Hfresh.
  induction entries as [|[key value] entries IH];
    intros hacc acc Hsub Hlookup Hkeys Hgood Hstable.
  { exists []. simpl. rewrite app_nil_r. by split_and!. }
  simpl fillProps.
  destruct (fillProps_step k f r h hacc key value acc Hf Hr Hsub Hlookup)
    as (value' & hx & -> & Hsubx & Hclosed & Hnoreach & Hentry).
  { apply (Hgood key value). by left. }
  assert ((key ∉ map fst acc) /\
          NoDup (map fst (acc ++ [(key, value')]) ++ map fst entries)) as [Hnew Hkeys'].
  { simpl in Hkeys. rewrite map_app. simpl. rewrite <- app_assoc. simpl.
    split; [|done].
    apply NoDup_app in Hkeys as (_ & Hdisjoint & _).
    intros Hin. apply (Hdisjoint key Hin). by left. }
  assert (hx !! r = Some (Rec acc)) as Hlookupx by (by eapply lookup_weaken).
  set (h1 := setProp r key value' hx).
  assert (h1 = <[r := Rec (acc ++ [(key, value')])]> hx) as Hh1.
  { unfold h1, setProp. rewrite Hlookupx. by rewrite assign_new. }
  assert (Forall (fun e => closedOut h1 (snd e) /\ ~ reach h1 (snd e) r /\
                           forall n, reify n h1 (snd e) = reify n hacc (snd e)) acc)
    as Hstable1.
  { eapply Forall_impl; [exact Hstable|]. intros e [Hce Hre].
    destruct (closedOut_weaken hacc hx (snd e) Hsubx Hce) as (Hce' & Hsame & Hback).
    destruct (closedOut_setProp hx r key value' (snd e) Hce') as (? & ? & Hsame').
    { intros Hreach. by apply Hre, Hback. }
    split_and!; [done | done |]. intros n. by rewrite Hsame', Hsame. }
  destruct (closedOut_setProp hx r key value' value' Hclosed Hnoreach)
    as (Hclosed1 & Hnoreach1 & Hsame1).
  fold h1 in Hclosed1, Hnoreach1, Hsame1.
  destruct (IH h1 (acc ++ [(key, value')])) as (acc' & Hr' & Hall' & Hold' & Hmap').
  - rewrite Hh1. apply insert_subseteq_r; [by apply not_elem_of_dom|].
    by etrans.
  - rewrite Hh1. apply lookup_insert_eq.
  - done.
  - intros key0 value0 Hin. apply (Hgood key0 value0). by right.
  - apply Forall_app. split.
    + eapply Forall_impl; [exact Hstable1|]. by intros e (? & ? & _).
    + by repeat constructor.
  - exists ((key, value') :: acc').
    rewrite <- app_assoc in Hr', Hall'. simpl in Hr', Hall'.
    split_and!; [done | done | |].
    + intros e n He. rewrite Hold' by (apply elem_of_app; by left).
      rewrite Forall_forall in Hstable1. by destruct (Hstable1 e He) as (_ & _ & ->).
    + intros m n Hm Hn. rewrite !map_cons. f_equal; [|by apply Hmap'].
      rewrite <- (Hentry m n Hm Hn). f_equal.
      pose proof (Hold' (key, value') n) as Hkept. simpl in Hkept.
      rewrite Hkept by (apply elem_of_app; right; by left).
      apply Hsame1.
Qed.

Lemma refsOf_Rec props l :
  l ∈ refsOf (Rec props) <-> exists key, (key, VRef l) ∈ props.
Proof.
  unfold refsOf. rewrite list_elem_of_omap. split.
  - intros (v & Hin & Hv). destruct v; try done. injection Hv as ->.
    apply list_elem_of_fmap in Hin as ([key v] & Hv & Hin). simpl in Hv. subst v.
    by exists key.
  - intros [key Hin]. exists (VRef l). split; [|done].
    apply list_elem_of_fmap. by exists (key, VRef l).
Qed.

(** At every level, the heap model computes what the tree model computes
    on the unfolding of its argument. *)
Lemma sanitizeRecursive_refines k :
  (k <= 6)%nat -> refines k (sanitizeRecursive k).
Proof.
  induction k as [|k IH]; intros Hk v h Hgood.
  { simpl. split; [by apply closedOut_plain|].
    intros m n _ _. rewrite SanitizeFacts.sanitizeRecursive_too_deep by lia.
    by destruct n. }
  specialize (IH ltac:(lia)).
  pose proof (sanitizeRecursive_allocatesOnly k) as Hf.
  assert (forall v', isObjectValue v' = false ->
            closedOut h v' /\
            forall m n, (S k <= m)%nat -> (S k <= n)%nat ->
              reify n h v' = ApiLogger.sanitizeRecursive (reify m h v') (6 - S k))
    as Hplain.
  { intros v' Hv'. split; [by apply closedOut_plain|]. intros m n _ _.
    rewrite SanitizeFacts.sanitizeRecursive_plain;
      [by apply reify_plain | lia | by rewrite isObjectValue_reify]. }
  destruct v as [| |b|z|s|l]; try (by apply Hplain).
  destruct (Hgood l (reach_here h l)) as (o & Hlookup & Hkeys).
  simpl. rewrite Hlookup. destruct o as [items|props].
  - (* an array *)
    destruct (mapItems_refines k (sanitizeRecursive k) items h Hf IH)
      as (Hext & Hall & Hmap).
    { intros x Hx. by eapply goodInput_item. }
    destruct (mapItems (sanitizeRecursive k) items h) as [items' h1].
    simpl in *. unfold alloc. simpl.
    set (r := fresh (dom h1)).
    assert (h1 ⊆ <[r := Arr items']> h1) as Hsub.
    { apply insert_subseteq. apply not_elem_of_dom. apply is_fresh. }
    split.
    + intros x Hx. inversion Hx as [|? o l' ? Ho Hl' Hreach]; subst.
      * apply elem_of_dom. rewrite lookup_insert_eq. by eexists.
      * rewrite lookup_insert_eq in Ho. injection Ho as <-.
        apply refsOf_Arr in Hl'. rewrite Forall_forall in Hall.
        destruct (Hall _ Hl') as [_ Hclosed].
        by apply (proj1 (closedOut_weaken h1 _ _ Hsub Hclosed)).
    + intros [|m] [|n] Hm Hn; try lia. simpl.
      rewrite lookup_insert_eq, Hlookup.
      rewrite SanitizeFacts.sanitizeRecursive_array by lia.
      f_equal. rewrite map_map.
      replace (S (5 - k)) with (6 - k)%nat by lia.
      rewrite <- (Hmap m n) by lia.
      apply map_ext_in. intros x' Hx'. rewrite Forall_forall in Hall.
      destruct (Hall x') as [_ Hclosed]; [by apply list_elem_of_In|].
      by apply (closedOut_weaken h1 _ _ Hsub Hclosed).
  - (* an object *)
    unfold alloc. simpl. set (r := fresh (dom h)).
    assert (r ∉ dom h) as Hfresh by apply is_fresh.
    destruct (fillProps_refines k (sanitizeRecursive k) r h props Hf IH Hfresh
                (<[r := Rec []]> h) [])
      as (acc' & Hr & Hall & _ & Hmap).
    { apply insert_subseteq. by apply not_elem_of_dom. }
    { apply lookup_insert_eq. }
    { simpl. by apply Hkeys. }
    { intros key value Hin. by eapply goodInput_prop. }
    { constructor. }
    simpl in Hr, Hall.
    set (hf := fillProps (sanitizeRecursive k) r props (<[r := Rec []]> h)) in *.
    split.
    + intros x Hx. inversion Hx as [|? o l' ? Ho Hl' Hreach]; subst.
      * apply elem_of_dom. by eexists.
      * rewrite Hr in Ho. injection Ho as <-.
        apply refsOf_Rec in Hl' as [key Hin]. rewrite Forall_forall in Hall.
        destruct (Hall _ Hin) as [Hclosed _]. by apply Hclosed.
    + intros [|m] [|n] Hm Hn; try lia. simpl.
      rewrite Hr, Hlookup.
      rewrite SanitizeFacts.sanitizeRecursive_object by lia.
      f_equal. rewrite map_map, (Hmap m n) by lia.
      apply map_ext. intros [key value]. unfold treeEntry.
      replace (S (5 - k)) with (6 - k)%nat by lia.
      by rewrite isObjectValue_reify.
Qed.

(** The two models of [sanitizeData] agree: what the heap model returns
    stands for the payload that the tree model computes from the payload
    its argument stands for.  (Six levels are all that [sanitizeData] looks
    at.) *)
Theorem sanitizeData_models_agree data h m n :
  goodInput h data -> (6 <= m)%nat -> (6 <= n)%nat ->
  reify n (snd (sanitizeData data h)) (fst (sanitizeData data h))
  = ApiLogger.sanitizeData (reify m h data).
Proof.
  intros Hgood Hm Hn. rewrite SanitizeFacts.sanitizeData_recursive.
  unfold sanitizeData.
  destruct data as [| |b|z|s|l];
    try (destruct m, n; try lia; reflexivity).
  destruct (Hgood l (reach_here h l)) as (o & Hlookup & Hkeys).
  rewrite Hlookup. unfold alloc. cbv beta iota zeta.
  set (c := fresh (dom h)). set (h1 := <[c := o]> h).
  assert (h ⊆ h1) as Hsub.
  { apply insert_subseteq. apply not_elem_of_dom. apply is_fresh. }
  assert (forall l', l' ∈ refsOf o -> goodInput h (VRef l')) as Hchildren.
  { intros l' Hl' x Hx. apply Hgood. by eapply reach_inside. }
  assert (goodInput h1 (VRef c)) as Hgood1.
  { intros x Hx. inversion Hx as [|? o' l' ? Ho Hl' Hreach]; subst.
    - exists o. split; [apply lookup_insert_eq | done].
    - unfold h1 in Ho. rewrite lookup_insert_eq in Ho. injection Ho as <-.
      by apply (goodInput_weaken h h1 (VRef l') Hsub (Hchildren l' Hl')). }
  destruct (sanitizeRecursive_refines 6 ltac:(lia) (VRef c) h1 Hgood1) as [_ Hreify].
  rewrite (Hreify m n Hm Hn). f_equal.
  destruct m as [|m]; [lia|]. cbn [reify].
  unfold h1 at 1. rewrite lookup_insert_eq, Hlookup.
  destruct o as [items|props]; f_equal.
  - apply map_ext_in. intros item Hin. apply reify_weaken; [done|].
    eapply goodInput_item; [done | done |]. by apply list_elem_of_In.
  - apply map_ext_in. intros [key value] Hin. f_equal. apply reify_weaken; [done|].
    eapply goodInput_prop; [done | done |]. by apply list_elem_of_In.
Qed.

Example sanitizeData_models_agree_login :
  reify 6 (snd (sanitizeData (VRef 1%positive) loginHeap))
          (fst (sanitizeData (VRef 1%positive) loginHeap))
  = Js.JObj [("user", Js.JStr "ann");
             ("credentials", Js.JObj [("password", Js.JStr ApiLogger.redactedMarker)])].
Proof. by vm_compute. Qed.

End HeapTreeFacts.

(** ** Runs of the paginated fetcher *)

Module PagingRunsFacts.
Import Paging PagingRuns PagingFacts.

Section WithUpstream.

Variable apiRequest : string -> Z -> ApiOutcome.

Ltac sift :=
  repeat first
    [ rewrite filter_cons_True by done
    | rewrite filter_cons_False by done
    | rewrite filter_app
    | rewrite filter_nil ].

Lemma pageLoop_log bookId totalPages pages acc :
  let quiet := pageLoop apiRequest bookId false totalPages pages acc in
  let loud := pageLoop apiRequest bookId true totalPages pages acc in
  filter (fun e => isLogLine e = false) (fst loud) = fst quiet /\
  snd loud = snd quiet /\
  Forall (fun e => isLogLine e = false) (fst quiet).
Proof.
  revert acc. induction pages as [|page rest IH]; intros acc; simpl; [done|].
  unfold getChapters.
  destruct (decide (bookId = EmptyString)) as [Hid|Hid];
    [|destruct (apiRequest bookId (startIndexOf page)) as [chapterList|err];
      [destruct (default [] chapterList) as [|c cs] eqn:Hlist|]]; simpl.
  2: { split_and!; [by sift | done | by repeat constructor]. }
  all: match goal with
       | |- context [pageLoop _ _ true _ _ ?a] =>
           specialize (IH a); simpl in IH;
           destruct (pageLoop apiRequest bookId true totalPages rest a) as [evs1 r1];
           destruct (pageLoop apiRequest bookId false totalPages rest a) as [evs0 r0]
       end;
    simpl in *; destruct IH as (IHe & IHr & IHq);
    (split_and!; [| done |]);
    try destruct (page <? totalPages); simpl; sift; rewrite ?IHe; try done;
    repeat (apply Forall_cons; split; [done|]); done.
Qed.

(** X2: The [log] flag only adds console lines: without them the run with
    logging is the run without, event for event, and both return the same
    completion. *)
Theorem getAllChapters_log_only_prints bookId totalEpisodes :
  let quiet := getAllChapters apiRequest bookId totalEpisodes false in
  let loud := getAllChapters apiRequest bookId totalEpisodes true in
  filter (fun e => isLogLine e = false) (fst loud) = fst quiet /\
  snd loud = snd quiet /\
  Forall (fun e => isLogLine e = false) (fst quiet).
Proof.
  simpl. unfold getAllChapters.
  destruct (decide (bookId = EmptyString)) as [Hid|Hid]; [by split_and!|].
  pose proof (pageLoop_log bookId (ceil_div totalEpisodes episodesPerPage)
                (pagesUpTo (ceil_div totalEpisodes episodesPerPage)) []) as H.
  simpl in H.
  destruct (pageLoop apiRequest bookId true _ _ []) as [evs1 r1].
  destruct (pageLoop apiRequest bookId false _ _ []) as [evs0 r0].
  simpl in *. destruct H as (He & Hr & Hq). subst r1.
  split_and!; [| done |].
  - destruct (_ <? _); sift; by rewrite He.
  - by rewrite app_nil_r.
Qed.

Lemma itemsOf_batch bookId all page :
  servesBatches apiRequest bookId all -> 1 <= page ->
  itemsOf apiRequest bookId page
  = take 6 (drop (Z.to_nat (6 * (page - 1))) all).
Proof.
  intros Hserve Hpage. unfold itemsOf. rewrite (Hserve page Hpage). simpl.
  unfold startIndexOf. do 3 f_equal. lia.
Qed.

Lemma emptyPage_batch bookId all page :
  servesBatches apiRequest bookId all -> 1 <= page ->
  emptyPage apiRequest bookId page <-> Z.of_nat (length all) <= 6 * (page - 1).
Proof.
  intros Hserve Hpage. unfold emptyPage. rewrite (Hserve page Hpage). simpl.
  unfold startIndexOf.
  replace (1 + (page - 1) * 6 - 1) with (6 * (page - 1)) by lia.
  split.
  - intros Hnil. apply (f_equal length) in Hnil.
    rewrite length_take, length_drop in Hnil.
    change (length (@nil Chapter)) with 0%nat in Hnil. lia.
  - intros Hlen. rewrite drop_ge by lia. done.
Qed.

(** The first [k] batches, one after the other, are the first [6 k]
    episodes. *)
Lemma flat_map_batches bookId all (k : nat) :
  servesBatches apiRequest bookId all ->
  flat_map (itemsOf apiRequest bookId) (pagesUpTo (Z.of_nat k))
  = take (6 * k) all.
Proof.
  intros Hserve. induction k as [|k IH]; [done|].
  rewrite pagesUpTo_snoc by lia.
  replace (Z.of_nat (S k) - 1) with (Z.of_nat k) by lia.
  rewrite flat_map_app, IH. simpl. rewrite app_nil_r.
  rewrite (itemsOf_batch bookId all) by (done || lia).
  replace (Z.to_nat (6 * (Z.of_nat (S k) - 1))) with (6 * k)%nat by lia.
  rewrite take_take_drop. f_equal. lia.
Qed.

(** What a run against such an upstream returns and reports. *)
Lemma getAllChapters_batches bookId all totalEpisodes log :
  bookId <> EmptyString ->
  servesBatches apiRequest bookId all ->
  let totalPages := ceil_div totalEpisodes episodesPerPage in
  let run := getAllChapters apiRequest bookId totalEpisodes log in
  snd run = Return (take (Z.to_nat (6 * totalPages)) all) /\
  errorsOf (fst run) = [].
Proof.
  intros Hid Hserve totalPages run.
  destruct (requestsOf_getAllChapters apiRequest bookId totalEpisodes log Hid)
    as (_ & Herr & Hres).
  fold totalPages in Herr, Hres. fold run in Herr, Hres.
  destruct (visited_pagesUpTo apiRequest bookId totalPages)
    as (k & Hk0 & Hk & Hv & Hbefore & Hstop).
  rewrite Hv in Herr, Hres. split.
  - rewrite Hres. f_equal.
    rewrite <- (Z2Nat.id k) by lia.
    rewrite (flat_map_batches bookId all) by done.
    destruct (decide (k < totalPages)) as [Hlt|Hge].
    + destruct Hstop as [Hk1 He]; [done|].
      apply (emptyPage_batch bookId all k Hserve Hk1) in He.
      rewrite !take_ge by lia. done.
    + f_equal. lia.
  - rewrite Herr. clear Herr Hres Hv.
    assert (forall p, p ∈ pagesUpTo k -> rejectionOf apiRequest bookId p = None)
      as Hnone.
    { intros p Hp. apply elem_of_pagesUpTo in Hp. unfold rejectionOf.
      rewrite (Hserve p) by lia. done. }
    induction (pagesUpTo k) as [|p ps IH]; [done|]. simpl.
    rewrite Hnone by (by left). apply IH. intros q Hq. apply Hnone. by right.
Qed.

(** X1: Against an upstream that serves a book in batches of six,
    [getAllChapters] puts the batches back together: it returns the first
    [6 * ceil(totalEpisodes / 6)] episodes in order, hence the whole book
    as soon as [totalEpisodes] is at least its length, and reports no
    error. *)
Theorem getAllChapters_reassembles bookId all totalEpisodes log :
  bookId <> EmptyString ->
  servesBatches apiRequest bookId all ->
  let totalPages := ceil_div totalEpisodes episodesPerPage in
  let run := getAllChapters apiRequest bookId totalEpisodes log in
  snd run = Return (take (Z.to_nat (6 * totalPages)) all) /\
  (Z.of_nat (length all) <= totalEpisodes -> snd run = Return all) /\
  errorsOf (fst run) = [].
Proof.
  intros Hid Hserve totalPages run.
  destruct (getAllChapters_batches bookId all totalEpisodes log Hid Hserve)
    as [Hrun Herr].
  fold totalPages in Hrun. fold run in Hrun, Herr.
  split_and!; [done | | done].
  intros Hlen. rewrite Hrun. f_equal. apply take_ge.
  pose proof (ceil_div_bounds totalEpisodes 6 ltac:(lia)) as Hb.
  unfold totalPages, episodesPerPage. lia.
Qed.

Lemma pageLoop_traffic bookId log totalPages pages acc :
  bookId <> EmptyString ->
  filter (fun e => isTraffic e = true)
         (fst (pageLoop apiRequest bookId log totalPages pages acc))
  = flat_map (trafficOf apiRequest bookId totalPages)
             (visited apiRequest bookId pages).
Proof.
  intros Hid. revert acc.
  induction pages as [|page rest IH]; intros acc; [done|].
  cbn [pageLoop visited]. unfold getChapters.
  destruct (decide (bookId = EmptyString)) as [|_]; [done|].
  assert (trafficOf apiRequest bookId totalPages page =
          Request bookId (startIndexOf page) ::
          match apiRequest bookId (startIndexOf page) with
          | Response chapterList =>
              if (0 <? length (default [] chapterList))%nat && (page <? totalPages)
              then [Delay 100] else []
          | Rejected _ => []
          end) as Htraffic.
  { unfold trafficOf, itemsOf.
    destruct (apiRequest bookId (startIndexOf page)) as [chapterList|err]; [|done].
    by destruct (default [] chapterList). }
  destruct (decide (emptyPage apiRequest bookId page)) as [He|Hne];
    unfold emptyPage in *;
    destruct (apiRequest bookId (startIndexOf page)) as [chapterList|err];
    try done.
  - cbn [flat_map]. rewrite He in *. rewrite Htraffic. by destruct log.
  - destruct (default [] chapterList) as [|c cs]; [done|].
    cbn [length Nat.ltb Nat.leb] in *.
    specialize (IH (acc ++ c :: cs)).
    destruct (pageLoop apiRequest bookId log totalPages rest (acc ++ c :: cs))
      as [evs' result].
    cbn [fst flat_map] in *. rewrite Htraffic, <- IH.
    destruct log, (page <? totalPages); simpl; by sift.
  - specialize (IH acc).
    destruct (pageLoop apiRequest bookId log totalPages rest acc) as [evs' result].
    cbn [fst flat_map] in *. rewrite Htraffic, <- IH.
    destruct log; simpl; by sift.
Qed.

(** X3: What [getAllChapters] sends and when: one request per visited page,
    in page order, with a pause of 100 ms after every page that came back
    with items, except the last page of the loop; a rejected page is
    followed by the next request at once. *)
Theorem getAllChapters_traffic bookId totalEpisodes log :
  bookId <> EmptyString ->
  let totalPages := ceil_div totalEpisodes episodesPerPage in
  filter (fun e => isTraffic e = true)
         (fst (getAllChapters apiRequest bookId totalEpisodes log))
  = flat_map (trafficOf apiRequest bookId totalPages)
             (visited apiRequest bookId (pagesUpTo totalPages)).
Proof.
  intros Hid totalPages. unfold getAllChapters.
  destruct (decide (bookId = EmptyString)) as [|_]; [done|].
  pose proof (pageLoop_traffic bookId log totalPages (pagesUpTo totalPages) [] Hid)
    as Hloop.
  fold totalPages.
  destruct (pageLoop apiRequest bookId log totalPages (pagesUpTo totalPages) [])
    as [evs allChapters].
  cbn [fst] in *. rewrite <- Hloop.
  destruct log; simpl; sift; try destruct (_ <? _); sift; by rewrite ?app_nil_r.
Qed.

End WithUpstream.

Lemma getAllChapters_reassembles_witness :
  let upstream := MoreSamples.batchUpstream MoreSamples.eightChapters in
  let run := getAllChapters upstream "book" 8 true in
  "book" <> EmptyString /\
  servesBatches upstream "book" MoreSamples.eightChapters /\
  snd run = Return (take (Z.to_nat (6 * ceil_div 8 episodesPerPage))
                      MoreSamples.eightChapters) /\
  (Z.of_nat (length MoreSamples.eightChapters) <= 8 ->
   snd run = Return MoreSamples.eightChapters) /\
  errorsOf (fst run) = [].
Proof.
  split; [discriminate|]. split; [intros page _; reflexivity|].
  apply (getAllChapters_reassembles
           (MoreSamples.batchUpstream MoreSamples.eightChapters)
           "book" MoreSamples.eightChapters 8 true).
  - discriminate.
  - intros page _. reflexivity.
Defined.

Lemma getAllChapters_traffic_witness :
  "book" <> EmptyString /\
  filter (fun e => isTraffic e = true)
         (fst (getAllChapters Samples.flakyUpstream "book" 13 false))
  = flat_map (trafficOf Samples.flakyUpstream "book" (ceil_div 13 episodesPerPage))
             (visited Samples.flakyUpstream "book"
                (pagesUpTo (ceil_div 13 episodesPerPage))).
Proof.
  split; [discriminate|].
  apply (getAllChapters_traffic Samples.flakyUpstream "book" 13 false).
  discriminate.
Defined.

(** With page 2 rejected: request, pause, request, request. *)
Example getAllChapters_traffic_thirteen :
  filter (fun e => isTraffic e = true)
         (fst (getAllChapters Samples.flakyUpstream "book" 13 true))
  = [Request "book" 1; Delay 100; Request "book" 7; Request "book" 13].
Proof. reflexivity. Qed.

End PagingRunsFacts.

(** ** Array helpers *)

Module JsArrayFacts.
Import JsArray.

Section FindIndex.

Context {A : Type} (P : A -> Prop) `{!forall a, Decision (P a)}.

(** [findIndex] returns [-1] when no element satisfies the predicate, and
    otherwise the index of the first one that does. *)
Lemma findIndex_spec (arr : list A) :
  (findIndex P arr = -1 /\ Forall (fun a => ~ P a) arr) \/
  (exists (i : nat) a,
     findIndex P arr = Z.of_nat i /\ arr !! i = Some a /\ P a /\
     forall (j : nat) b, arr !! j = Some b -> (j < i)%nat -> ~ P b).
Proof.
  unfold findIndex. destruct (list_find P arr) as [[i a]|] eqn:Hfind.
  - right. exists i, a. apply list_find_Some in Hfind. tauto.
  - left. split; [done|]. apply list_find_None in Hfind. exact Hfind.
Qed.

Lemma findIndex_first (arr : list A) (i : nat) a :
  arr !! i = Some a -> P a ->
  (forall (j : nat) b, arr !! j = Some b -> (j < i)%nat -> ~ P b) ->
  findIndex P arr = Z.of_nat i.
Proof.
  intros Hi HP Hleast. unfold findIndex.
  assert (list_find P arr = Some (i, a)) as ->; [|done].
  apply list_find_Some. tauto.
Qed.

Lemma findIndex_none (arr : list A) :
  Forall (fun a => ~ P a) arr -> findIndex P arr = -1.
Proof.
  intros Hnone. unfold findIndex.
  by rewrite (proj2 (list_find_None P arr) Hnone).
Qed.

Lemma findIndex_le (arr : list A) (k : nat) a :
  arr !! k = Some a -> P a -> 0 <= findIndex P arr <= Z.of_nat k.
Proof.
  intros Hk HP.
  destruct (findIndex_spec arr) as [[_ Hnone]|(i & b & -> & Hi & _ & Hleast)].
  - exfalso. eapply Forall_lookup_1 in Hnone; [|exact Hk]. done.
  - split; [lia|]. destruct (decide (i <= k)%nat) as [|Hgt]; [lia|].
    exfalso. apply (Hleast k a Hk); [lia | done].
Qed.

End FindIndex.

(** With distinct keys, the first element with the key of the element at
    [i] is that element. *)
Lemma findIndex_NoDup {A K : Type} `{!EqDecision K} (key : A -> K)
    (arr : list A) (i : nat) a b :
  NoDup (map key arr) -> arr !! i = Some a -> key b = key a ->
  findIndex (fun c => key c = key b) arr = Z.of_nat i.
Proof.
  intros Hnodup Hi Hkey.
  apply (findIndex_first _ arr i a Hi); [done|].
  intros j c Hj Hlt Hc.
  assert (j = i); [|lia].
  eapply NoDup_lookup; [exact Hnodup| |].
  - rewrite list_lookup_fmap, Hj. simpl. reflexivity.
  - rewrite list_lookup_fmap, Hi. simpl. congruence.
Qed.

Lemma filterFrom_sublist {A : Type} (p : A -> nat -> bool) i (arr : list A) :
  filterFrom p i arr `sublist_of` arr.
Proof.
  revert i. induction arr as [|v rest IH]; intros i; simpl; [done|].
  destruct (p v i); [by apply sublist_skip | by apply sublist_cons].
Qed.

Lemma elem_of_filterFrom {A : Type} (p : A -> nat -> bool) i (arr : list A) v :
  v ∈ filterFrom p i arr <->
  exists j, arr !! j = Some v /\ p v (i + j)%nat = true.
Proof.
  revert i. induction arr as [|w rest IH]; intros i; simpl.
  - split; [intros Hin; inversion Hin | intros (j & Hj & _); done].
  - destruct (p w i) eqn:Hp.
    + rewrite elem_of_cons, IH. split.
      * intros [->|(j & Hj & Hpj)].
        -- exists 0%nat. by rewrite Nat.add_0_r.
        -- exists (S j). split; [done|]. by rewrite Nat.add_succ_r.
      * intros ([|j] & Hj & Hpj); simpl in Hj.
        -- left. congruence.
        -- right. exists j. split; [done|]. by rewrite Nat.add_succ_r in Hpj.
    + rewrite IH. split.
      * intros (j & Hj & Hpj). exists (S j). split; [done|].
        by rewrite Nat.add_succ_r.
      * intros ([|j] & Hj & Hpj); simpl in Hj.
        -- rewrite Nat.add_0_r in Hpj. congruence.
        -- exists j. split; [done|]. by rewrite Nat.add_succ_r in Hpj.
Qed.

End JsArrayFacts.

(** ** The download list *)

Module DownloadFacts.
Import Paging Download.

Lemma collect_omap chapters downloadList :
  collect chapters downloadList = downloadList ++ omap downloadItemOf chapters.
Proof.
  revert downloadList.
  induction chapters as [|chapter rest IH]; intros downloadList; simpl.
  - by rewrite app_nil_r.
  - unfold downloadItemOf at 1.
    destruct (firstCdnUrl chapter) as [u|]; simpl; [|apply IH].
    rewrite IH. by rewrite <- app_assoc.
Qed.

Lemma firstCdnUrl_nonempty chapter u :
  firstCdnUrl chapter = Some u -> u <> EmptyString.
Proof.
  unfold firstCdnUrl.
  destruct (cdnList chapter) as [[|cdn ?]|]; try done.
  destruct (url cdn) as [u'|]; [|done].
  destruct (decide (u' = EmptyString)); [done|]. congruence.
Qed.

Lemma downloadItemOf_Some chapter item :
  downloadItemOf chapter = Some item ->
  firstCdnUrl chapter = Some (videoUrl item) /\
  itemChapterName item = chapterName chapter.
Proof.
  unfold downloadItemOf. destruct (firstCdnUrl chapter); [|done].
  by intros [= <-].
Qed.

Lemma downloadItemOf_None chapter :
  downloadItemOf chapter = None -> firstCdnUrl chapter = None.
Proof. unfold downloadItemOf. by destruct (firstCdnUrl chapter). Qed.

Lemma omap_downloadItemOf chapters :
  let items := omap downloadItemOf chapters in
  Forall (fun item => videoUrl item <> EmptyString) items /\
  (length items <= length chapters)%nat /\
  (length items = length chapters <->
   Forall (fun chapter => is_Some (firstCdnUrl chapter)) chapters).
Proof.
  induction chapters as [|chapter rest (IHurl & IHlen & IHall)].
  { split_and!; [constructor | done | done]. }
  cbn [omap list_omap length] in *. rewrite Forall_cons.
  destruct (downloadItemOf chapter) as [item|] eqn:Hitem.
  - apply downloadItemOf_Some in Hitem as [Hurl _]. rewrite Hurl.
    cbn [length]. split_and!.
    + constructor; [|done]. by eapply firstCdnUrl_nonempty.
    + lia.
    + split.
      * intros Hlen. split; [by eexists|]. apply IHall. lia.
      * intros [_ Hall]. f_equal. by apply IHall.
  - apply downloadItemOf_None in Hitem. rewrite Hitem.
    split_and!; [done | lia |].
    split; [lia|]. by intros [[? [=]] _].
Qed.

Lemma chapterEvents_app evs1 evs2 :
  chapterEvents (evs1 ++ evs2) = chapterEvents evs1 ++ chapterEvents evs2.
Proof. unfold chapterEvents. apply omap_app. Qed.

Lemma chapterEvents_itemLines i items :
  chapterEvents (concat (imap (fun j => itemLines (i + j)) items)) = [].
Proof.
  revert i. induction items as [|item rest IH]; intros i; [done|].
  simpl. rewrite <- (IH (S i)). do 2 f_equal.
  apply imap_ext. intros j x _. simpl. f_equal. lia.
Qed.

Section WithUpstream.

Variable apiRequest : string -> Z -> ApiOutcome.

(** X4: [batchDownload] asks for the first batch of chapters only (start
    index 1).  When that request is rejected so is the call; otherwise
    the call returns, in chapter order, one item for every chapter of the
    batch whose first CDN entry has a non-empty [url], with the chapter's
    name and that [url]; chapters without one are left out. *)
Theorem batchDownload_first_batch bookId log :
  bookId <> EmptyString ->
  let run := batchDownload apiRequest bookId log in
  requestsOf (chapterEvents (fst run)) = [1] /\
  match apiRequest bookId 1 with
  | Rejected err => snd run = Throw err
  | Response chapterList =>
      let chapters := default [] chapterList in
      exists items,
        snd run = Return items /\
        items = omap downloadItemOf chapters /\
        Forall (fun item => videoUrl item <> EmptyString) items /\
        (length items <= length chapters)%nat /\
        (length items = length chapters <->
         Forall (fun chapter => is_Some (firstCdnUrl chapter)) chapters)
  end.
Proof.
  intros Hid. unfold batchDownload, getChapters. simpl.
  destruct (decide (bookId = EmptyString)) as [|_]; [done|].
  destruct (apiRequest bookId 1) as [chapterList|err]; simpl; [|done].
  set (chapters := default [] chapterList).
  rewrite collect_omap. simpl.
  split.
  { destruct log; [|done].
    change (ConsoleListHeader bookId :: ?l) with ([ConsoleListHeader bookId] ++ l).
    rewrite !chapterEvents_app.
    rewrite (chapterEvents_itemLines 0 (omap downloadItemOf chapters)). done. }
  eexists. split; [reflexivity|]. split; [done|].
  apply omap_downloadItemOf.
Qed.

End WithUpstream.

End DownloadFacts.

(** ** Recommendations *)

Module DramaFacts.
Import JsArray JsArrayFacts Drama.

(** The element at [i] passes the filter exactly when no earlier element
    has its [bookId]. *)
Lemma kept_iff_first (books : list DramaBook) (i : nat) v :
  books !! i = Some v ->
  findIndex (fun b => bookId b = bookId v) books = Z.of_nat i <->
  forall (j : nat) c, books !! j = Some c -> (j < i)%nat -> bookId c <> bookId v.
Proof.
  intros Hi. split.
  - intros Hfind j c Hj Hlt Hsame.
    pose proof (findIndex_le (fun b => bookId b = bookId v) books j c Hj Hsame).
    lia.
  - intros Hleast. by apply (findIndex_first _ books i v).
Qed.

(** What the duplicate filter keeps: the first occurrence of every
    [bookId], in the order of the list. *)
Lemma uniqueByBookId_spec (books : list DramaBook) :
  let uniqueList := uniqueByBookId books in
  NoDup (map bookId uniqueList) /\
  uniqueList `sublist_of` books /\
  (forall b, b ∈ uniqueList <->
     exists i : nat, books !! i = Some b /\
       forall (j : nat) c, books !! j = Some c -> (j < i)%nat -> bookId c <> bookId b) /\
  (forall id, id ∈ map bookId books <-> id ∈ map bookId uniqueList).
Proof.
  intros uniqueList.
  set (p := fun (v : DramaBook) (i : nat) =>
              bool_decide (findIndex (fun b => bookId b = bookId v) books = Z.of_nat i)).
  assert (forall b, b ∈ uniqueList <->
            exists i : nat, books !! i = Some b /\
              forall (j : nat) c, books !! j = Some c -> (j < i)%nat ->
                                  bookId c <> bookId b) as Hmem.
  { intros b. unfold uniqueList, uniqueByBookId. fold p.
    rewrite elem_of_filterFrom. simpl. unfold p.
    split; intros (i & Hi & Hkeep); exists i; (split; [done|]).
    - apply bool_decide_eq_true in Hkeep. by apply (kept_iff_first books i b Hi).
    - apply bool_decide_eq_true. by apply (kept_iff_first books i b Hi). }
  split_and!.
  - (* two kept elements with one [bookId] sit at the same index *)
    assert (forall (pre rest : list DramaBook),
              books = pre ++ rest ->
              NoDup (map bookId (filterFrom p (length pre) rest))) as Hgen.
    { intros pre rest. revert pre.
      induction rest as [|v rest IH]; intros pre Hbooks; simpl; [constructor|].
      assert (books = (pre ++ [v]) ++ rest) as Hnext by (by rewrite <- app_assoc).
      specialize (IH (pre ++ [v]) Hnext).
      rewrite length_app in IH. simpl in IH.
      replace (length pre + 1)%nat with (S (length pre)) in IH by lia.
      destruct (p v (length pre)) eqn:Hp; [|done].
      simpl. constructor; [|done].
      intros Hin. apply list_elem_of_fmap in Hin as (w & Hid & Hw).
      apply elem_of_filterFrom in Hw as (j & Hj & Hpj).
      unfold p in Hpj. apply bool_decide_eq_true in Hpj.
      assert (books !! length pre = Some v) as Hv.
      { rewrite Hbooks. by rewrite list_lookup_middle. }
      pose proof (findIndex_le (fun b => bookId b = bookId w) books
                    (length pre) v Hv Hid).
      lia. }
    apply (Hgen [] books eq_refl).
  - apply filterFrom_sublist.
  - exact Hmem.
  - intros id. split.
    + intros Hin. apply list_elem_of_fmap in Hin as (b & -> & Hb).
      apply list_elem_of_lookup in Hb as [k Hk].
      destruct (findIndex_spec (fun c => bookId c = bookId b) books)
        as [[_ Hnone]|(i & a & _ & Hi & Ha & Hleast)].
      * exfalso. eapply Forall_lookup_1 in Hnone; [|exact Hk]. done.
      * apply list_elem_of_fmap. exists a. split; [done|].
        apply Hmem. exists i. split; [done|].
        intros j c Hj Hlt. rewrite Ha. exact (Hleast j c Hj Hlt).
    + intros Hin. apply list_elem_of_fmap in Hin as (b & -> & Hb).
      apply Hmem in Hb as (i & Hi & _).
      apply list_elem_of_fmap. exists b. split; [done|].
      by eapply list_elem_of_lookup_2.
Qed.

(** X5: [getRecommendedBooks] returns the books of the recommendation list,
    cards of type 3 replaced by the books they hold, without duplicates:
    no [bookId] occurs twice, every [bookId] of the flattened list occurs,
    and of the books that share a [bookId] the first one is kept, in the
    order of the list. *)
Theorem getRecommendedBooks_unique log records :
  let run := getRecommendedBooks (Response records) log in
  let books := flat_map flattenCard (default [] records) in
  exists uniqueList,
    snd run = Return uniqueList /\
    NoDup (map bookId uniqueList) /\
    uniqueList `sublist_of` books /\
    (forall b, b ∈ uniqueList <->
       exists i : nat, books !! i = Some b /\
         forall (j : nat) c, books !! j = Some c -> (j < i)%nat ->
                             bookId c <> bookId b) /\
    (forall id, id ∈ map bookId books <-> id ∈ map bookId uniqueList).
Proof.
  intros run books. exists (uniqueByBookId books).
  split; [reflexivity|]. apply uniqueByBookId_spec.
Qed.

End DramaFacts.

(** ** The player *)

Module PlayerFacts.
Import JsArray JsArrayFacts MovieDetail Player.

(** *** Episode ranges *)

Lemma rangeCount_bounds s :
  (length (chapters s) <= 25 * rangeCount s)%nat /\
  (forall i, (i < rangeCount s)%nat -> (25 * i < length (chapters s))%nat).
Proof.
  unfold rangeCount.
  pose proof (PagingFacts.ceil_div_bounds (Z.of_nat (length (chapters s))) 25
                ltac:(lia)) as Hb.
  split; [lia | intros i Hi; lia].
Qed.

Lemma slices_concat {A : Type} (l : list A) (n : nat) :
  concat (map (fun i => slice (i * 25) (i * 25 + 25) l) (seq 0 n))
  = take (25 * n) l.
Proof.
  induction n as [|n IH]; [done|].
  rewrite seq_S, map_app, concat_app, IH. simpl. rewrite app_nil_r.
  unfold slice.
  replace (n * 25 + 25 - n * 25)%nat with 25%nat by lia.
  replace (n * 25)%nat with (25 * n)%nat by lia.
  rewrite take_take_drop. f_equal. lia.
Qed.

(** X6: The range buttons cut the episode list into consecutive pages: shown
    one after the other, the pages are the list; the page of button [i]
    holds the episodes numbered from the button's [start] to its [end],
    at least one and at most 25 of them. *)
Theorem rangeButtons_partition s :
  concat (map (fun i => getFilteredChapters (handleRangeSelect i s))
              (seq 0 (rangeCount s)))
  = chapters s /\
  forall i, (i < rangeCount s)%nat ->
    let page := getFilteredChapters (handleRangeSelect i s) in
    let start := fst (rangeBounds s i) in
    let end_ := snd (rangeBounds s i) in
    rangeButtons s !! i = Some (start, end_) /\
    (1 <= start <= end_)%nat /\ (end_ <= length (chapters s))%nat /\
    page = take (end_ - start + 1) (drop (start - 1) (chapters s)) /\
    length page = (end_ - start + 1)%nat /\
    (length page <= 25)%nat.
Proof.
  destruct (rangeCount_bounds s) as [Hall Hsome]. split.
  - unfold getFilteredChapters, handleRangeSelect. simpl.
    rewrite slices_concat. by apply take_ge.
  - intros i Hi. specialize (Hsome i Hi). simpl.
    unfold getFilteredChapters, handleRangeSelect, slice. simpl.
    replace (i * 25 + 25 - i * 25)%nat with 25%nat by lia.
    replace (i * 25 + 1 - 1)%nat with (i * 25)%nat by lia.
    split_and!.
    + unfold rangeButtons. rewrite list_lookup_fmap, lookup_seq_lt by done.
      done.
    + lia.
    + lia.
    + lia.
    + destruct (Nat.min_spec ((i + 1) * 25) (length (chapters s)))
        as [[Hlt ->]|[Hge ->]].
      * f_equal. lia.
      * rewrite !take_ge; [done | | ]; rewrite length_drop; lia.
    + rewrite length_take, length_drop. lia.
    + rewrite length_take. lia.
Qed.

(** *** The range follows the selection *)

(** X7: After the effect has run, the page on display holds the selected
    episode: the first chapter of the list that has the selected chapter's
    id sits on it, at its index modulo 25.  A selection that is not in the
    list leaves the range alone. *)
Theorem rangeEffect_shows_selected s selected :
  selectedChapter s = Some selected ->
  (chapterId selected ∈ map chapterId (chapters s) ->
   exists (k : nat) c,
     indexOfSelected s selected = Z.of_nat k /\
     chapters s !! k = Some c /\ chapterId c = chapterId selected /\
     selectedRangeIndex (rangeEffect s) = (k / 25)%nat /\
     getFilteredChapters (rangeEffect s) !! (k mod 25)%nat = Some c) /\
  (chapterId selected ∉ map chapterId (chapters s) -> rangeEffect s = s).
Proof.
  intros Hsel. unfold rangeEffect. rewrite Hsel. split.
  - intros Hin. apply list_elem_of_fmap in Hin as (c0 & Hid0 & Hc0).
    apply list_elem_of_lookup in Hc0 as [k0 Hk0].
    unfold indexOfSelected.
    destruct (findIndex_spec (fun ch => chapterId ch = chapterId selected) (chapters s))
      as [[_ Hnone]|(k & c & Hfind & Hk & Hc & _)].
    { exfalso. eapply Forall_lookup_1 in Hnone; [|exact Hk0]. done. }
    exists k, c. rewrite Hfind.
    assert (0 < length (chapters s))%nat as Hlen.
    { apply lookup_lt_Some in Hk. lia. }
    destruct (Nat.ltb_spec 0 (length (chapters s))) as [_|]; [|lia].
    destruct (Z.eqb_spec (Z.of_nat k) (-1)) as [|_]; [lia|].
    assert (Z.to_nat (Z.of_nat k / 25) = (k / 25)%nat) as Hdiv.
    { rewrite <- (Nat2Z.id (k / 25)). f_equal. by rewrite Nat2Z.inj_div. }
    split_and!; [done | done | done | by rewrite Hdiv |].
    unfold getFilteredChapters, slice.
    cbn [selectedRangeIndex chapters setSelectedRangeIndex]. rewrite Hdiv.
    replace (k / 25 * 25 + 25 - k / 25 * 25)%nat with 25%nat by lia.
    pose proof (Nat.mod_upper_bound k 25 ltac:(lia)) as Hmod.
    rewrite lookup_take_lt by done. rewrite lookup_drop.
    replace (k / 25 * 25 + k mod 25)%nat with k; [done|].
    pose proof (Nat.div_mod_eq k 25). lia.
  - intros Hnin. unfold indexOfSelected.
    rewrite findIndex_none.
    + by destruct (0 <? length (chapters s))%nat.
    + apply Forall_forall. intros c Hc Hid. apply Hnin.
      apply list_elem_of_fmap. by exists c.
Qed.

(** *** Next and previous episode *)

Lemma handleChapterSelect_state chapter s :
  let s' := snd (handleChapterSelect chapter s) in
  selectedChapter s' = Some chapter /\
  chapters s' = chapters s /\
  showEpisodeList s' = false /\
  videoUrl s' = (if truthyUrl (getBestVideoUrl chapter)
                 then getBestVideoUrl chapter else videoUrl s).
Proof.
  unfold handleChapterSelect.
  by destruct (truthyUrl (getBestVideoUrl chapter)).
Qed.

Lemma playNextEpisode_at s selected (i : nat) next :
  selectedChapter s = Some selected ->
  indexOfSelected s selected = Z.of_nat i ->
  chapters s !! S i = Some next ->
  playNextEpisode s = handleChapterSelect next s.
Proof.
  intros Hsel Hidx Hnext. unfold playNextEpisode. rewrite Hsel, Hidx.
  pose proof (lookup_lt_Some _ _ _ Hnext) as Hlt.
  destruct (Nat.eqb_spec (length (chapters s)) 0) as [|_]; [lia|].
  destruct (Z.ltb_spec (Z.of_nat i + 1) (Z.of_nat (length (chapters s))))
    as [_|]; [|lia].
  replace (Z.to_nat (Z.of_nat i + 1)) with (S i) by lia.
  by rewrite Hnext.
Qed.

Lemma playPreviousEpisode_at s selected (i : nat) prev :
  selectedChapter s = Some selected ->
  indexOfSelected s selected = Z.of_nat (S i) ->
  chapters s !! i = Some prev ->
  playPreviousEpisode s = handleChapterSelect prev s.
Proof.
  intros Hsel Hidx Hprev. unfold playPreviousEpisode. rewrite Hsel, Hidx.
  pose proof (lookup_lt_Some _ _ _ Hprev) as Hlt.
  destruct (Nat.eqb_spec (length (chapters s)) 0) as [|_]; [lia|].
  destruct (Z.leb_spec 0 (Z.of_nat (S i) - 1)) as [_|]; [|lia].
  replace (Z.to_nat (Z.of_nat (S i) - 1)) with i by lia.
  by rewrite Hprev.
Qed.

(** X8: With distinct chapter ids, "next" moves the selection from the
    episode at index [i] to the one at [i + 1], and "previous" brings it
    back; the list is left as it was. *)
Theorem playNext_playPrevious_round_trip s selected (i : nat) c next :
  NoDup (map chapterId (chapters s)) ->
  selectedChapter s = Some selected ->
  chapters s !! i = Some c -> chapterId c = chapterId selected ->
  chapters s !! S i = Some next ->
  let s1 := snd (playNextEpisode s) in
  let s2 := snd (playPreviousEpisode s1) in
  selectedChapter s1 = Some next /\
  selectedChapter s2 = Some c /\
  chapters s1 = chapters s /\ chapters s2 = chapters s.
Proof.
  intros Hnodup Hsel Hc Hid Hnext s1 s2.
  assert (indexOfSelected s selected = Z.of_nat i) as Hidx.
  { unfold indexOfSelected. by apply (findIndex_NoDup chapterId _ i c). }
  assert (s1 = snd (handleChapterSelect next s)) as Hs1.
  { unfold s1. by rewrite (playNextEpisode_at s selected i next). }
  destruct (handleChapterSelect_state next s) as (Hsel1 & Hch1 & _).
  rewrite <- Hs1 in Hsel1, Hch1.
  assert (indexOfSelected s1 next = Z.of_nat (S i)) as Hidx1.
  { unfold indexOfSelected. rewrite Hch1.
    by apply (findIndex_NoDup chapterId _ (S i) next). }
  assert (s2 = snd (handleChapterSelect c s1)) as Hs2.
  { unfold s2. rewrite (playPreviousEpisode_at s1 next i c); try done.
    by rewrite Hch1. }
  destruct (handleChapterSelect_state c s1) as (Hsel2 & Hch2 & _).
  rewrite <- Hs2 in Hsel2, Hch2.
  split_and!; [done | done | done | congruence].
Qed.

(** X9: At the ends of the list the buttons do nothing: "next" on the last
    episode and "previous" on the first leave the state as it is and touch
    nothing.  When the selected chapter is not in the list, "previous"
    does nothing and "next" selects the first episode. *)
Theorem playNext_playPrevious_at_the_ends s selected :
  NoDup (map chapterId (chapters s)) ->
  selectedChapter s = Some selected ->
  (forall (i : nat) c,
     chapters s !! i = Some c -> chapterId c = chapterId selected ->
     (S i = length (chapters s) -> playNextEpisode s = ([], s)) /\
     (i = 0%nat -> playPreviousEpisode s = ([], s))) /\
  (chapterId selected ∉ map chapterId (chapters s) ->
   playPreviousEpisode s = ([], s) /\
   forall first, chapters s !! 0%nat = Some first ->
     playNextEpisode s = handleChapterSelect first s).
Proof.
  intros Hnodup Hsel. split.
  - intros i c Hc Hid.
    assert (indexOfSelected s selected = Z.of_nat i) as Hidx.
    { unfold indexOfSelected. by apply (findIndex_NoDup chapterId _ i c). }
    pose proof (lookup_lt_Some _ _ _ Hc) as Hlt.
    unfold playNextEpisode, playPreviousEpisode. rewrite Hsel, Hidx.
    destruct (Nat.eqb_spec (length (chapters s)) 0) as [|_]; [lia|].
    split.
    + intros Hlast.
      by destruct (Z.ltb_spec (Z.of_nat i + 1) (Z.of_nat (length (chapters s))));
        [lia|].
    + intros ->. by destruct (Z.leb_spec 0 (Z.of_nat 0 - 1)); [lia|].
  - intros Hnin.
    assert (indexOfSelected s selected = -1) as Hidx.
    { unfold indexOfSelected. apply findIndex_none.
      apply Forall_forall. intros c Hc Hid. apply Hnin.
      apply list_elem_of_fmap. by exists c. }
    unfold playNextEpisode, playPreviousEpisode. rewrite Hsel, Hidx.
    destruct (Nat.eqb_spec (length (chapters s)) 0) as [Hempty|Hne].
    + split; [done|]. intros first Hfirst.
      apply lookup_lt_Some in Hfirst. lia.
    + split; [done|]. intros first Hfirst.
      change (-1 + 1) with 0. change (Z.to_nat 0) with 0%nat.
      destruct (Z.ltb_spec 0 (Z.of_nat (length (chapters s)))) as [_|]; [|lia].
      by rewrite Hfirst.
Qed.

(** *** Loading a drama *)

Lemma chapterRequests_app evs1 evs2 :
  chapterRequests (evs1 ++ evs2) = chapterRequests evs1 ++ chapterRequests evs2.
Proof.
  unfold chapterRequests. by rewrite omap_app, PagingFacts.requestsOf_app.
Qed.

Lemma chapterRequests_DetailCall evs : chapterRequests (map DetailCall evs) = [].
Proof. unfold chapterRequests. by induction evs. Qed.

Lemma chapterRequests_ChaptersCall evs :
  chapterRequests (map ChaptersCall evs) = Paging.requestsOf evs.
Proof.
  unfold chapterRequests. f_equal.
  induction evs as [|e evs IH]; [done|]. simpl. by f_equal.
Qed.

Section WithUpstream.

Variable detailRequest : string -> bool -> string -> Detail.ApiOutcome.
Variable chapterRequest : string -> Z -> Paging.ApiOutcome.

(** X10: [fetchDramaData] always ends with the loading flag cleared.  When the
    detail call fails (empty book id, rejected request) nothing else
    changes and no chapter is requested.  When the detail record lists no
    episode, no chapter is requested either: the episode list becomes
    empty, while the selected chapter and the video URL stay what they
    were. *)
Theorem fetchDramaData_without_episodes bookId s :
  let run := fetchDramaData detailRequest chapterRequest bookId s in
  let answer := Detail.getDramaDetail detailRequest bookId true "book_album" true in
  loading (snd run) = false /\
  (forall err, snd answer = Throw err ->
     chapterRequests (fst run) = [] /\
     snd run = setLoading false s) /\
  (forall detailData, snd answer = Return detailData ->
     episodesOf detailData = [] ->
     chapterRequests (fst run) = [] /\
     snd run = setLoading false (setChapters [] (setDramaDetail detailData s)) /\
     selectedChapter (snd run) = selectedChapter s /\
     videoUrl (snd run) = videoUrl s).
Proof.
  intros run answer. subst run. unfold fetchDramaData. fold answer.
  destruct answer as [evs [detailData|err]]; simpl.
  - destruct (episodesOf detailData) as [|d ds] eqn:Hepisodes; simpl.
    + split_and!; [done | done |]. intros ? [= <-] _.
      rewrite chapterRequests_app, chapterRequests_app, chapterRequests_DetailCall.
      split_and!; reflexivity.
    + split_and!; [| done | intros ? [= <-] Hnil; congruence].
      destruct (Paging.getAllChapters chapterRequest bookId _ true)
        as [evs' [chaptersData|err]]; simpl; [|done].
      destruct (mergedChapters chaptersData (d :: ds)) as [|first rest]; simpl;
        [done|].
      by destruct (truthyUrl (getBestVideoUrl first)).
  - split_and!; [done | | done]. intros ? [= <-].
    by rewrite chapterRequests_app, chapterRequests_DetailCall.
Qed.

(** X11: Loading a drama end to end.  The detail record lists the episodes,
    the chapter endpoint serves the book in batches of six: then every
    batch is requested, the episode list on display is the book, episode
    by episode, each chapter carrying the index and the charge flag of the
    detail entry at its position; the first episode is selected, and its
    best video URL, if it has one, becomes the video URL. *)
Theorem fetchDramaData_loads_book bookId s detail episodes all :
  bookId <> EmptyString ->
  detailRequest bookId true "book_album" = Detail.Response (Some detail) ->
  Detail.detailList detail = Some episodes ->
  episodes <> [] ->
  PagingRuns.servesBatches chapterRequest bookId all ->
  length all = length episodes ->
  let run := fetchDramaData detailRequest chapterRequest bookId s in
  let s' := snd run in
  chapters s' = mergedChapters all episodes /\
  length (chapters s') = length episodes /\
  (forall (i : nat) c d,
     all !! i = Some c -> episodes !! i = Some d ->
     exists m, chapters s' !! i = Some m /\
               chapterId m = chapterId c /\ cdnList m = cdnList c /\
               chapterIndex m = detChapterIndex d /\
               isCharge m = detIsCharge d) /\
  selectedChapter s' = head (chapters s') /\
  videoUrl s' = match head (chapters s') with
                | Some first =>
                    if truthyUrl (getBestVideoUrl first)
                    then getBestVideoUrl first else videoUrl s
                | None => videoUrl s
                end /\
  dramaDetail s' = Some detail /\
  loading s' = false /\
  chapterRequests (fst run)
  = map Paging.startIndexOf
      (Paging.pagesUpTo
         (Paging.ceil_div (Z.of_nat (length episodes)) Paging.episodesPerPage)).
Proof.
  intros Hid Hdetail Hlist Hepisodes Hserve Hlen run s'.
  subst s' run. unfold fetchDramaData, Detail.getDramaDetail.
  destruct (decide (bookId = EmptyString)) as [|_]; [done|].
  rewrite Hdetail. cbn [episodesOf]. rewrite Hlist. cbn [from_option]. unfold id.
  destruct (Nat.eqb_spec (length episodes) 0) as [Hzero|_].
  { by destruct episodes. }
  set (totalPages :=
         Paging.ceil_div (Z.of_nat (length episodes)) Paging.episodesPerPage).
  assert (6 * (totalPages - 1) < Z.of_nat (length episodes) <= 6 * totalPages)
    as Hbounds.
  { apply (PagingFacts.ceil_div_bounds (Z.of_nat (length episodes)) 6). lia. }
  destruct (PagingRunsFacts.getAllChapters_batches chapterRequest bookId all
              (Z.of_nat (length episodes)) true Hid Hserve) as [Hrun _].
  destruct (PagingFacts.requestsOf_getAllChapters chapterRequest bookId
              (Z.of_nat (length episodes)) true Hid) as (Hreq & _ & _).
  fold totalPages in Hrun, Hreq.
  rewrite PagingFacts.visited_all in Hreq.
  2: { intros p Hp. apply PagingFacts.elem_of_pagesUpTo in Hp.
       rewrite (PagingRunsFacts.emptyPage_batch chapterRequest bookId all p Hserve)
         by lia.
       lia. }
  rewrite take_ge in Hrun by lia.
  destruct (Paging.getAllChapters chapterRequest bookId _ true)
    as [evs' res]. cbn [fst snd] in Hrun, Hreq. subst res.
  assert (exists first rest, mergedChapters all episodes = first :: rest)
    as (first & rest & Hmerged).
  { destruct (mergedChapters all episodes) as [|first rest] eqn:Hm; [|by eauto].
    apply (f_equal length) in Hm.
    rewrite MovieDetailFacts.mergedChapters_length in Hm. simpl in Hm.
    destruct episodes; [done | simpl in *; lia]. }
  rewrite Hmerged. cbn [fst snd].
  assert (forall (i : nat) c d,
            all !! i = Some c -> episodes !! i = Some d ->
            exists m, (first :: rest) !! i = Some m /\
                      chapterId m = chapterId c /\ cdnList m = cdnList c /\
                      chapterIndex m = detChapterIndex d /\
                      isCharge m = detIsCharge d) as Hentries.
  { intros i c d Hc Hd. rewrite <- Hmerged.
    exists (mergeChapter episodes i c).
    rewrite MovieDetailFacts.mergedChapters_lookup, Hc.
    unfold mergeChapter. rewrite Hd. by split_and!. }
  assert (length (first :: rest) = length episodes) as Hcount.
  { by rewrite <- Hmerged, MovieDetailFacts.mergedChapters_length. }
  assert (chapterRequests
            ((map DetailCall [Detail.Request bookId true "book_album";
                              Detail.ConsoleDetail bookId detail] ++
              [ConsoleTotalEpisodes (length episodes)]) ++
             map ChaptersCall evs' ++
             [ConsoleChaptersFound (length all);
              ConsoleMerged (length (first :: rest))])
          = map Paging.startIndexOf (Paging.pagesUpTo totalPages)) as Hrequests.
  { rewrite !chapterRequests_app, chapterRequests_ChaptersCall, Hreq. simpl.
    by rewrite app_nil_r. }
  destruct (truthyUrl (getBestVideoUrl first)) eqn:Htruthy;
    cbn [chapters selectedChapter dramaDetail videoUrl loading
         setSelectedChapter setChapters setDramaDetail setLoading setVideoUrl
         head];
    rewrite ?Htruthy; by split_and!.
Qed.

End WithUpstream.

End PlayerFacts.

(** ** Endpoint loggers *)

Module EndpointLoggerFacts.
Import Js JsFacts ApiLogger TrackerFacts EndpointLogger.

Lemma Map_delete_set {V : Type} k (v : V) (m : JsMap V) :
  Map_delete k (Map_set k v m) = Map_delete k m.
Proof.
  unfold Map_delete. induction m as [|[k' v'] m IH]; simpl.
  - rewrite filter_cons. simpl. by rewrite decide_False by (by intros ?).
  - destruct (decide (k' = k)) as [->|Hne].
    + rewrite !filter_cons. simpl. by rewrite !decide_False by (by intros ?).
    + rewrite !filter_cons. simpl. rewrite !decide_True by done. by rewrite IH.
Qed.

Lemma lift_Return {A : Type} (m : M A) s a s' :
  m s = (Return a, s') -> lift m s = (Return a, s').
Proof. unfold lift. by intros ->. Qed.

Lemma lift_Throw {A : Type} (m : M A) s e s' :
  m s = (Throw e, s') -> lift m s = (Throw (thrownValue e), s').
Proof. unfold lift. by intros ->. Qed.

Lemma bind_Return {A B : Type} (m : P A) (k : A -> P B) s a s' :
  m s = (Return a, s') -> (x ← m; k x) s = k a s'.
Proof. unfold mbind, P_bind. by intros ->. Qed.

Lemma bind_Throw {A B : Type} (m : P A) (k : A -> P B) s error s' :
  m s = (Throw error, s') -> (x ← m; k x) s = (Throw error, s').
Proof. unfold mbind, P_bind. by intros ->. Qed.

Lemma Map_get_set_ne {V : Type} k k' (v : V) (m : JsMap V) :
  k <> k' -> Map_get k' (Map_set k v m) = Map_get k' m.
Proof.
  intros Hne. unfold Map_get. induction m as [|[k0 v0] m IH]; simpl.
  - by rewrite decide_False.
  - destruct (decide (k0 = k)) as [->|Hk]; simpl.
    + by rewrite !decide_False.
    + destruct (decide (k0 = k')); [done | apply IH].
Qed.

Section WithWorld.

Variable environment : string.
Variable clock : nat -> Z.
Variable random : nat -> string.

(** [logRequest] of an endpoint logger, in one equation. *)
Lemma logRequest_run e requestData userId st :
  exists context requestCalls,
    logRequest environment clock random e requestData userId st =
    (Return (generatedId clock random st),
     {| activeRequests := Map_set (generatedId clock random st) context (activeRequests st);
        calls := calls st ++ requestCalls;
        clockReads := 3 + clockReads st;
        randomReads := S (randomReads st) |}) /\
    method context = endpointMethod e /\ url context = endpoint e /\
    requestCalls =
      (if logRequests environment
       then [Call_apiRequest (endpointMethod e) (endpoint e)
               (JObj [("method", JStr (endpointMethod e));
                      ("url", JStr (endpoint e));
                      ("headers", JUndefined);
                      ("body", sanitizeData requestData);
                      ("query", JUndefined);
                      ("userAgent", JUndefined);
                      ("ip", JUndefined)])
               (generatedId clock random st)]
       else []).
Proof.
  unfold logRequest, ApiLogger.logRequest, generateRequestId, Math_random_suffix,
    generatedId.
  run_method.
  destruct (logRequests environment); simpl.
  - eexists _, [_]. split; [reflexivity|]. by split_and!.
  - eexists _, []. rewrite app_nil_r. split; [reflexivity|]. by split_and!.
Qed.

Lemma lift_Date_now s :
  lift (Date_now clock) s = (Return (clock (clockReads s)), afterReads 1 s).
Proof. reflexivity. Qed.

(** [logResponse] of an endpoint logger for an id the tracker holds. *)
Lemma logResponse_run e rid status responseData duration s context :
  Map_get rid (activeRequests s) = Some context ->
  exists s' shown elapsed warnings,
    logResponse environment clock e rid status responseData duration s
    = (Return tt, s') /\
    activeRequests s' = Map_delete rid (activeRequests s) /\
    calls s' = calls s ++ warnings ++
               [Call_apiResponse (method context) (url context) status shown
                  rid elapsed] /\
    Forall (fun c => levelOf c = Logger.WARN) warnings.
Proof.
  intros Hget. unfold logResponse.
  unfold mbind at 1, M_bind at 1. unfold Date_now at 1.
  set (response := {| resContext := _; status := status |}).
  destruct (logResponse_known environment clock response
              (afterReads 1 s) context Hget)
    as (s' & Hrun & Hactive & shown & elapsed & warnings & Hcalls & Hwarn).
  change (afterReads 1 s) with
    {| activeRequests := activeRequests s; calls := calls s;
       clockReads := S (clockReads s); randomReads := randomReads s |} in Hrun.
  rewrite Hrun. by exists s', shown, elapsed, warnings.
Qed.

(** ... and for an id it does not hold. *)
Lemma logResponse_run_unknown e rid status responseData duration s :
  Map_get rid (activeRequests s) = None ->
  logResponse environment clock e rid status responseData duration s
  = (Return tt,
     recordCall (Call_warn ("No request context found for response: " +:+ rid)
                   JUndefined None)
       (afterReads 1 s)).
Proof.
  intros Hget. unfold logResponse.
  unfold mbind at 1, M_bind at 1. unfold Date_now at 1.
  set (response := {| resContext := _; status := status |}).
  apply (logResponse_unknown environment clock response (afterReads 1 s) Hget).
Qed.

(** On [null] and [undefined], [logError] throws before it has logged or
    deleted anything. *)
Lemma logError_nullish_quiet rid err additionalContext s :
  isNullish err = true ->
  exists error s',
    ApiLogger.logError clock rid err additionalContext s = (Throw error, s') /\
    activeRequests s' = activeRequests s /\ calls s' = calls s.
Proof.
  intros Herr. unfold ApiLogger.logError. run_method.
  destruct (Map_get rid (activeRequests s)); destruct err; try done;
    simpl; eauto.
Qed.

(** Everything [withLogging] does before it awaits [fn()]. *)
Lemma withLogging_start e fn requestData userId st :
  exists context requestCalls st2,
    let rid := generatedId clock random st in
    withLogging environment clock random e fn requestData userId st =
    tryCatch
      (result ← fn;
       now ← lift (Date_now clock);
       lift (logResponse environment clock e rid 200 result
               (Some (now - clock (3 + clockReads st))));;
       mret result)
      (fun error =>
         now ← lift (Date_now clock);
         lift (logError clock e rid error);;
         status ← lift (liftCompletion (getProp error "status"));
         lift (logResponse environment clock e rid (statusOr500 status)
                 JUndefined (Some (now - clock (3 + clockReads st))));;
         throw error)
      st2 /\
    activeRequests st2 = Map_set rid context (activeRequests st) /\
    calls st2 = calls st ++ requestCalls /\
    method context = endpointMethod e /\ url context = endpoint e /\
    Forall (fun c => isApiRequestCall c = true) requestCalls.
Proof.
  destruct (logRequest_run e requestData userId st)
    as (context & requestCalls & Hrequest & Hmethod & Hurl & Hcalls).
  eexists context, requestCalls, _. cbn zeta.
  split; [|split_and!; [| | done | done |]].
  - unfold withLogging.
    rewrite (bind_Return _ _ _ _ _ (lift_Return _ _ _ _ Hrequest)).
    rewrite (bind_Return _ _ _ _ _ (lift_Date_now _)).
    reflexivity.
  - reflexivity.
  - reflexivity.
  - rewrite Hcalls. destruct (logRequests environment); by repeat constructor.
Qed.

(** X12: When [fn()] fulfils, [withLogging] passes its result on, the response
    is logged with status 200 under the id the request was given, and the
    request is no longer tracked: a tracker that did not hold that id
    before is again what it was. *)
Theorem withLogging_fulfilled e fn requestData userId result st :
  settles fn (Return result) ->
  let rid := generatedId clock random st in
  exists st' shown elapsed requestCalls warnings,
    withLogging environment clock random e fn requestData userId st
    = (Return result, st') /\
    activeRequests st' = Map_delete rid (activeRequests st) /\
    (Map_get rid (activeRequests st) = None ->
     activeRequests st' = activeRequests st) /\
    calls st' = calls st ++ requestCalls ++ warnings ++
                [Call_apiResponse (endpointMethod e) (endpoint e) 200 shown
                   rid elapsed] /\
    Forall (fun c => isApiRequestCall c = true) requestCalls /\
    Forall (fun c => levelOf c = Logger.WARN) warnings.
Proof.
  intros Hsettles rid.
  destruct (withLogging_start e fn requestData userId st)
    as (context & requestCalls & st2 & Hstart & Hactive2 & Hcalls2 &
        Hmethod & Hurl & Hrequest).
  cbn zeta in Hstart, Hactive2. fold rid in Hstart, Hactive2.
  destruct (Hsettles st2) as (st3 & Hfn & Hactive3 & Hcalls3).
  assert (Map_get rid (activeRequests (afterReads 1 st3)) = Some context) as Hget.
  { cbn [afterReads activeRequests]. rewrite Hactive3, Hactive2.
    apply Map_get_set_eq. }
  destruct (logResponse_run e rid 200 result
              (Some (clock (clockReads st3) - clock (3 + clockReads st)))
              (afterReads 1 st3) context Hget)
    as (st' & shown & elapsed & warnings & Hrun & Hactive & Hcalls & Hwarn).
  exists st', shown, elapsed, requestCalls, warnings.
  assert (activeRequests st' = Map_delete rid (activeRequests st)) as Hdeleted.
  { rewrite Hactive. cbn [afterReads activeRequests].
    rewrite Hactive3, Hactive2. apply Map_delete_set. }
  split_and!.
  - rewrite Hstart. unfold tryCatch.
    rewrite (bind_Return _ _ _ _ _ Hfn).
    rewrite (bind_Return _ _ _ _ _ (lift_Date_now _)).
    rewrite (bind_Return _ _ _ _ _ (lift_Return _ _ _ _ Hrun)).
    reflexivity.
  - done.
  - intros Hfresh. rewrite Hdeleted. by apply Map_delete_absent.
  - rewrite Hcalls. cbn [afterReads calls]. rewrite Hcalls3, Hcalls2.
    rewrite <- Hmethod, <- Hurl. by rewrite <- app_assoc.
  - done.
  - done.
Qed.

(** X13: When [fn()] rejects with a value other than [null] and [undefined],
    [withLogging] rethrows that value.  The failure is logged once, as an
    API error under the request's id, which ends the tracking of the
    request; the [logResponse] call that follows therefore finds no
    context: it records the warning that no request context was found,
    and the status of the failure is logged nowhere. *)
Theorem withLogging_rejected e fn requestData userId reason st :
  settles fn (Throw reason) ->
  isNullish reason = false ->
  let rid := generatedId clock random st in
  exists st' errorData requestCalls,
    withLogging environment clock random e fn requestData userId st
    = (Throw reason, st') /\
    activeRequests st' = Map_delete rid (activeRequests st) /\
    calls st' = calls st ++ requestCalls ++
                [Call_apiError (endpointMethod e) (endpoint e) errorData rid;
                 Call_warn ("No request context found for response: " +:+ rid)
                   JUndefined None] /\
    Forall (fun c => isApiRequestCall c = true) requestCalls.
Proof.
  intros Hsettles Hreason rid.
  destruct (withLogging_start e fn requestData userId st)
    as (context & requestCalls & st2 & Hstart & Hactive2 & Hcalls2 &
        Hmethod & Hurl & Hrequest).
  cbn zeta in Hstart, Hactive2. fold rid in Hstart, Hactive2.
  destruct (Hsettles st2) as (st3 & Hfn & Hactive3 & Hcalls3).
  assert (Map_get rid (activeRequests (afterReads 1 st3)) = Some context) as Hget.
  { cbn [afterReads activeRequests]. rewrite Hactive3, Hactive2.
    apply Map_get_set_eq. }
  destruct (logError_known clock rid reason JUndefined (afterReads 1 st3)
              context Hget Hreason)
    as (st4 & errorData & Herror & Hactive4 & Hcalls4).
  destruct (getProp_returns reason "status" Hreason) as [status Hstatus].
  assert (Map_get rid (activeRequests st4) = None) as Hgone.
  { rewrite Hactive4. apply Map_get_delete_eq. }
  pose proof (logResponse_run_unknown e rid (statusOr500 status) JUndefined
                (Some (clock (clockReads st3) - clock (3 + clockReads st)))
                st4 Hgone) as Hresponse.
  eexists _, errorData, requestCalls.
  split_and!.
  - rewrite Hstart. unfold tryCatch.
    rewrite (bind_Throw _ _ _ _ _ Hfn).
    rewrite (bind_Return _ _ _ _ _ (lift_Date_now _)).
    rewrite (bind_Return _ _ _ _ _ (lift_Return _ _ _ _ Herror)).
    unfold mbind at 1, P_bind at 1, lift at 1, liftCompletion. rewrite Hstatus.
    rewrite (bind_Return _ _ _ _ _ (lift_Return _ _ _ _ Hresponse)).
    reflexivity.
  - cbn [recordCall afterReads activeRequests]. rewrite Hactive4.
    cbn [afterReads activeRequests]. rewrite Hactive3, Hactive2.
    apply Map_delete_set.
  - cbn [recordCall afterReads calls]. rewrite Hcalls4.
    cbn [afterReads calls]. rewrite Hcalls3, Hcalls2, <- Hmethod, <- Hurl.
    by rewrite <- !app_assoc.
  - done.
Qed.

(** X14: When [fn()] rejects with [null] or [undefined], reading the
    properties of that value inside [logError] throws: [withLogging]
    then throws the [TypeError] instead of the value [fn] rejected with,
    nothing is logged for the failure, and the request stays in the
    tracker. *)
Theorem withLogging_rejected_nullish e fn requestData userId reason st :
  settles fn (Throw reason) ->
  isNullish reason = true ->
  let rid := generatedId clock random st in
  exists st' error context requestCalls,
    withLogging environment clock random e fn requestData userId st
    = (Throw (thrownValue error), st') /\
    thrownValue error <> reason /\
    Map_get rid (activeRequests st') = Some context /\
    calls st' = calls st ++ requestCalls /\
    Forall (fun c => isApiRequestCall c = true) requestCalls.
Proof.
  intros Hsettles Hreason rid.
  destruct (withLogging_start e fn requestData userId st)
    as (context & requestCalls & st2 & Hstart & Hactive2 & Hcalls2 &
        Hmethod & Hurl & Hrequest).
  cbn zeta in Hstart, Hactive2. fold rid in Hstart, Hactive2.
  destruct (Hsettles st2) as (st3 & Hfn & Hactive3 & Hcalls3).
  destruct (logError_nullish_quiet rid reason JUndefined (afterReads 1 st3) Hreason)
    as (error & st4 & Herror & Hactive4 & Hcalls4).
  exists st4, error, context, requestCalls.
  split_and!.
  - rewrite Hstart. unfold tryCatch.
    rewrite (bind_Throw _ _ _ _ _ Hfn).
    rewrite (bind_Return _ _ _ _ _ (lift_Date_now _)).
    by rewrite (bind_Throw _ _ _ _ _ (lift_Throw _ _ _ _ Herror)).
  - destruct error, reason; done.
  - rewrite Hactive4. cbn [afterReads activeRequests].
    rewrite Hactive3, Hactive2. apply Map_get_set_eq.
  - rewrite Hcalls4. cbn [afterReads calls]. by rewrite Hcalls3, Hcalls2.
  - done.
Qed.

End WithWorld.

End EndpointLoggerFacts.

(** ** More on the tracker: what is logged where, and the oldest request *)

Module TrackerMoreFacts.
Import Js JsFacts ApiLogger TrackerFacts.

Section WithWorld.

Variable environment : string.
Variable clock : nat -> Z.
Variable random : nat -> string.


(** X16: [logRequest] always starts tracking the request under the id it
    returns.  What it writes to the log depends on the environment: in
    development one request entry whose headers and body went through
    [sanitizeData], while the query is logged as it came; anywhere else
    nothing. *)
Theorem logRequest_by_environment request st :
  exists rid st' context,
    logRequest environment clock random request st = (Return rid, st') /\
    Map_get rid (activeRequests st') = Some context /\
    (environment <> "development" -> calls st' = calls st) /\
    (environment = "development" ->
     exists logData,
       calls st' = calls st ++
         [Call_apiRequest (method (reqContext request)) (url (reqContext request))
            logData rid] /\
       getProp logData "headers" = Return (sanitizeData (headers request)) /\
       getProp logData "body" = Return (sanitizeData (body request)) /\
       getProp logData "query" = Return (query request)).
Proof.
  unfold logRequest, generateRequestId, Math_random_suffix, logRequests.
  run_method.
  destruct (decide (requestId (reqContext request) = EmptyString)) as [Hempty|Hgiven];
    simpl;
    (destruct (decide (environment = "development")) as [Henv|Henv];
     [rewrite bool_decide_eq_true_2 by done
     |rewrite bool_decide_eq_false_2 by done]);
    simpl; eexists _, _, _; (split; [reflexivity|]); simpl;
    (split; [apply Map_get_set_eq|]); (split; [done|]);
    intros Henv'; try done; eexists; by split_and!.
Qed.

End WithWorld.

(** The loop of [getActiveRequestsStats] keeps the smallest timestamp
    seen so far that is below the starting one, with the id of the first
    entry that has it. *)
Lemma statsStep_oldest active counts ts oldest :
  match foldl statsStep (counts, ts, oldest) active with
  | (_, ts', oldest') =>
      (ts' = ts /\ oldest' = oldest /\
       forall rid context, (rid, context) ∈ active -> ts <= timestamp context) \/
      (exists (i : nat) rid context,
         active !! i = Some (rid, context) /\
         oldest' = Some rid /\ ts' = timestamp context /\
         timestamp context < ts /\
         forall (j : nat) r c, active !! j = Some (r, c) ->
           timestamp context <= timestamp c /\
           ((j < i)%nat -> timestamp context < timestamp c))
  end.
Proof.
  revert counts ts oldest.
  induction active as [|[rid context] active IH]; intros counts ts oldest.
  { simpl. left. split_and!; [done | done |]. intros ? ? Hin. inversion Hin. }
  set (counts1 := <[method context := default 0 (counts !! method context) + 1]> counts).
  change (foldl statsStep (counts, ts, oldest) ((rid, context) :: active))
    with (foldl statsStep
            (if timestamp context <? ts
             then (counts1, timestamp context, Some rid)
             else (counts1, ts, oldest)) active).
  destruct (Z.ltb_spec (timestamp context) ts) as [Hlt|Hge].
  - specialize (IH counts1 (timestamp context) (Some rid)).
    destruct (foldl statsStep _ active) as [[counts' ts'] oldest'].
    destruct IH as [(-> & -> & Hrest)|(i & r & c & Hi & -> & -> & Hc & Hleast)].
    + right. exists 0%nat, rid, context.
      split_and!; [done | done | done | done |].
      intros [|j] r c Hj; simpl in Hj.
      * injection Hj as <- <-. split; [lia | lia].
      * split; [|lia]. eapply Hrest. by eapply list_elem_of_lookup_2.
    + right. exists (S i), r, c.
      split_and!; [done | done | done | lia |].
      intros [|j] r' c' Hj; simpl in Hj.
      * injection Hj as <- <-. split; [lia | intros _; lia].
      * destruct (Hleast j r' c' Hj) as [Hle Hstrict].
        split; [done | intros ?; apply Hstrict; lia].
  - specialize (IH counts1 ts oldest).
    destruct (foldl statsStep _ active) as [[counts' ts'] oldest'].
    destruct IH as [(-> & -> & Hrest)|(i & r & c & Hi & -> & -> & Hc & Hleast)].
    + left. split_and!; [done | done |].
      intros r c Hin. apply elem_of_cons in Hin as [[= -> ->]|Hin]; [done|].
      by eapply Hrest.
    + right. exists (S i), r, c.
      split_and!; [done | done | done | done |].
      intros [|j] r' c' Hj; simpl in Hj.
      * injection Hj as <- <-. split; [lia | intros _; lia].
      * destruct (Hleast j r' c' Hj) as [Hle Hstrict].
        split; [done | intros ?; apply Hstrict; lia].
Qed.

Section Stats.

Variable clock : nat -> Z.

(** X17: [getActiveRequestsStats] reports as oldest the request that has been
    tracked longest: the first entry, in insertion order, with the
    smallest timestamp, provided that timestamp lies before the clock
    reading the call starts with.  When every tracked request carries
    that reading or a later one, no oldest request is reported, however
    many are tracked. *)
Theorem getActiveRequestsStats_oldest st :
  exists stats st',
    getActiveRequestsStats clock st = (Return stats, st') /\
    total stats = length (activeRequests st) /\
    let now := clock (clockReads st) in
    match oldestRequest stats with
    | None =>
        forall rid context,
          (rid, context) ∈ activeRequests st -> now <= timestamp context
    | Some rid =>
        exists (i : nat) context,
          activeRequests st !! i = Some (rid, context) /\
          timestamp context < now /\
          forall (j : nat) r c, activeRequests st !! j = Some (r, c) ->
            timestamp context <= timestamp c /\
            ((j < i)%nat -> timestamp context < timestamp c)
    end.
Proof.
  unfold getActiveRequestsStats. run_method.
  pose proof (statsStep_oldest (activeRequests st) ∅ (clock (clockReads st)) None)
    as Hfold.
  destruct (foldl statsStep _ (activeRequests st)) as [[counts ts] oldest].
  eexists _, _. split; [reflexivity|]. simpl. split; [done|].
  destruct Hfold as [(_ & -> & Hall)|(i & rid & context & Hi & -> & _ & Hlt & Hleast)].
  - done.
  - by exists i, context.
Qed.

End Stats.

End TrackerMoreFacts.

(** ** Bookkeeping for the logger's buffer *)

Module LoggerLedgerFacts.
Import Js Logger LoggerFacts LoggerLedger.

Lemma failedWrites_app lines1 lines2 :
  failedWrites (lines1 ++ lines2) = failedWrites lines1 ++ failedWrites lines2.
Proof. unfold failedWrites. apply omap_app. Qed.

Lemma consoleLevels_app lines1 lines2 :
  consoleLevels (lines1 ++ lines2) = consoleLevels lines1 ++ consoleLevels lines2.
Proof. unfold consoleLevels. apply omap_app. Qed.

Lemma entriesOf_app l1 l2 : entriesOf (l1 ++ l2) = entriesOf l1 ++ entriesOf l2.
Proof. unfold entriesOf. apply map_app. Qed.

Lemma logToConsole_console s entry :
  failedWrites (console (logToConsole s entry)) = failedWrites (console s) /\
  consoleLevels (console (logToConsole s entry)) =
  consoleLevels (console s) ++
  (if enableConsoleLogging (config s) then [level entry] else []).
Proof.
  unfold logToConsole. destruct (enableConsoleLogging (config s)); simpl.
  - rewrite failedWrites_app, consoleLevels_app. simpl.
    destruct (level entry), (includeStackTrace (config s)); simpl;
      by rewrite ?app_nil_r.
  - by rewrite app_nil_r.
Qed.

(** Taking the head off one drain takes it off the drains. *)
Lemma concat_insert_tail {A : Type} (ls : list (list A)) i a rest :
  ls !! i = Some (a :: rest) -> concat ls ≡ₚ a :: concat (<[i := rest]> ls).
Proof.
  revert i. induction ls as [|l ls IH]; intros [|i] Hi; simpl in *; try done.
  - by injection Hi as ->.
  - rewrite (IH i Hi). by rewrite Permutation_middle.
Qed.

Lemma Accounted_initial cfg server sid : Accounted (initial cfg server sid).
Proof. by unfold Accounted. Qed.

Lemma Accounted_logToConsole s entry :
  Accounted s -> Accounted (logToConsole s entry).
Proof.
  unfold Accounted. intros Hs.
  destruct (logToConsole_fields s entry) as (_ & _ & _ & -> & -> & -> & -> & _).
  destruct (logToConsole_console s entry) as [-> _]. done.
Qed.

Lemma Accounted_pushEntry s entry : Accounted s -> Accounted (pushEntry s entry).
Proof.
  unfold Accounted. intros Hs. simpl.
  rewrite !entriesOf_app, Hs. by rewrite <- !app_assoc.
Qed.

Lemma Accounted_flushLogs s : Accounted s -> Accounted (flushLogs s).
Proof.
  unfold Accounted, flushLogs. intros Hs.
  destruct (logBuffer s) as [|p buffer] eqn:Hbuffer; [by rewrite Hbuffer|].
  simpl. rewrite concat_app. simpl. by rewrite !app_nil_r, entriesOf_app.
Qed.

Lemma Accounted_processLog s now l msg d src rid uid :
  Accounted s -> Accounted (processLog s now l msg d src rid uid).
Proof.
  intros Hs. unfold processLog.
  destruct (shouldLog s l); [|done].
  destruct (_ && _); [|by apply Accounted_logToConsole].
  destruct (_ <=? _).
  - by apply Accounted_flushLogs, Accounted_pushEntry, Accounted_logToConsole.
  - by apply Accounted_pushEntry, Accounted_logToConsole.
Qed.

Lemma Accounted_resumeDrain s i ok : Accounted s -> Accounted (resumeDrain s i ok).
Proof.
  unfold Accounted, resumeDrain. intros Hs.
  destruct (drains s !! i) as [[|p rest]|] eqn:Hdrain; try done.
  assert (entriesOf (concat (drains s))
          ≡ₚ snd p :: entriesOf (concat (<[i := rest]> (drains s)))) as Hdrains.
  { unfold entriesOf. rewrite <- map_cons. apply Permutation_map.
    by apply concat_insert_tail. }
  simpl. rewrite Hs, Hdrains.
  destruct ok.
  - rewrite entriesOf_app. simpl. rewrite <- !app_assoc. simpl.
    by rewrite <- !Permutation_middle.
  - rewrite failedWrites_app. simpl. rewrite <- !app_assoc. simpl.
    by rewrite <- !Permutation_middle.
Qed.

Lemma Accounted_run s actions : Accounted s -> Accounted (run s actions).
Proof.
  unfold run. revert s. induction actions as [|a actions IH]; intros s Hs; [done|].
  simpl. apply IH. destruct a; simpl.
  - by apply Accounted_processLog.
  - by apply Accounted_flushLogs.
  - by apply Accounted_resumeDrain.
Qed.

(** X18: No log entry gets lost without a trace.  After any sequence of log
    calls, flushes and file writes, every entry that was pushed onto the
    buffer is in exactly one place: written to the file, reported on the
    console as a failed write, still waiting in a drain, or still in the
    buffer.  Hence, once the buffer and the drains are empty and no write
    has failed, what has been written is what has been pushed. *)
Theorem pushed_entries_accounted cfg server sid actions :
  let s := run (initial cfg server sid) actions in
  entriesOf (pushes s) ≡ₚ
    entriesOf (written s) ++ failedWrites (console s) ++
    entriesOf (concat (drains s)) ++ entriesOf (logBuffer s) /\
  (logBuffer s = [] -> concat (drains s) = [] -> failedWrites (console s) = [] ->
   entriesOf (written s) ≡ₚ entriesOf (pushes s)).
Proof.
  intros s.
  assert (Accounted s) as Hs by apply Accounted_run, Accounted_initial.
  split; [exact Hs|].
  intros Hbuffer Hdrains Hfailed. unfold Accounted in Hs.
  rewrite Hbuffer, Hdrains, Hfailed in Hs. simpl in Hs.
  by rewrite app_nil_r in Hs.
Qed.

(** *** The level filter *)

Lemma config_run s actions :
  config (run s actions) = config s /\ isServer (run s actions) = isServer s.
Proof.
  unfold run. revert s. induction actions as [|a actions IH]; intros s; [done|].
  simpl. destruct (IH (step s a)) as [-> ->]. clear IH.
  destruct a as [now l msg d src rid uid| |i ok]; simpl.
  - unfold processLog.
    destruct (shouldLog s l); [|done].
    destruct (logToConsole_fields s (createLogEntry s now l msg d src rid uid))
      as (Hc & Hsrv & _).
    destruct (_ && _); [|done].
    destruct (_ <=? _); [|done].
    unfold flushLogs. by destruct (logBuffer _).
  - unfold flushLogs. by destruct (logBuffer s).
  - unfold resumeDrain. by destruct (drains s !! i) as [[|p rest]|].
Qed.

Lemma Filtered_step s a : Filtered s -> Filtered (step s a).
Proof.
  intros [Hconsole Hpushes].
  destruct a as [now l msg d src rid uid| |i ok]; simpl.
  - unfold processLog. destruct (shouldLog s l) eqn:Hlevel; [|done].
    unfold shouldLog in Hlevel. apply Z.leb_le in Hlevel.
    set (entry := createLogEntry s now l msg d src rid uid).
    destruct (logToConsole_fields s entry)
      as (Hc & Hsrv & _ & Hb & Hdr & Hwr & Hpu & Hsn).
    destruct (logToConsole_console s entry) as [_ Hlevels].
    assert (Filtered (logToConsole s entry)) as Hprinted.
    { split; rewrite Hc.
      - rewrite Hlevels. apply Forall_app. split; [done|].
        destruct (enableConsoleLogging (config s)); by repeat constructor.
      - by rewrite Hpu. }
    rewrite Hsrv, Hc.
    destruct (_ && _); [|done].
    assert (Filtered (pushEntry (logToConsole s entry) entry)) as Hpushed.
    { destruct Hprinted as [Hpc Hpp]. split; simpl; [done|].
      apply Forall_app. split; [done|]. constructor; [|done]. simpl.
      by rewrite Hc. }
    destruct (_ <=? _); [|done].
    unfold flushLogs.
    destruct (logBuffer (pushEntry (logToConsole s entry) entry)); done.
  - unfold flushLogs. by destruct (logBuffer s).
  - unfold resumeDrain, Filtered.
    destruct (drains s !! i) as [[|p rest]|]; try done. simpl.
    split; [|done]. destruct ok; [done|].
    rewrite consoleLevels_app. simpl. by rewrite app_nil_r.
Qed.

(** X19: The level filter and the file switch.  Whatever is logged, no message
    below the configured level is printed or pushed onto the buffer; and
    where file logging is off (in a browser, or by configuration) nothing
    is pushed, flushed or written at all. *)
Theorem processLog_filters cfg server sid actions :
  let s := run (initial cfg server sid) actions in
  Forall (fun l => levelValue (logLevel cfg) <= levelValue l)
         (consoleLevels (console s)) /\
  Forall (fun p => levelValue (logLevel cfg) <= levelValue (level (snd p)))
         (pushes s) /\
  (server && enableFileLogging cfg = false ->
   pushes s = [] /\ logBuffer s = [] /\ snapshots s = [] /\ written s = []).
Proof.
  intros s.
  assert (forall s0, Filtered s0 -> Filtered (run s0 actions)) as Hfiltered.
  { unfold run. induction actions as [|a actions IH]; intros s0 Hs0; [done|].
    simpl. by apply IH, Filtered_step. }
  destruct (Hfiltered (initial cfg server sid)) as [Hconsole Hpushes].
  { by split; constructor. }
  destruct (config_run (initial cfg server sid) actions) as [Hcfg Hsrv].
  fold s in Hconsole, Hpushes, Hcfg, Hsrv. rewrite Hcfg in Hconsole, Hpushes.
  split_and!; [done | done |].
  intros Hoff.
  assert (forall s0,
            isServer s0 && enableFileLogging (config s0) = false ->
            pushes s0 = [] /\ logBuffer s0 = [] /\ snapshots s0 = [] /\
            written s0 = [] /\ drains s0 = [] ->
            let s1 := run s0 actions in
            pushes s1 = [] /\ logBuffer s1 = [] /\ snapshots s1 = [] /\
            written s1 = [] /\ drains s1 = []) as Hnothing.
  { clear. unfold run. induction actions as [|a actions IH]; intros s0 Hoff Hs0;
      [done|].
    simpl. apply IH.
    - destruct (config_run s0 [a]) as [Hc Hsrv]. unfold run in Hc, Hsrv.
      simpl in Hc, Hsrv. by rewrite Hc, Hsrv.
    - destruct Hs0 as (Hp & Hb & Hsn & Hw & Hd).
      destruct a as [now l msg d src rid uid| |i ok]; simpl.
      + unfold processLog. destruct (shouldLog s0 l); [|done].
        set (entry := createLogEntry s0 now l msg d src rid uid).
        destruct (logToConsole_fields s0 entry)
          as (Hc & Hsrv & _ & Hb' & Hdr' & Hwr' & Hpu' & Hsn').
        rewrite Hsrv, Hc, Hoff. by rewrite Hb', Hdr', Hwr', Hpu', Hsn'.
      + unfold flushLogs. by rewrite Hb.
      + unfold resumeDrain. by rewrite Hd. }
  destruct (Hnothing (initial cfg server sid) Hoff) as (? & ? & ? & ? & _);
    by split_and!.
Qed.

End LoggerLedgerFacts.

(** ** The logger's API methods *)

Module LoggerMethodsFacts.
Import Js JsFacts Logger LoggerMethods.


End LoggerMethodsFacts.

(** ** Log files *)

Module LogFilesFacts.
Import LogFiles.

Section Sorting.

Context {A : Type} (compare : A -> A -> Z).

Lemma insertBy_Permutation x sorted : insertBy compare x sorted ≡ₚ x :: sorted.
Proof.
  induction sorted as [|y rest IH]; simpl; [done|].
  destruct (compare x y <=? 0); [done|].
  rewrite IH. apply Permutation_swap.
Qed.

Lemma sortBy_Permutation arr : sortBy compare arr ≡ₚ arr.
Proof.
  induction arr as [|x arr IH]; simpl; [done|].
  by rewrite insertBy_Permutation, IH.
Qed.

End Sorting.

Lemma insertBy_sorted x sorted :
  newestFirstSorted sorted -> newestFirstSorted (insertBy newestFirst x sorted).
Proof.
  induction sorted as [|y rest IH]; intros Hsorted; simpl.
  { by split. }
  destruct Hsorted as [Hy Hrest].
  unfold newestFirst at 1.
  destruct (Z.leb_spec (mtime y - mtime x) 0) as [Hle|Hgt]; simpl.
  - split; [|by split].
    constructor; [lia|].
    eapply Forall_impl; [exact Hy|]. simpl. intros z Hz. lia.
  - split; [|by apply IH].
    rewrite insertBy_Permutation. constructor; [lia | done].
Qed.

Lemma sortBy_sorted files : newestFirstSorted (sortBy newestFirst files).
Proof.
  induction files as [|x files IH]; simpl; [done|].
  by apply insertBy_sorted.
Qed.

Lemma sorted_take_drop files n kept deleted :
  newestFirstSorted files ->
  kept ∈ take n files -> deleted ∈ drop n files -> mtime deleted <= mtime kept.
Proof.
  revert n.
  induction files as [|f files IH]; intros n Hsorted Hkept Hdeleted.
  { rewrite take_nil in Hkept. inversion Hkept. }
  destruct Hsorted as [Hf Hrest].
  destruct n as [|n]; simpl in *; [inversion Hkept|].
  apply elem_of_cons in Hkept as [->|Hkept].
  - eapply Forall_forall in Hf; [exact Hf|].
    eapply elem_of_sublist; [exact Hdeleted | apply sublist_drop].
  - by eapply IH.
Qed.

Lemma foldl_unlink directory files f :
  f ∈ foldl unlink directory files <->
  f ∈ directory /\ fileName f ∉ map fileName files.
Proof.
  revert directory. induction files as [|file files IH]; intros directory; simpl.
  - split; [intros ?; split; [done | by intros ?%elem_of_nil] | by intros []].
  - rewrite IH. unfold unlink. rewrite list_elem_of_filter, not_elem_of_cons.
    tauto.
Qed.

Lemma foldl_unlink_sublist directory files :
  foldl unlink directory files `sublist_of` directory.
Proof.
  revert directory. induction files as [|file files IH]; intros directory; simpl.
  - done.
  - etrans; [apply IH|]. apply sublist_filter.
Qed.

Lemma sliceFrom_drop {A : Type} (start : Z) (arr : list A) :
  0 <= start -> sliceFrom start arr = drop (Z.to_nat start) arr.
Proof.
  intros Hstart. unfold sliceFrom.
  destruct (Z.ltb_spec start 0) as [|_]; [lia|].
  destruct (Z.min_spec start (Z.of_nat (length arr))) as [[_ ->]|[Hge ->]]; [done|].
  rewrite Nat2Z.id. rewrite !drop_ge; [done | lia | lia].
Qed.

(** X21: What the cleanup keeps and what it deletes.  With [maxLogFiles >= 0]
    and file names that are distinct: files that are not [.log] files are
    never deleted; of the [.log] files the [maxLogFiles] newest stay (all
    of them if there are fewer); and every [.log] file that stays is at
    least as new as every file that is deleted. *)
Theorem cleanupOldLogsServer_keeps_newest maxLogFiles directory :
  NoDup (map fileName directory) ->
  0 <= maxLogFiles ->
  let after := cleanupOldLogsServer maxLogFiles directory in
  let logs := filter (fun f => isLogFile f = true) directory in
  after `sublist_of` directory /\
  (forall f, f ∈ directory -> isLogFile f = false -> f ∈ after) /\
  length (filter (fun f => isLogFile f = true) after)
  = Nat.min (length logs) (Z.to_nat maxLogFiles) /\
  (forall kept deleted,
     kept ∈ after -> isLogFile kept = true ->
     deleted ∈ directory -> deleted ∉ after ->
     mtime deleted <= mtime kept).
Proof.
  intros Hnames Hmax after logs.
  set (sorted := sortBy newestFirst logs).
  set (n := Z.to_nat maxLogFiles).
  assert (sorted ≡ₚ logs) as Hperm by apply sortBy_Permutation.
  assert (newestFirstSorted sorted) as Hsorted by apply sortBy_sorted.
  assert (NoDup directory) as Hnodup by (by eapply NoDup_fmap_1).
  assert (NoDup sorted) as Hnodup_sorted.
  { rewrite Hperm. by apply NoDup_filter. }
  assert (forall f, f ∈ sorted <-> f ∈ directory /\ isLogFile f = true) as Hin_sorted.
  { intros f. rewrite Hperm. unfold logs. rewrite list_elem_of_filter. tauto. }
  assert (filesToDelete maxLogFiles directory = drop n sorted) as Hdelete.
  { unfold filesToDelete. fold logs. fold sorted. by apply sliceFrom_drop. }
  assert (forall f, f ∈ after <-> f ∈ directory /\ f ∉ drop n sorted) as Hin_after.
  { intros f. unfold after, cleanupOldLogsServer. rewrite Hdelete, foldl_unlink.
    split; intros [Hf Hout]; (split; [done|]).
    - intros Hdrop. apply Hout. apply list_elem_of_fmap. by exists f.
    - intros Hname. apply list_elem_of_fmap in Hname as (g & Hsame & Hg).
      assert (g ∈ directory) as Hg'.
      { apply Hin_sorted. eapply elem_of_sublist; [exact Hg | apply sublist_drop]. }
      apply list_elem_of_lookup in Hf as [i Hi].
      apply list_elem_of_lookup in Hg' as [j Hj].
      assert (i = j).
      { eapply (NoDup_lookup _ i j (fileName f)); [exact Hnames | |].
        - by rewrite list_lookup_fmap, Hi.
        - rewrite list_lookup_fmap, Hj. simpl. by rewrite Hsame. }
      subst j. assert (f = g) by congruence. subst g. done. }
  assert (forall f, f ∈ sorted -> f ∈ take n sorted \/ f ∈ drop n sorted) as Hsplit.
  { intros f. rewrite <- (take_drop n sorted) at 1. by rewrite elem_of_app. }
  assert (forall f, f ∈ take n sorted -> f ∉ drop n sorted) as Hdisjoint.
  { intros f Htake Hdrop. rewrite <- (take_drop n sorted) in Hnodup_sorted.
    apply NoDup_app in Hnodup_sorted as (_ & Hdis & _). by apply (Hdis f). }
  split_and!.
  - apply foldl_unlink_sublist.
  - intros f Hf Hlog. apply Hin_after. split; [done|]. intros Hdrop.
    assert (f ∈ sorted) as Hs.
    { eapply elem_of_sublist; [exact Hdrop | apply sublist_drop]. }
    apply Hin_sorted in Hs as [_ Hs]. congruence.
  - assert (filter (fun f => isLogFile f = true) after ≡ₚ take n sorted) as Hkept.
    { apply NoDup_Permutation.
      - apply NoDup_filter.
        eapply sublist_NoDup; [exact Hnodup | apply foldl_unlink_sublist].
      - eapply sublist_NoDup; [exact Hnodup_sorted | apply sublist_take].
      - intros f. rewrite list_elem_of_filter, Hin_after. split.
        + intros (Hlog & Hf & Hout).
          destruct (Hsplit f) as [|]; [by apply Hin_sorted | done | done].
        + intros Htake. assert (f ∈ sorted) as Hs.
          { eapply elem_of_sublist; [exact Htake | apply sublist_take]. }
          apply Hin_sorted in Hs as [Hf Hlog]. split_and!; [done | done |].
          by apply Hdisjoint. }
    rewrite Hkept, length_take. rewrite Hperm. unfold n. lia.
  - intros kept deleted Hkept Hlog Hdeleted Hgone.
    apply Hin_after in Hkept as [Hkept_dir Hkept_out].
    assert (kept ∈ take n sorted) as Htake.
    { destruct (Hsplit kept) as [|]; [by apply Hin_sorted | done | done]. }
    assert (deleted ∈ drop n sorted) as Hdrop.
    { destruct (decide (deleted ∈ drop n sorted)) as [|Hout]; [done|].
      exfalso. apply Hgone. by apply Hin_after. }
    by eapply sorted_take_drop.
Qed.

End LogFilesFacts.

(** ** Request headers *)

Module HeadersFacts.
Import ApiLogger TrackerFacts EndpointLoggerFacts Headers.

Lemma Map_get_assignAll key base b :
  Map_wf b ->
  Map_get key (assignAll base b) =
  match Map_get key b with
  | Some value => Some value
  | None => Map_get key base
  end.
Proof.
  revert base. induction b as [|[k v] b IH]; intros base Hwf; [done|].
  cbn [assignAll foldl]. fold (assignAll (Map_set k v base) b).
  unfold Map_wf in Hwf. simpl in Hwf. apply NoDup_cons in Hwf as [Hk Hwf].
  rewrite IH by done.
  unfold Map_get at 2. simpl. fold (Map_get key b).
  destruct (decide (k = key)) as [->|Hne].
  - assert (Map_get key b = None) as -> by (by apply Map_get_None).
    apply Map_get_set_eq.
  - destruct (Map_get key b); [done|]. by apply Map_get_set_ne.
Qed.

Lemma forwardedHeaders_skips requestHeaders key :
  lower key ∈ skipHeaders -> Map_get key (forwardedHeaders requestHeaders) = None.
Proof.
  intros Hskip. unfold forwardedHeaders.
  assert (forall headers,
            Map_get key headers = None ->
            Map_get key
              (foldl (fun headers '(key, value) =>
                        if bool_decide (lower key ∈ skipHeaders) then headers
                        else assign key value headers) headers requestHeaders)
            = None) as Hgen; [|by apply Hgen].
  induction requestHeaders as [|[k v] rest IH]; intros headers Hnone; [done|].
  simpl. apply IH.
  destruct (bool_decide (lower k ∈ skipHeaders)) eqn:Hk; [done|].
  apply bool_decide_eq_false in Hk. unfold assign.
  destruct (decide (k = "__proto__")); [done|].
  rewrite Map_get_set_ne; [done|]. by intros ->.
Qed.

Lemma forwardedHeaders_last requestHeaders key :
  lower key ∉ skipHeaders -> key <> "__proto__" ->
  Map_get key (forwardedHeaders requestHeaders)
  = last (map snd (filter (fun header => fst header = key) requestHeaders)).
Proof.
  intros Hkeep Hproto. unfold forwardedHeaders.
  induction requestHeaders as [|[k v] rest IH] using rev_ind; [done|].
  rewrite foldl_app, filter_app, map_app. cbn [foldl].
  destruct (decide (k = key)) as [->|Hne].
  - rewrite filter_cons_True, filter_nil by done. cbn [map fst snd].
    rewrite last_snoc.
    rewrite bool_decide_eq_false_2 by done. unfold assign.
    rewrite decide_False by done. apply Map_get_set_eq.
  - rewrite filter_cons_False, filter_nil, app_nil_r by done.
    rewrite <- IH. destruct (bool_decide (lower k ∈ skipHeaders)); [done|].
    unfold assign. destruct (decide (k = "__proto__")); [done|].
    by apply Map_get_set_ne.
Qed.

(** X22: The headers of the proxied request, as properties of the object that
    is handed to the HTTP client (property names are compared letter for
    letter, case included).  A header the authentication sets has the
    value the authentication gives it, whatever the client sent under
    that name.  Of the client's headers, those whose lower-cased name is
    on the skip list ([host], [origin], [referer], [content-length],
    [transfer-encoding]) are not passed on; the others are, with the last
    value the client gave them, unless the authentication sets a header
    of exactly that name. *)
Theorem finalHeaders_auth_wins requestHeaders authHeaders :
  Map_wf authHeaders ->
  let final := finalHeaders requestHeaders authHeaders in
  (forall key value,
     Map_get key authHeaders = Some value -> Map_get key final = Some value) /\
  (forall key,
     Map_get key authHeaders = None -> lower key ∈ skipHeaders ->
     Map_get key final = None) /\
  (forall key,
     Map_get key authHeaders = None ->
     lower key ∉ skipHeaders -> key <> "__proto__" ->
     Map_get key final
     = last (map snd (filter (fun header => fst header = key) requestHeaders))).
Proof.
  intros Hwf final. subst final. unfold finalHeaders, spread.
  assert (Map_wf (forwardedHeaders requestHeaders)) as Hforwarded.
  { unfold forwardedHeaders.
    assert (forall headers : HeaderObject,
              Map_wf headers ->
              Map_wf (foldl (fun headers '(key, value) =>
                               if bool_decide (lower key ∈ skipHeaders) then headers
                               else assign key value headers)
                            headers requestHeaders)) as Hgen.
    { induction requestHeaders as [|[k v] rest IH]; intros headers Hh; [done|].
      simpl. apply IH. destruct (bool_decide _); [done|]. unfold assign.
      destruct (decide _); [done | by apply Map_set_wf]. }
    apply Hgen. constructor. }
  assert (forall key,
            Map_get key (assignAll [] (forwardedHeaders requestHeaders))
            = Map_get key (forwardedHeaders requestHeaders)) as Hcopy.
  { intros key. rewrite Map_get_assignAll by done.
    by destruct (Map_get key (forwardedHeaders requestHeaders)). }
  split_and!.
  - intros key value Hauth.
    by rewrite Map_get_assignAll, Hauth.
  - intros key Hauth Hskip.
    rewrite Map_get_assignAll, Hauth, Hcopy by done.
    by apply forwardedHeaders_skips.
  - intros key Hauth Hkeep Hproto.
    rewrite Map_get_assignAll, Hauth, Hcopy by done.
    by apply forwardedHeaders_last.
Qed.

(** X23: The two header sets of [getHeaders] agree: the browser set is the
    server set without the five headers a browser controls itself, in the
    same order and with the same values; both carry the bearer token and
    the device id. *)
Theorem browserHeaders_serverHeaders token deviceId :
  browserHeaders token deviceId
  = filter (fun header => fst header ∉ browserControlled)
           (serverHeaders token deviceId) /\
  Map_wf (serverHeaders token deviceId) /\
  Map_get "Tn" (browserHeaders token deviceId) = Some ("Bearer " +:+ token) /\
  Map_get "Device-Id" (browserHeaders token deviceId) = Some deviceId.
Proof.
  split_and!; [| | done | done].
  - unfold serverHeaders, browserHeaders, browserControlled.
    repeat first
      [ rewrite filter_nil
      | rewrite filter_cons_True by (simpl; by apply (bool_decide_unpack _))
      | rewrite filter_cons_False
          by (simpl; intros Hout; apply Hout; by apply (bool_decide_unpack _)) ].
    reflexivity.
  - unfold Map_wf, serverHeaders. simpl. by apply (bool_decide_unpack _).
Qed.

End HeadersFacts.

(** ** The token and its cache *)

Module TokenFacts.
Import Js Token.

Section WithWorld.

Variable isBrowser : bool.
Variable clock : nat -> Z.
Variable JSON_parse : string -> option TokenCache.
Variable setItemError : string -> option JsVal.
Variable tokenRequest : nat -> string -> AxiosOutcome.

Abbreviation readCache := (readCache isBrowser clock JSON_parse).
Abbreviation saveCache := (saveCache isBrowser setItemError).
Abbreviation fetchToken := (fetchToken isBrowser clock JSON_parse setItemError tokenRequest).
Abbreviation getToken := (getToken isBrowser clock JSON_parse setItemError tokenRequest).

Abbreviation tokenUrl := (tokenUrl isBrowser).

(** What [readCache] does, case by case. *)
Lemma readCache_run s :
  (readCache s = (Return None, s) /\
   (isBrowser = true ->
    forall text cache, localStorage s = Some text -> text <> EmptyString ->
                       JSON_parse text <> Some cache)) \/
  (exists text cache s',
     isBrowser = true /\ localStorage s = Some text /\ text <> EmptyString /\
     JSON_parse text = Some cache /\
     clockReads s' = S (clockReads s) /\ requests s' = requests s /\
     events s' = events s /\
     ((clock (clockReads s) - timestamp cache < 3600000 /\
       readCache s = (Return (Some cache), s') /\
       localStorage s' = localStorage s) \/
      (3600000 <= clock (clockReads s) - timestamp cache /\
       readCache s = (Return None, s') /\ localStorage s' = None))).
Proof.
  unfold Token.readCache.
  destruct isBrowser; simpl; [|left; split; [done | discriminate]].
  unfold mbind, T_bind, getItem.
  destruct (localStorage s) as [text|] eqn:Hitem;
    [|left; split; [done | intros _ ? ? [=]]].
  destruct (bool_decide (text = EmptyString)) eqn:Hempty.
  { apply bool_decide_eq_true in Hempty. left. split; [done|].
    intros _ ? ? [= <-] Hne. done. }
  apply bool_decide_eq_false in Hempty.
  destruct (JSON_parse text) as [parsed|] eqn:Hparse.
  2:{ left. split; [done|]. intros _ ? ? [= <-] _. congruence. }
  right. unfold Date_now. cbn [mret T_ret].
  destruct (clock (clockReads s) - timestamp parsed <? 3600000) eqn:Hfresh.
  - apply Z.ltb_lt in Hfresh.
    exists text, parsed,
      {| localStorage := localStorage s; clockReads := S (clockReads s);
         requests := requests s; events := events s |}.
    split_and!; try done. left. by rewrite Hitem.
  - apply Z.ltb_ge in Hfresh.
    exists text, parsed,
      {| localStorage := None; clockReads := S (clockReads s);
         requests := requests s; events := events s |}.
    split_and!; try done. by right.
Qed.

Lemma getsOf_app evs evs' : getsOf (evs ++ evs') = getsOf evs ++ getsOf evs'.
Proof. unfold getsOf. apply filter_app. Qed.

Lemma invalidResponse_run data s :
  ApiLogger.isNullish data = false ->
  invalidResponse data s
  = (Return (negb (truthy (tokenOf data) && truthy (deviceIdOf data))), s).
Proof.
  intros Hdata. unfold invalidResponse, tokenOf, deviceIdOf, mbind, T_bind, prop.
  destruct data as [| | | | |items|entries]; try done.
  simpl. destruct (default JUndefined (assoc "data" entries)) as [| |[]|n|str|?|inner];
    simpl; try done.
  - destruct (n =? 0); simpl; done.
  - destruct (bool_decide (str = EmptyString)); done.
  - destruct (truthy (default JUndefined (assoc "token" inner))); done.
Qed.

Lemma valid_shape data :
  truthy (tokenOf data) = true ->
  exists entries inner,
    data = JObj entries /\ default JUndefined (assoc "data" entries) = JObj inner.
Proof.
  unfold tokenOf. destruct data as [| | | | | |entries]; try done.
  simpl. destruct (default JUndefined (assoc "data" entries)) as [| | | | | |inner] eqn:Hinner;
    try done.
  intros _. by exists entries, inner.
Qed.

(** The state in which [saveCache] runs after a valid response. *)
Lemma fetchToken_valid s s1 status data :
  readCache s = (Return None, s1) ->
  tokenRequest (requests s1) tokenUrl = Resolved status data ->
  truthy (tokenOf data) = true ->
  truthy (deviceIdOf data) = true ->
  let tokenData :=
    {| token := tokenOf data; deviceId := deviceIdOf data;
       timestamp := clock (clockReads s1) |} in
  exists printed,
    getsOf printed = [AxiosGet tokenUrl] /\
    fetchToken s
    = (saveCache tokenData ;; mret tokenData)
        {| localStorage := localStorage s1; clockReads := S (clockReads s1);
           requests := S (requests s1); events := events s1 ++ printed |}.
Proof.
  intros Hread Hreq Htoken Hdevice tokenData.
  destruct (valid_shape data Htoken) as (entries & inner & -> & Hinner).
  exists [ConsoleLog "Fetching new token from API..." [];
          AxiosGet tokenUrl;
          ConsoleLog "Token API response status:" [JNum status];
          ConsoleLog "Token API response data keys:"
            [JArr (map JStr (objectKeys (jsOr (JObj entries) (JObj []))))];
          ConsoleLog "New token generated:"
            [JObj [("tokenLength", lengthOf (tokenOf (JObj entries)));
                   ("deviceId", deviceIdOf (JObj entries));
                   ("timestamp", JNum (clock (clockReads s1)))]]].
  split; [reflexivity|].
  unfold Token.fetchToken. unfold mbind at 1, T_bind at 1. rewrite Hread.
  unfold mbind at 1, T_bind at 1. cbn [consoleLog emit].
  unfold mbind at 1, T_bind at 1. unfold axiosGet at 1.
  cbn [requests]. fold tokenUrl. rewrite Hreq.
  unfold mbind at 1, T_bind at 1. cbn [consoleLog emit].
  unfold mbind at 1, T_bind at 1. cbn [consoleLog emit].
  unfold mbind at 1, T_bind at 1.
  rewrite invalidResponse_run by done. rewrite Htoken, Hdevice. cbn [andb negb].
  unfold mbind at 1, T_bind at 1. unfold prop at 1. cbn [getProp]. rewrite Hinner.
  unfold mbind at 1, T_bind at 1. unfold prop at 1. cbn [getProp].
  unfold mbind at 1, T_bind at 1. unfold prop at 1. cbn [getProp].
  unfold mbind at 1, T_bind at 1. unfold Date_now at 1.
  cbn [clockReads localStorage requests events].
  unfold mbind at 1, T_bind at 1. cbn [consoleLog emit].
  cbn [clockReads localStorage requests events].
  unfold tokenData, tokenOf, deviceIdOf. cbn [getPropOpt]. rewrite Hinner.
  cbn [getPropOpt]. rewrite <- !app_assoc. reflexivity.
Qed.

Lemma saveCache_run data s :
  exists out s',
    saveCache data s = (out, s') /\
    clockReads s' = clockReads s /\ requests s' = requests s /\
    getsOf (events s') = getsOf (events s) /\
    (isBrowser = false -> out = Return tt /\ s' = s) /\
    (isBrowser = true -> setItemError (storedText data) = None ->
     out = Return tt /\ localStorage s' = Some (storedText data) /\
     events s' = events s) /\
    (forall error,
       isBrowser = true -> setItemError (storedText data) = Some error ->
       localStorage s' = localStorage s /\
       (ApiLogger.isNullish error = false -> out = Return tt)).
Proof.
  unfold Token.saveCache. destruct isBrowser; cbn [negb].
  2:{ exists (Return tt), s. split_and!; try done. }
  unfold tryCatch, setItem. fold (storedText data).
  destruct (setItemError (storedText data)) as [error|] eqn:Herror.
  - unfold mbind, T_bind, prop.
    destruct (getProp error "message") as [message|e] eqn:Hmessage.
    + eexists _, _. split; [reflexivity|]. cbn [consoleError emit].
      cbn [clockReads requests events localStorage].
      split_and!; try done. by rewrite getsOf_app, app_nil_r.
    + exists (Throw (thrownValue e)), s. split_and!; try done.
      intros error' _ [= <-]. split; [done|]. by destruct error.
  - eexists _, _. split; [reflexivity|]. simpl. split_and!; try done.
Qed.

Lemma reportAndRethrow_run error s :
  exists out s',
    reportAndRethrow error s = (Throw out, s') /\
    localStorage s' = localStorage s /\ clockReads s' = clockReads s /\
    requests s' = requests s /\ getsOf (events s') = getsOf (events s) /\
    (ApiLogger.isNullish error = false -> out = error).
Proof.
  unfold reportAndRethrow, mbind, T_bind, prop.
  destruct (getProp error "message") as [message|e] eqn:Hmessage.
  2:{ exists (thrownValue e), s. split_and!; try done. by destruct error. }
  cbn [consoleError emit].
  destruct (getProp error "response") as [response|e] eqn:Hresponse.
  2:{ by destruct error. }
  destruct (truthy response) eqn:Htruthy.
  - destruct (getProp response "data") as [data|e] eqn:Hdata.
    2:{ by destruct response. }
    cbn [consoleError emit].
    destruct (getProp response "status") as [status|e] eqn:Hstatus.
    2:{ by destruct response. }
    cbn [consoleError emit throw].
    eexists _, _. split; [reflexivity|].
    cbn [clockReads requests events localStorage].
    split_and!; try done. by rewrite !getsOf_app, !app_nil_r.
  - cbn [mret T_ret throw].
    eexists _, _. split; [reflexivity|].
    cbn [clockReads requests events localStorage].
    split_and!; try done. by rewrite !getsOf_app, !app_nil_r.
Qed.

(** The [try] block when nothing usable is cached and the response does
    not yield a token. *)
Lemma fetchToken_failed s s1 :
  readCache s = (Return None, s1) ->
  (forall status data,
     tokenRequest (requests s1) tokenUrl = Resolved status data ->
     truthy (tokenOf data) && truthy (deviceIdOf data) = false) ->
  exists printed,
    getsOf printed = [AxiosGet tokenUrl] /\
    fetchToken s
    = (Throw
         match tokenRequest (requests s1) tokenUrl with
         | Rejected error => error
         | Resolved _ data =>
           match getProp data "data" with
           | Throw e => thrownValue e
           | Return _ => newError error_invalid_token
           end
         end,
       {| localStorage := localStorage s1; clockReads := clockReads s1;
          requests := S (requests s1); events := events s1 ++ printed |}).
Proof.
  intros Hread Hinvalid.
  unfold Token.fetchToken. unfold mbind at 1, T_bind at 1. rewrite Hread.
  unfold mbind at 1, T_bind at 1. cbn [consoleLog emit].
  unfold mbind at 1, T_bind at 1. unfold axiosGet at 1.
  cbn [requests]. fold tokenUrl.
  destruct (tokenRequest (requests s1) tokenUrl) as [status data|error] eqn:Hreq.
  2:{ exists [ConsoleLog "Fetching new token from API..." []; AxiosGet tokenUrl].
      split; [reflexivity|]. cbn [localStorage clockReads requests events].
      by rewrite <- !app_assoc. }
  specialize (Hinvalid status data eq_refl).
  unfold mbind at 1, T_bind at 1. cbn [consoleLog emit].
  unfold mbind at 1, T_bind at 1. cbn [consoleLog emit].
  unfold mbind at 1, T_bind at 1.
  destruct (ApiLogger.isNullish data) eqn:Hnullish.
  - exists [ConsoleLog "Fetching new token from API..." [];
            AxiosGet tokenUrl;
            ConsoleLog "Token API response status:" [JNum status];
            ConsoleLog "Token API response data keys:"
              [JArr (map JStr (objectKeys (jsOr data (JObj []))))]].
    split; [reflexivity|].
    unfold invalidResponse, mbind, T_bind, prop.
    destruct data; try done; cbn [getProp localStorage clockReads requests events];
      by rewrite <- !app_assoc.
  - exists [ConsoleLog "Fetching new token from API..." [];
            AxiosGet tokenUrl;
            ConsoleLog "Token API response status:" [JNum status];
            ConsoleLog "Token API response data keys:"
              [JArr (map JStr (objectKeys (jsOr data (JObj []))))];
            ConsoleError "Invalid token response:" [data]].
    split; [reflexivity|].
    rewrite invalidResponse_run by done. rewrite Hinvalid. cbn [negb].
    unfold mbind at 1, T_bind at 1. cbn [consoleError emit throw].
    cbn [localStorage clockReads requests events].
    assert (exists inner, getProp data "data" = Return inner) as [inner ->]
      by (destruct data; try done; by eexists).
    by rewrite <- !app_assoc.
Qed.

Lemma storedText_nonempty c : storedText c <> EmptyString.
Proof. unfold storedText. simpl. discriminate. Qed.

(** The [try] block when the cache is fresh. *)
Lemma fetchToken_cached s s1 cache :
  readCache s = (Return (Some cache), s1) ->
  fetchToken s
  = (Return cache,
     {| localStorage := localStorage s1; clockReads := clockReads s1;
        requests := requests s1;
        events := events s1 ++
          [ConsoleLog "Using cached token, expires at:"
             [JNum (timestamp cache + 3600000)]] |}).
Proof.
  intros Hread. unfold Token.fetchToken. unfold mbind at 1, T_bind at 1.
  by rewrite Hread.
Qed.

(** X24: [readCache] does not throw.  It returns a token only in the browser,
    only the one stored, and only while it is less than an hour old; it
    leaves the storage as it is, except that it removes a stored token
    that is an hour old or older.  It prints nothing and requests
    nothing. *)
Theorem readCache_only_fresh s :
  exists result s',
    readCache s = (Return result, s') /\
    events s' = events s /\ requests s' = requests s /\
    match result with
    | Some cache =>
        isBrowser = true /\
        (exists text, localStorage s = Some text /\ JSON_parse text = Some cache) /\
        clock (clockReads s) - timestamp cache < 3600000 /\
        localStorage s' = localStorage s
    | None =>
        localStorage s' = localStorage s \/
        (localStorage s' = None /\
         exists text cache,
           localStorage s = Some text /\ JSON_parse text = Some cache /\
           3600000 <= clock (clockReads s) - timestamp cache)
    end.
Proof.
  destruct (readCache_run s)
    as [[Hrun _]|(text & cache & s' & Hb & Hitem & Hne & Hparse & _ & Hreq & Hev
                  & [(Hfresh & Hrun & Hst)|(Hold & Hrun & Hst)])].
  - exists None, s. split_and!; try done. by left.
  - exists (Some cache), s'. split_and!; try done. by exists text.
  - exists None, s'. split_and!; try done. right. split; [done|].
    by exists text, cache.
Qed.

(** X25: [getToken] makes no request when [readCache] yields a token and
    exactly one otherwise, to [/api/token] in the browser and to the
    deployed token service on the server, whether it then returns or
    throws.  On the server nothing is ever cached: every call makes its
    request and the storage is left alone. *)
Theorem getToken_requests s :
  exists out s',
    getToken s = (out, s') /\
    getsOf (events s') =
      getsOf (events s) ++
      match fst (readCache s) with
      | Return (Some _) => []
      | _ => [AxiosGet tokenUrl]
      end /\
    (isBrowser = false ->
     localStorage s' = localStorage s /\
     getsOf (events s') = getsOf (events s) ++ [AxiosGet serverTokenUrl]).
Proof.
  assert (forall s1, readCache s = (Return None, s1) ->
            events s1 = events s ->
            (isBrowser = false -> localStorage s1 = localStorage s) ->
            exists out s',
              getToken s = (out, s') /\
              getsOf (events s') = getsOf (events s) ++ [AxiosGet tokenUrl] /\
              (isBrowser = false -> localStorage s' = localStorage s)) as Hmiss.
  { intros s1 Hread Hev Hst. unfold Token.getToken, tryCatch.
    destruct (tokenRequest (requests s1) tokenUrl) as [status data|error] eqn:Hreq.
    - destruct (truthy (tokenOf data) && truthy (deviceIdOf data)) eqn:Hvalid.
      + apply andb_true_iff in Hvalid as [Htoken Hdevice].
        destruct (fetchToken_valid s s1 status data Hread Hreq Htoken Hdevice)
          as (printed & Hgets & ->).
        unfold mbind, T_bind.
        match goal with
        | |- context [saveCache ?d ?st] =>
            destruct (saveCache_run d st)
              as (out & s2 & -> & _ & _ & Hgets2 & Hserver & _ & Hfail)
        end.
        cbn [events localStorage] in *.
        destruct out as [[]|error].
        * eexists _, _. split; [reflexivity|].
          rewrite Hgets2, getsOf_app, Hgets, Hev. split; [done|].
          intros Hb. destruct (Hserver Hb) as [_ ->]. by apply Hst.
        * destruct (reportAndRethrow_run error s2)
            as (out & s3 & -> & Hst3 & _ & _ & Hgets3 & _).
          eexists _, _. split; [reflexivity|].
          rewrite Hgets3, Hgets2, getsOf_app, Hgets, Hev. split; [done|].
          intros Hb. destruct (Hserver Hb) as [[=] _].
      + destruct (fetchToken_failed s s1 Hread) as (printed & Hgets & ->).
        { intros status' data'. rewrite Hreq. by intros [= <- <-]. }
        match goal with
        | |- context [reportAndRethrow ?e ?st] =>
            destruct (reportAndRethrow_run e st)
              as (out & s3 & -> & Hst3 & _ & _ & Hgets3 & _)
        end.
        cbn [events localStorage] in *.
        eexists _, _. split; [reflexivity|].
        rewrite Hgets3, getsOf_app, Hgets, Hev, Hst3. split; [done|]. done.
    - destruct (fetchToken_failed s s1 Hread) as (printed & Hgets & ->).
      { intros status' data'. by rewrite Hreq. }
      match goal with
      | |- context [reportAndRethrow ?e ?st] =>
          destruct (reportAndRethrow_run e st)
            as (out & s3 & -> & Hst3 & _ & _ & Hgets3 & _)
      end.
      cbn [events localStorage] in *.
      eexists _, _. split; [reflexivity|].
      rewrite Hgets3, getsOf_app, Hgets, Hev, Hst3. split; [done|]. done. }
  assert (isBrowser = false -> tokenUrl = serverTokenUrl) as Hurl.
  { unfold Token.tokenUrl. by intros ->. }
  destruct (readCache_run s)
    as [[Hrun _]|(text & cache & s1 & Hb & Hitem & Hne & Hparse & _ & Hreq & Hev
                  & [(Hfresh & Hrun & Hst)|(Hold & Hrun & Hst)])].
  - destruct (Hmiss s Hrun eq_refl (fun _ => eq_refl)) as (out & s' & Hget & Hgets & Hserver).
    exists out, s'. rewrite Hrun. cbn [fst]. split_and!; try done.
    intros Hb. split; [by apply Hserver|]. by rewrite Hgets, Hurl.
  - unfold Token.getToken, tryCatch.
    rewrite (fetchToken_cached s s1 cache Hrun), Hrun. cbn [fst].
    eexists _, _. split; [reflexivity|]. cbn [events].
    rewrite getsOf_app, Hev, app_nil_r. split; [by rewrite app_nil_r|].
    intros Hb'. congruence.
  - destruct (Hmiss s1 Hrun Hev) as (out & s' & Hget & Hgets & Hserver).
    { intros Hb'. congruence. }
    exists out, s'. rewrite Hrun. cbn [fst]. split_and!; try done.
    intros Hb'. congruence.
Qed.

(** X26: Store and read back.  In the browser, when nothing usable is cached
    and the token service answers with a token and a device id, [getToken]
    returns them stamped with the time of the call and stores them; if the
    stored text parses back to that token, every later call made while the
    storage still holds it and less than an hour has passed returns the
    same token without a request and leaves the storage as it is. *)
Theorem getToken_round_trip s s1 status data :
  isBrowser = true ->
  readCache s = (Return None, s1) ->
  tokenRequest (requests s1) browserTokenUrl = Resolved status data ->
  truthy (tokenOf data) = true ->
  truthy (deviceIdOf data) = true ->
  let tokenData :=
    {| token := tokenOf data; deviceId := deviceIdOf data;
       timestamp := clock (clockReads s1) |} in
  setItemError (storedText tokenData) = None ->
  JSON_parse (storedText tokenData) = Some tokenData ->
  exists s',
    getToken s = (Return tokenData, s') /\
    localStorage s' = Some (storedText tokenData) /\
    forall later,
      localStorage later = localStorage s' ->
      clock (clockReads later) - timestamp tokenData < 3600000 ->
      exists later',
        getToken later = (Return tokenData, later') /\
        getsOf (events later') = getsOf (events later) /\
        localStorage later' = localStorage later.
Proof.
  intros Hb Hread Hreq Htoken Hdevice tokenData Hset Hparse.
  assert (tokenUrl = browserTokenUrl) as Hurl by (unfold Token.tokenUrl; by rewrite Hb).
  rewrite <- Hurl in Hreq.
  destruct (fetchToken_valid s s1 status data Hread Hreq Htoken Hdevice)
    as (printed & Hgets & Hfetch).
  fold tokenData in Hfetch.
  unfold Token.getToken, tryCatch. rewrite Hfetch. unfold mbind, T_bind.
  match goal with
  | |- context [saveCache ?d ?st] =>
      destruct (saveCache_run d st)
        as (out & s2 & -> & _ & _ & _ & _ & Hsaved & _)
  end.
  destruct (Hsaved Hb Hset) as (-> & Hstored & _).
  exists s2. split_and!; [done | done |].
  intros later Hlater Hfresh. rewrite Hstored in Hlater.
  destruct (readCache_run later)
    as [[_ Hnone]|(text & cache & later1 & _ & Hitem & _ & Hparse' & _ & _ & Hev
                   & [(_ & Hrun & Hst)|(Hold & _ & _)])].
  - exfalso. apply (Hnone Hb _ tokenData Hlater); [apply storedText_nonempty | done].
  - assert (text = storedText tokenData) as -> by congruence.
    assert (cache = tokenData) as -> by congruence.
    rewrite (fetchToken_cached later later1 tokenData Hrun).
    eexists. split; [reflexivity|]. cbn [events localStorage].
    split; [|done]. by rewrite getsOf_app, Hev, app_nil_r.
  - assert (text = storedText tokenData) as -> by congruence.
    assert (cache = tokenData) as -> by congruence. lia.
Qed.

(** X27: Which responses [getToken] accepts.  When nothing usable is cached
    and the token service answers with a body that is not [null] or
    [undefined]: if the token or the device id under [data] is missing or
    falsy, the call throws the error "Token atau Device ID tidak ditemukan
    dari API" and stores nothing; otherwise it returns the two with the
    time of the call, also when the storage refuses the text. *)
Theorem getToken_validates_response s s1 status data :
  readCache s = (Return None, s1) ->
  tokenRequest (requests s1) tokenUrl = Resolved status data ->
  ApiLogger.isNullish data = false ->
  exists out s',
    getToken s = (out, s') /\
    (truthy (tokenOf data) && truthy (deviceIdOf data) = false ->
     out = Throw (newError error_invalid_token) /\
     localStorage s' = localStorage s1) /\
    (truthy (tokenOf data) && truthy (deviceIdOf data) = true ->
     let tokenData :=
       {| token := tokenOf data; deviceId := deviceIdOf data;
          timestamp := clock (clockReads s1) |} in
     (forall error,
        setItemError (storedText tokenData) = Some error ->
        ApiLogger.isNullish error = false) ->
     out = Return tokenData).
Proof.
  intros Hread Hreq Hdata. unfold Token.getToken, tryCatch.
  destruct (truthy (tokenOf data) && truthy (deviceIdOf data)) eqn:Hvalid.
  - apply andb_true_iff in Hvalid as [Htoken Hdevice].
    destruct (fetchToken_valid s s1 status data Hread Hreq Htoken Hdevice)
      as (printed & Hgets & ->).
    unfold mbind, T_bind.
    match goal with
    | |- context [saveCache ?d ?st] =>
        destruct (saveCache_run d st)
          as (out & s2 & -> & _ & _ & _ & Hserver & Hsaved & Hfail)
    end.
    destruct out as [[]|error].
    + eexists _, _. split; [reflexivity|]. split; [done|]. done.
    + destruct (reportAndRethrow_run error s2) as (out & s3 & -> & _).
      eexists _, _. split; [reflexivity|]. split; [done|].
      intros _ Hobject. exfalso.
      set (tokenData := {| token := tokenOf data; deviceId := deviceIdOf data;
                           timestamp := clock (clockReads s1) |}) in *.
      destruct isBrowser eqn:Hb.
      * destruct (setItemError (storedText tokenData)) as [error'|] eqn:Hset.
        -- destruct (Hfail error' eq_refl eq_refl) as [_ Hout].
           specialize (Hout (Hobject error' eq_refl)). done.
        -- by destruct (Hsaved eq_refl eq_refl) as [? _].
      * by destruct (Hserver eq_refl) as [? _].
  - destruct (fetchToken_failed s s1 Hread) as (printed & Hgets & ->).
    { intros status' data'. rewrite Hreq. by intros [= <- <-]. }
    rewrite Hreq.
    assert (exists inner, getProp data "data" = Return inner) as [inner ->]
      by (destruct data; try done; by eexists).
    match goal with
    | |- context [reportAndRethrow ?e ?st] =>
        destruct (reportAndRethrow_run e st)
          as (out & s3 & -> & Hst3 & _ & _ & _ & Hout)
    end.
    rewrite (Hout eq_refl). cbn [localStorage] in Hst3.
    eexists _, _. split; [reflexivity|]. split; [done|]. done.
Qed.

(** X28: A failed request is passed on.  When nothing usable is cached and
    the request is rejected with an error that is not [null] or
    [undefined], [getToken] throws that same error, after one request, and
    stores nothing. *)
Theorem getToken_rethrows s s1 error :
  readCache s = (Return None, s1) ->
  tokenRequest (requests s1) tokenUrl = Rejected error ->
  ApiLogger.isNullish error = false ->
  exists s',
    getToken s = (Throw error, s') /\
    localStorage s' = localStorage s1 /\
    getsOf (events s') = getsOf (events s1) ++ [AxiosGet tokenUrl].
Proof.
  intros Hread Hreq Herror. unfold Token.getToken, tryCatch.
  destruct (fetchToken_failed s s1 Hread) as (printed & Hgets & ->).
  { intros status' data'. by rewrite Hreq. }
  rewrite Hreq.
  match goal with
  | |- context [reportAndRethrow ?e ?st] =>
      destruct (reportAndRethrow_run e st)
        as (out & s3 & -> & Hst3 & _ & _ & Hgets3 & Hout)
  end.
  rewrite (Hout Herror). cbn [localStorage events] in *.
  eexists. split; [reflexivity|]. split; [done|].
  by rewrite Hgets3, getsOf_app, Hgets.
Qed.

End WithWorld.

End TokenFacts.

(** ** Runs on sample data *)

Module RunExamples.
Import Js Samples MoreSamples.

Lemma batchDownload_first_batch_witness :
  "book" <> EmptyString /\
  Paging.requestsOf
    (Download.chapterEvents (fst (Download.batchDownload fullUpstream "book" false)))
  = [1].
Proof.
  split; [discriminate|].
  pose proof (DownloadFacts.batchDownload_first_batch fullUpstream "book" false) as H.
  cbv zeta in H. apply H. discriminate.
Defined.

Lemma rangeEffect_shows_selected_witness :
  let selected := chapterNamed "c4" "Episode 4" in
  let s := playerAt selected in
  Player.selectedChapter s = Some selected /\
  exists k : nat,
    Player.indexOfSelected s selected = Z.of_nat k /\
    Player.selectedRangeIndex (Player.rangeEffect s) = (k / 25)%nat.
Proof.
  intros selected s. split; [reflexivity|].
  destruct (PlayerFacts.rangeEffect_shows_selected s selected eq_refl) as [Hin _].
  destruct Hin as (k & c & Hk & _ & _ & Hrange & _).
  - apply (bool_decide_unpack _). vm_compute. exact I.
  - exists k. by split.
Defined.

Lemma playNext_playPrevious_round_trip_witness :
  let c2 := chapterNamed "c2" "Episode 2" in
  let c3 := chapterNamed "c3" "Episode 3" in
  let s := playerAt c2 in
  NoDup (map chapterId (Player.chapters s)) /\
  Player.selectedChapter s = Some c2 /\
  Player.chapters s !! 1%nat = Some c2 /\
  Player.chapters s !! 2%nat = Some c3 /\
  Player.selectedChapter (snd (Player.playNextEpisode s)) = Some c3 /\
  Player.selectedChapter
    (snd (Player.playPreviousEpisode (snd (Player.playNextEpisode s)))) = Some c2.
Proof.
  intros c2 c3 s.
  assert (NoDup (map chapterId (Player.chapters s))) as Hnodup
    by (apply (bool_decide_unpack _); vm_compute; exact I).
  split_and!; [exact Hnodup | reflexivity | reflexivity | reflexivity | |].
  - apply (PlayerFacts.playNext_playPrevious_round_trip s c2 1 c2 c3 Hnodup
             eq_refl eq_refl eq_refl eq_refl).
  - apply (PlayerFacts.playNext_playPrevious_round_trip s c2 1 c2 c3 Hnodup
             eq_refl eq_refl eq_refl eq_refl).
Defined.

Lemma playNext_playPrevious_at_the_ends_witness :
  let c6 := chapterNamed "c6" "Episode 6" in
  let s := playerAt c6 in
  NoDup (map chapterId (Player.chapters s)) /\
  Player.selectedChapter s = Some c6 /\
  Player.playNextEpisode s = ([], s).
Proof.
  intros c6 s.
  assert (NoDup (map chapterId (Player.chapters s))) as Hnodup
    by (apply (bool_decide_unpack _); vm_compute; exact I).
  split_and!; [exact Hnodup | reflexivity |].
  destruct (PlayerFacts.playNext_playPrevious_at_the_ends s c6 Hnodup eq_refl)
    as [Hends _].
  by apply (Hends 5%nat c6).
Defined.

Lemma fetchDramaData_loads_book_witness :
  let run :=
    Player.fetchDramaData detailUpstream (batchUpstream eightChapters) "book"
      Player.initial in
  "book" <> EmptyString /\
  detailUpstream "book" true "book_album" = Detail.Response (Some eightEpisodeBook) /\
  Detail.detailList eightEpisodeBook = Some eightEpisodes /\
  eightEpisodes <> [] /\
  PagingRuns.servesBatches (batchUpstream eightChapters) "book" eightChapters /\
  length eightChapters = length eightEpisodes /\
  length (Player.chapters (snd run)) = length eightEpisodes /\
  Player.chapterRequests (fst run) = [1; 7].
Proof.
  intros run.
  assert ("book" <> EmptyString) as Hne by discriminate.
  assert (eightEpisodes <> []) as Hsome by discriminate.
  assert (PagingRuns.servesBatches (batchUpstream eightChapters) "book" eightChapters)
    as Hserve by (intros page _; reflexivity).
  pose proof (PlayerFacts.fetchDramaData_loads_book detailUpstream
                (batchUpstream eightChapters) "book" Player.initial
                eightEpisodeBook eightEpisodes eightChapters
                Hne eq_refl eq_refl Hsome Hserve eq_refl) as H.
  cbv zeta in H. destruct H as (_ & Hlen & _ & _ & _ & _ & _ & Hreq).
  split_and!; try done.
Defined.

Lemma withLogging_fulfilled_witness :
  EndpointLogger.settles (fulfilledWith (JStr "ok")) (Return (JStr "ok")) /\
  exists st',
    EndpointLogger.withLogging "development" sampleClock sampleRandom
      chaptersEndpoint (fulfilledWith (JStr "ok")) JUndefined None ApiLogger.initial
    = (Return (JStr "ok"), st').
Proof.
  assert (EndpointLogger.settles (fulfilledWith (JStr "ok")) (Return (JStr "ok")))
    as Hsettles by (intros s; by exists s).
  split; [exact Hsettles|].
  destruct (EndpointLoggerFacts.withLogging_fulfilled "development" sampleClock
              sampleRandom chaptersEndpoint (fulfilledWith (JStr "ok")) JUndefined
              None (JStr "ok") ApiLogger.initial Hsettles)
    as (st' & _ & _ & _ & _ & Hrun & _).
  by exists st'.
Defined.

Lemma withLogging_rejected_witness :
  EndpointLogger.settles (rejectedWith networkError) (Throw networkError) /\
  ApiLogger.isNullish networkError = false /\
  exists st',
    EndpointLogger.withLogging "development" sampleClock sampleRandom
      chaptersEndpoint (rejectedWith networkError) JUndefined None ApiLogger.initial
    = (Throw networkError, st').
Proof.
  assert (EndpointLogger.settles (rejectedWith networkError) (Throw networkError))
    as Hsettles by (intros s; by exists s).
  split; [exact Hsettles|]. split; [reflexivity|].
  destruct (EndpointLoggerFacts.withLogging_rejected "development" sampleClock
              sampleRandom chaptersEndpoint (rejectedWith networkError) JUndefined
              None networkError ApiLogger.initial Hsettles eq_refl)
    as (st' & _ & _ & Hrun & _).
  by exists st'.
Defined.

Lemma withLogging_rejected_nullish_witness :
  EndpointLogger.settles (rejectedWith JUndefined) (Throw JUndefined) /\
  ApiLogger.isNullish JUndefined = true /\
  exists st' error,
    EndpointLogger.withLogging "development" sampleClock sampleRandom
      chaptersEndpoint (rejectedWith JUndefined) JUndefined None ApiLogger.initial
    = (Throw (EndpointLogger.thrownValue error), st').
Proof.
  assert (EndpointLogger.settles (rejectedWith JUndefined) (Throw JUndefined))
    as Hsettles by (intros s; by exists s).
  split; [exact Hsettles|]. split; [reflexivity|].
  destruct (EndpointLoggerFacts.withLogging_rejected_nullish "development"
              sampleClock sampleRandom chaptersEndpoint (rejectedWith JUndefined)
              JUndefined None JUndefined ApiLogger.initial Hsettles eq_refl)
    as (st' & error & _ & _ & Hrun & _).
  by exists st', error.
Defined.


Lemma cleanupOldLogsServer_keeps_newest_witness :
  NoDup (map LogFiles.fileName logDirectory) /\
  0 <= 2 /\
  LogFiles.cleanupOldLogsServer 2 logDirectory `sublist_of` logDirectory /\
  length (filter (fun f => LogFiles.isLogFile f = true)
                 (LogFiles.cleanupOldLogsServer 2 logDirectory))
  = Nat.min (length (filter (fun f => LogFiles.isLogFile f = true) logDirectory))
            (Z.to_nat 2).
Proof.
  assert (NoDup (map LogFiles.fileName logDirectory)) as Hnodup
    by (apply (bool_decide_unpack _); vm_compute; exact I).
  assert (0 <= 2) as Hmax by lia.
  pose proof (LogFilesFacts.cleanupOldLogsServer_keeps_newest 2 logDirectory
                Hnodup Hmax) as H.
  cbv zeta in H. destruct H as (Hsub & _ & Hlen & _).
  by split_and!.
Defined.

Lemma finalHeaders_auth_wins_witness :
  ApiLogger.Map_wf (Headers.serverHeaders "abc" "device-1") /\
  ApiLogger.Map_get "Tn"
    (Headers.finalHeaders clientHeaders (Headers.serverHeaders "abc" "device-1"))
  = Some "Bearer abc".
Proof.
  assert (ApiLogger.Map_wf (Headers.serverHeaders "abc" "device-1")) as Hwf
    by (apply (bool_decide_unpack _); vm_compute; exact I).
  split; [exact Hwf|].
  pose proof (HeadersFacts.finalHeaders_auth_wins clientHeaders
                (Headers.serverHeaders "abc" "device-1") Hwf) as H.
  cbv zeta in H. destruct H as (Hauth & _). by apply Hauth.
Defined.

Lemma getToken_round_trip_witness :
  let body := Token.tokenBody (JStr "abc") (JStr "device-1") in
  Token.readCache true sampleClock parseSample emptyBrowser
  = (Return None, emptyBrowser) /\
  answers body (Token.requests emptyBrowser) Token.browserTokenUrl
  = Token.Resolved 200 body /\
  truthy (Token.tokenOf body) = true /\
  truthy (Token.deviceIdOf body) = true /\
  acceptsAll (Token.storedText sampleToken) = None /\
  parseSample (Token.storedText sampleToken) = Some sampleToken /\
  exists s',
    Token.getToken true sampleClock parseSample acceptsAll (answers body) emptyBrowser
    = (Return sampleToken, s') /\
    Token.localStorage s' = Some (Token.storedText sampleToken).
Proof.
  intros body.
  assert (parseSample (Token.storedText sampleToken) = Some sampleToken) as Hparse
    by (unfold parseSample; by rewrite decide_True).
  split_and!; try reflexivity.
  destruct (TokenFacts.getToken_round_trip true sampleClock parseSample acceptsAll
              (answers body) emptyBrowser emptyBrowser 200 body
              eq_refl eq_refl eq_refl eq_refl eq_refl eq_refl Hparse)
    as (s' & Hrun & Hstored & _).
  by exists s'.
Defined.

Lemma getToken_validates_response_witness :
  let body := JObj [("data", JObj [("token", JStr "abc")])] in
  Token.readCache true sampleClock parseSample emptyBrowser
  = (Return None, emptyBrowser) /\
  answers body (Token.requests emptyBrowser) (Token.tokenUrl true)
  = Token.Resolved 200 body /\
  ApiLogger.isNullish body = false /\
  exists s',
    Token.getToken true sampleClock parseSample acceptsAll (answers body) emptyBrowser
    = (Throw (Token.newError Token.error_invalid_token), s') /\
    Token.localStorage s' = None.
Proof.
  intros body. split_and!; try reflexivity.
  destruct (TokenFacts.getToken_validates_response true sampleClock parseSample
              acceptsAll (answers body) emptyBrowser emptyBrowser 200 body
              eq_refl eq_refl eq_refl)
    as (out & s' & Hrun & Hinvalid & _).
  destruct (Hinvalid eq_refl) as [-> Hstorage].
  by exists s'.
Defined.

Lemma getToken_rethrows_witness :
  let error := Token.newError "Network Error" in
  Token.readCache false sampleClock parseSample emptyBrowser
  = (Return None, emptyBrowser) /\
  refuses error (Token.requests emptyBrowser) (Token.tokenUrl false)
  = Token.Rejected error /\
  ApiLogger.isNullish error = false /\
  exists s',
    Token.getToken false sampleClock parseSample acceptsAll (refuses error) emptyBrowser
    = (Throw error, s').
Proof.
  intros error. split_and!; try reflexivity.
  destruct (TokenFacts.getToken_rethrows false sampleClock parseSample acceptsAll
              (refuses error) emptyBrowser emptyBrowser error
              eq_refl eq_refl eq_refl)
    as (s' & Hrun & _).
  by exists s'.
Defined.

End RunExamples.
